(** * AudioCaption runners: a shallow embedding and its verified properties

    The development follows two source files of the repository:

    - [runners/base_runner.py]: class [BaseRunner] (constructor, random
      split of the caption table, id-sequence decoding, [sample],
      [evaluate]);
    - [captioning/ignite_runners/run_structure.py]: class [Runner]
      (random split of the audio records, scheduled sampling, learning-rate
      scheduling, checkpointing).

    Part I holds the embedding, one module per Python class or closure;
    Part II holds the lemmas and theorems.  Python exceptions are values of
    [exn] carried by [outcome]; Python floats are binary64 ([PrimFloat]);
    dictionaries are [gmap]s; the numpy generator is an interface
    ([RandomState]) threaded as explicit state. *)

From Stdlib Require Import ZArith List String Ascii Floats QArith Qround Reals Lra Lia.
From Stdlib Require Lqa.
From stdpp Require Import base option list gmap strings.

Set Default Proof Using "Type".
(* [naive_solver] clears hypotheses by name and warns when one is gone. *)
Set Warnings "-clear-no-such-hyp".
(* Decimal float literals are written as Python prints them. *)
Set Warnings "-inexact-float".

(* ===================================================================== *)
(** * Part I: the embedding                                               *)
(* ===================================================================== *)

(** ** Python values, exceptions and results *)

Module Py.

(** The exceptions the modelled code paths can raise. *)
Inductive exn : Type :=
| KeyError
| IndexError
| ValueError
| OverflowError
| ZeroDivisionError
| AssertionError
| UnboundLocalError (name : string)
| FileNotFoundError (path : string)
| ExternalError (what : string).

(** A call either returns or raises. *)
Inductive outcome (A : Type) : Type :=
| Ok (a : A)
| Raise (e : exn).
Arguments Ok {A} a.
Arguments Raise {A} e.

(** Sequencing: an exception skips the rest of the block. *)
#[export] Instance outcome_ret : MRet outcome := fun A a => Ok a.
#[export] Instance outcome_bind : MBind outcome := fun A B k m =>
  match m with
  | Ok a => k a
  | Raise e => Raise e
  end.

Definition is_ok {A} (m : outcome A) : bool :=
  match m with Ok _ => true | Raise _ => false end.

(** [d[key]] on a dictionary, given what [d.get(key)] is: a missing key
    raises [KeyError]. *)
Definition subscript {A} (value : option A) : outcome A :=
  match value with
  | Some x => Ok x
  | None => Raise KeyError
  end.

(** [sep.join(l)] *)
Fixpoint join (sep : string) (l : list string) : string :=
  match l with
  | [] => EmptyString
  | [x] => x
  | x :: rest => x +:+ sep +:+ join sep rest
  end.

(** [sum(len(x) for x in l)] *)
Definition total_length (l : list string) : nat :=
  foldr (fun x acc => String.length x + acc) 0 l.

End Py.

Import Py.

(** ** Vocabulary and id-sequence decoding ([BaseRunner._convert_idx2sentence]) *)

Module Vocab.

(** [vocabulary.idx2word]: a dict from integer ids to token strings. *)
Record Vocabulary : Type := { idx2word : gmap Z string }.

Definition END : string := "<end>".
Definition START : string := "<start>".

End Vocab.

Module Decode.
Import Vocab.

(** What [_convert_idx2sentence] returns: [candidate] is rebound to a
    [str] when [zh] is false and stays a [list] otherwise. *)
Inductive caption : Type :=
| Str (s : string)
| Lst (l : list string).

(** The [for word_id in word_ids] loop, with [candidate] as accumulator:
    [break] on the end sentinel, [continue] on the start sentinel,
    [candidate.append(word)] otherwise. *)
Fixpoint candidate_loop (idx2word : gmap Z string) (word_ids : list Z)
         (candidate : list string) : outcome (list string) :=
  match word_ids with
  | [] => Ok candidate
  | word_id :: rest =>
      match idx2word !! word_id with
      | None => Raise KeyError
      | Some word =>
          if String.eqb word END then Ok candidate
          else if String.eqb word START then candidate_loop idx2word rest candidate
          else candidate_loop idx2word rest (candidate ++ [word])
      end
  end.

Definition _convert_idx2sentence (word_ids : list Z) (vocabulary : Vocabulary)
           (zh : bool) : outcome caption :=
  candidate ← candidate_loop (idx2word vocabulary) word_ids [];
  Ok (if negb zh then Str (join " " candidate) else Lst candidate).

(** The ["caption"] field of a prediction row in [evaluate]:
    ["".join(pred[0]) if zh else pred[0]].  Joining a [str] with the
    empty separator gives the same [str] back. *)
Definition evaluate_caption (zh : bool) (pred0 : caption) : caption :=
  if zh then
    match pred0 with
    | Lst l => Str (join "" l)
    | Str s => Str s
    end
  else pred0.

End Decode.

(** ** Numbers: Python [int] and [float] *)

Module Num.

(** [float(z)]: the binary64 value nearest to [z], ties to even (exact
    below 2^53, which every count and percentage here is). *)
Definition float_of_int (z : Z) : float :=
  SF2Prim (binary_normalize 53 1024 z 0 false).

(** [int(x)]: truncation toward zero; infinities and NaN raise. *)
Definition int_of_float (x : float) : outcome Z :=
  match Prim2SF x with
  | S754_zero _ => Ok 0%Z
  | S754_finite s m e =>
      let a := if (0 <=? e)%Z then Z.shiftl (Z.pos m) e
               else Z.shiftr (Z.pos m) (- e) in
      Ok (if s then (- a)%Z else a)
  | S754_infinity _ => Raise OverflowError
  | S754_nan => Raise ValueError
  end.

(** A number read from the configuration (YAML): an integer or a float. *)
Inductive number : Type :=
| Int (z : Z)
| Float (x : float).

(** The implicit conversion of an operand of a float operation. *)
Definition to_float (n : number) : float :=
  match n with
  | Int z => float_of_int z
  | Float x => x
  end.

(** The rational a finite float stands for. *)
Definition Q_of_float (x : float) : option Q :=
  match Prim2SF x with
  | S754_zero _ => Some 0%Q
  | S754_finite s m e =>
      Some ((if s then -1 else 1) * inject_Z (Z.pos m) * 2 ^ e)%Q
  | S754_infinity _ | S754_nan => None
  end.

(** The exact value of a number of the configuration. *)
Definition exact (n : number) : option Q :=
  match n with
  | Int z => Some (inject_Z z)
  | Float x => Q_of_float x
  end.

End Num.

(** ** The global numpy generator *)

Module Numpy.

(** numpy is an external library: its generator is an interface.  The
    state is threaded explicitly; [permutation n] returns a permutation
    of [0 .. n-1] and the next state. *)
Class RandomState : Type := {
  rng : Type;
  seed : Z -> rng;
  permutation : nat -> rng -> list nat * rng;
  permutation_spec : forall n g, (permutation n g).1 ≡ₚ seq 0 n
}.

(** [np.random.choice(n, size, replace=False)]: the first [size] entries
    of a permutation of the population; a negative size or one above
    the population raises [ValueError] and leaves the state alone. *)
Definition choice `{RandomState} (n : nat) (size : Z) (g : rng)
  : outcome (list nat) * rng :=
  if ((size <? 0) || (Z.of_nat n <? size))%Z then (Raise ValueError, g)
  else
    let '(p, g') := permutation n g in
    (Ok (take (Z.to_nat size) p), g').

(** [np.random.choice(a, size, replace=False)] on an array [a]:
    [a[idx]] for the indices drawn as above. *)
Definition choice_array `{RandomState} (a : list string) (size : Z) (g : rng)
  : outcome (list string) * rng :=
  match choice (length a) size g with
  | (Ok idx, g') => (Ok ((fun i => a !!! i) <$> idx), g')
  | (Raise e, g') => (Raise e, g')
  end.

End Numpy.

(** ** [Runner._get_dataloaders]: the random split of the audio records *)

Module Runner.
Import Num Numpy.

(** One entry of [caption_info[i]["captions"]]: a JSON object.  An
    annotation carries raw text and/or a tokenised form, so each of the
    two fields may be missing. *)
Record caption_entry : Type := {
  cap_id : string;
  caption : option string;
  token : option (list string)
}.

(** One entry of [json.load(...)["audios"]]. *)
Record audio : Type := {
  audio_id : string;
  captions : list caption_entry
}.

Record split : Type := {
  val_audio_idxs : list nat;
  train_audio_idxs : list nat
}.

(** [int(len(caption_info) * (1 - data_config["train_percent"] / 100.))] *)
Definition val_size (caption_info : list audio) (train_percent : number)
  : outcome Z :=
  int_of_float
    (float_of_int (Z.of_nat (length caption_info))
     * (1 - to_float train_percent / 100))%float.

(** The branch taken when the configuration has no pre-split ["train"]
    entry: validation indices are drawn, training indices are the
    indices of [range(len(caption_info))] not drawn. *)
Definition _get_dataloaders `{RandomState}
    (caption_info : list audio) (train_percent : number) (g : rng)
  : outcome split * rng :=
  match val_size caption_info train_percent with
  | Raise e => (Raise e, g)
  | Ok size =>
      match choice (length caption_info) size g with
      | (Raise e, g') => (Raise e, g')
      | (Ok val_idxs, g') =>
          (Ok {| val_audio_idxs := val_idxs;
                 train_audio_idxs :=
                   filter (fun idx => idx ∉ val_idxs)
                          (seq 0 (length caption_info)) |}, g')
      end
  end.

End Runner.

(** ** [BaseRunner]: constructor and the random split of the caption table *)

Module BaseRunner.
Import Num Numpy.

(** The process-wide state the constructor touches. *)
Record world `{RandomState} : Type := {
  np_random : rng;            (* numpy's global generator *)
  torch_seed : option Z;      (* the seed last given to torch *)
  cuda_is_available : bool
}.

Inductive device : Type := cpu | cuda.

Record runner : Type := {
  self_seed : Z;
  self_device : device
}.

(** [BaseRunner.__init__(self, seed=1)]: [np.random.seed] accepts seeds
    from 0 to 2^32 - 1 and raises [ValueError] on any other. *)
Definition __init__ `{RandomState} (seed : Z) (w : world) : outcome (runner * world) :=
  if ((0 <=? seed) && (seed <? 2 ^ 32))%Z then
    Ok ({| self_seed := seed;
           self_device := if cuda_is_available w then cuda else cpu |},
        {| np_random := Numpy.seed seed;
           torch_seed := Some seed;
           cuda_is_available := cuda_is_available w |})
  else Raise ValueError.

(** One row of the caption table. *)
Record row : Type := {
  key : string;
  caption : string;
  tokens : list string
}.

(** A data frame: rows with their index labels. *)
Abbreviation DataFrame := (list (nat * row)).

(** [pd.read_json(config["caption_file"])]: rows labelled [0 .. n-1]. *)
Definition read_json (rows : list row) : DataFrame :=
  imap (fun i r => (i, r)) rows.

(** [Series.unique()]: distinct values in order of first appearance. *)
Fixpoint unique_from (seen : list string) (l : list string) : list string :=
  match l with
  | [] => []
  | k :: rest =>
      if decide (k ∈ seen) then unique_from seen rest
      else k :: unique_from (k :: seen) rest
  end.
Definition unique (l : list string) : list string := unique_from [] l.

Record split : Type := {
  train_keys : list string;
  train_df : DataFrame;
  val_df : DataFrame
}.

(** [int(len(caption_df["key"].unique()) * (config["train_percent"] / 100.))] *)
Definition train_size (caption_df : DataFrame) (train_percent : number)
  : outcome Z :=
  int_of_float
    (float_of_int (Z.of_nat (length (unique ((fun r => key r.2) <$> caption_df))))
     * (to_float train_percent / 100))%float.

(** The branch taken when the configuration names one ["caption_file"]:
    training keys are drawn, training rows are the rows with a drawn key,
    validation rows are the rows whose label is not a training label. *)
Definition _get_dataloaders `{RandomState}
    (caption_file : list row) (train_percent : number) (g : rng)
  : outcome split * rng :=
  let caption_df := read_json caption_file in
  match train_size caption_df train_percent with
  | Raise e => (Raise e, g)
  | Ok size =>
      match choice_array (unique ((fun r => key r.2) <$> caption_df)) size g with
      | (Raise e, g') => (Raise e, g')
      | (Ok keys, g') =>
          let train := filter (fun r => key r.2 ∈ keys) caption_df in
          (Ok {| train_keys := keys;
                 train_df := train;
                 val_df := filter (fun r => r.1 ∉ train.*1) caption_df |}, g')
      end
  end.

End BaseRunner.

(** ** The sample sizes as the specification words them *)

Module SplitSpec.

(** Written from the specification, to be compared with [Runner.val_size]
    and [BaseRunner.train_size]: the sizes in exact arithmetic.
    [round-down(total * (1 - train_percent/100))] is the specified size of
    the validation sample. *)
Definition val_size (total : nat) (train_percent : Q) : Z :=
  Qfloor (inject_Z (Z.of_nat total) * (1 - train_percent / 100))%Q.

(** The retention percentage of the distinct keys, rounded down: the size
    of the training sample of [BaseRunner]. *)
Definition train_size (n_keys : nat) (train_percent : Q) : Z :=
  Qfloor (inject_Z (Z.of_nat n_keys) * (train_percent / 100))%Q.

End SplitSpec.

(** ** The constructor [Runner] inherits *)

Module IgniteBase.
Import Numpy.

(** Modelled from the spec: [BaseRunner.__init__] of
    [captioning/ignite_runners/base.py], the class [Runner] inherits from,
    whose file is not among the sources.  The runner constructor seeds the
    numpy random generator with the configured seed; [Runner.train] reads
    the seed back as [self.seed].  What else the constructor does is not
    known and is left out: the rest of the process state is passed on as
    it is.  The result is [self.seed] and the new state; [np.random.seed]
    accepts seeds from 0 to 2^32 - 1 and raises [ValueError] on any
    other. *)
Definition __init__ `{RandomState} (seed : Z) (w : BaseRunner.world)
  : outcome (Z * BaseRunner.world) :=
  if ((0 <=? seed) && (seed <? 2 ^ 32))%Z then
    Ok (seed,
        {| BaseRunner.np_random := Numpy.seed seed;
           BaseRunner.torch_seed := BaseRunner.torch_seed w;
           BaseRunner.cuda_is_available := BaseRunner.cuda_is_available w |})
  else Raise ValueError.

End IgniteBase.

(** ** A run: construct the runner, then split *)

Module Run.
Import Num Numpy.

(** [Runner(seed).train(config)] up to the split it draws. *)
Definition Runner_split `{RandomState} (seed : Z) (caption_info : list Runner.audio)
    (train_percent : number) (w : BaseRunner.world) : outcome Runner.split :=
  '(self_seed, w') ← IgniteBase.__init__ seed w;
  (Runner._get_dataloaders caption_info train_percent (BaseRunner.np_random w')).1.


End Run.

(** ** Scheduled sampling: the [update_ss_ratio] handler of [Runner.train] *)

Module ScheduledSampling.

(** The float operations the handler uses.  The handler is written once
    over this interface and read twice: over binary64, which is what
    Python computes, and over the reals, an idealisation in which every
    operation is exact. *)
Class FloatOps (F : Type) : Type := {
  of_nat : nat -> F;       (* the conversion of [total_iters] *)
  lit_1 : F;               (* the literal [1.0] *)
  lit_001 : F;             (* the literal [0.01] *)
  fsub : F -> F -> F;
  fmul : F -> F -> F;
  fdiv : F -> F -> F;
  fpow : F -> F -> F       (* [x ** y] *)
}.

(** [conf["ss_args"]]; [final_ss_ratio] need not be present. *)
Record ss_args (F : Type) : Type := {
  ss_mode : string;
  ss_ratio : F;
  final_ss_ratio : option F
}.
Arguments ss_mode {F} _.
Arguments ss_ratio {F} _.
Arguments final_ss_ratio {F} _.

Definition set_ss_ratio {F} (a : ss_args F) (r : F) : ss_args F :=
  {| ss_mode := ss_mode a; ss_ratio := r; final_ss_ratio := final_ss_ratio a |}.

(** One firing of the handler: [num_iter] is [len(train_dataloader)],
    [num_epoch] is [conf["epochs"]].  Dividing by a zero [total_iters]
    raises; a mode other than the two named ones changes nothing. *)
Definition update_ss_ratio {F} `{FloatOps F} (num_iter num_epoch : nat)
    (a : ss_args F) : outcome (ss_args F) :=
  let total_iters := num_iter * num_epoch in
  if String.eqb (ss_mode a) "exponential" then
    if Nat.eqb total_iters 0 then Raise ZeroDivisionError
    else Ok (set_ss_ratio a
               (fmul (ss_ratio a) (fpow lit_001 (fdiv lit_1 (of_nat total_iters)))))
  else if String.eqb (ss_mode a) "linear" then
    match final_ss_ratio a with
    | None => Raise KeyError
    | Some final_ss =>
        if Nat.eqb total_iters 0 then Raise ZeroDivisionError
        else Ok (set_ss_ratio a
                   (fsub (ss_ratio a)
                         (fdiv (fsub lit_1 final_ss) (of_nat total_iters))))
    end
  else Ok a.

(** The handler fired at the start of each of [k] iterations. *)
Fixpoint iterations {F} `{FloatOps F} (k : nat) (num_iter num_epoch : nat)
    (a : ss_args F) : outcome (ss_args F) :=
  match k with
  | O => Ok a
  | S k' =>
      a' ← update_ss_ratio num_iter num_epoch a;
      iterations k' num_iter num_epoch a'
  end.

(** Exact arithmetic: an idealisation of the floats the handler
    computes with. *)
Definition real_ops : FloatOps R :=
  {| of_nat := INR; lit_1 := 1%R; lit_001 := (1 / 100)%R;
     fsub := Rminus; fmul := Rmult; fdiv := Rdiv; fpow := Rpower |}.

(** Binary64 arithmetic.  [x ** y] on floats is the platform's [pow],
    which has no definition here: it is a parameter, and the linear mode
    never calls it. *)
Definition binary64_ops (pow : float -> float -> float) : FloatOps float :=
  {| of_nat := fun n => Num.float_of_int (Z.of_nat n);
     lit_1 := 1%float; lit_001 := 0.01%float;
     fsub := PrimFloat.sub; fmul := PrimFloat.mul; fdiv := PrimFloat.div;
     fpow := pow |}.

End ScheduledSampling.

(** ** Checkpointing: the [save_model] handler of [Runner.train] *)

Module Checkpoint.

(** [conf["improvecriterion"]]: which way a score improves. *)
Inductive direction : Type := Maximize | Minimize.

(** [x] is strictly better than [y]. *)
Definition better (d : direction) (x y : Q) : Prop :=
  match d with
  | Maximize => (y < x)%Q
  | Minimize => (x < y)%Q
  end.

Definition Qltb (x y : Q) : bool := negb (Qle_bool y x).

Definition betterb (d : direction) (x y : Q) : bool :=
  match d with
  | Maximize => Qltb y x
  | Minimize => Qltb x y
  end.

(** Modelled from the spec: [train_util.criterion_improver], whose file
    ([captioning/utils/train_util.py]) is not among the sources.  The
    specification has the checkpoint manager track the best score seen so
    far in the run and report an improvement if and only if the new score
    strictly improves over it, in the configured direction.  The closure's
    state is the best score seen so far, absent before the first score;
    the call returns whether the score improved and the new state. *)
Definition crtrn_imprvd (d : direction) (score : Q) (best : option Q)
  : bool * option Q :=
  match best with
  | None => (true, Some score)
  | Some b => if betterb d score b then (true, Some score) else (false, Some b)
  end.

Section SaveModel.

(** The state dictionaries of the torch objects are opaque here. *)
Context {ModelState OptimizerState SchedulerState : Type}.

(** The objects the handler closes over, as they are at one evaluation
    epoch.  [model_module] is the network itself: [model] when the run is
    not distributed, [model.module] (inside the distributed wrapper) when
    it is. *)
Record objects : Type := {
  model_module : ModelState;
  optimizer : OptimizerState;
  scheduler : SchedulerState;
  vocabulary : Vocab.Vocabulary;
  structure_vocabulary : Vocab.Vocabulary
}.

(** The dictionary [dump] built by the handler. *)
Record dump : Type := {
  dump_model : ModelState;
  dump_optimizer : OptimizerState;
  dump_lr_scheduler : SchedulerState;
  dump_vocabulary : gmap Z string;
  dump_structure_vocabulary : gmap Z string
}.

Definition make_dump (o : objects) : dump :=
  {| dump_model := model_module o;
     dump_optimizer := optimizer o;
     dump_lr_scheduler := scheduler o;
     dump_vocabulary := Vocab.idx2word (vocabulary o);
     dump_structure_vocabulary := Vocab.idx2word (structure_vocabulary o) |}.

(** The two files under [outputdir]. *)
Inductive file : Type := best_pth | last_pth.

(** One firing of [save_model] on the evaluator's [EPOCH_COMPLETED]: the
    [torch.save] calls it makes, in order, and the improver's new state.
    [score] is [engine.state.metrics["score"]]. *)
Definition save_model (d : direction) (o : objects) (score : Q)
    (best : option Q) : list (file * dump) * option Q :=
  let dump := make_dump o in
  let '(improved, best') := crtrn_imprvd d score best in
  ((if improved then [(best_pth, dump)] else []) ++ [(last_pth, dump)], best').

(** A run: one firing per evaluation epoch, each with the objects and the
    score of that epoch; the result lists the writes of each epoch. *)
Fixpoint evaluation_epochs (d : direction) (best : option Q)
    (epochs : list (objects * Q)) : list (list (file * dump)) :=
  match epochs with
  | [] => []
  | (o, score) :: rest =>
      let '(writes, best') := save_model d o score best in
      writes :: evaluation_epochs d best' rest
  end.

End SaveModel.

Arguments objects : clear implicits.
Arguments dump : clear implicits.

End Checkpoint.

(** ** The score report of [BaseRunner.evaluate] *)

Module Scoring.

(** The metric named at the start of a report line. *)
Inductive metric : Type :=
| Bleu_ (n : nat)      (* ["Bleu-{}"], n = 1 .. 4 *)
| ROUGE
| CIDEr
| Meteor
| Spice
| SentenceBert
| Diversity.

#[export] Instance metric_eq_dec : EqDecision metric.
Proof. solve_decision. Defined.

(** One line written to the report [f]: the metric and its score. *)
Definition line : Type := metric * Q.

(** The scorers are external: for one evaluation, each is what its
    construction and its [compute_score] call come to, a score or an
    exception.  [Bleu] returns the list [score] of its n-gram scores. *)
Record scorers : Type := {
  Bleu : outcome (list Q);
  Rouge : outcome Q;
  Cider : outcome Q;
  Meteor_ : outcome Q;
  Spice_ : outcome Q;
  SentenceBert_ : outcome Q;
  diversity_evaluate : outcome Q
}.

(** Statements that write to the report and may raise: the state is the
    list of lines written so far. *)
Definition io (A : Type) : Type := list line -> outcome A * list line.

#[export] Instance io_ret : MRet io := fun A a report => (Ok a, report).
#[export] Instance io_bind : MBind io := fun A B k m report =>
  match m report with
  | (Ok a, report') => k a report'
  | (Raise e, report') => (Raise e, report')
  end.

(** A scorer call. *)
Definition call {A} (r : outcome A) : io A := fun report => (r, report).

(** [f.write(...)] *)
Definition write (m : metric) (score : Q) : io unit :=
  fun report => (Ok tt, report ++ [(m, score)]).

(** [score[n]] *)
Definition index (score : list Q) (n : nat) : io Q :=
  call (match score !! n with Some x => Ok x | None => Raise IndexError end).

(** [for n in range(4): f.write("Bleu-{}: ...".format(n + 1, score[n]))] *)
Fixpoint write_bleu (score : list Q) (ns : list nat) : io unit :=
  match ns with
  | [] => mret tt
  | n :: rest =>
      x ← index score n;
      _ ← write (Bleu_ (n + 1)) x;
      write_bleu score rest
  end.

(** The scoring part of [evaluate], from opening the report to its last
    line. *)
Definition write_scores (zh : bool) (S : scorers) : io unit :=
  score ← call (Bleu S);
  _ ← write_bleu score (seq 0 4);
  score ← call (Rouge S);
  _ ← write ROUGE score;
  score ← call (Cider S);
  _ ← write CIDEr score;
  _ ← (if negb zh then
         score ← call (Meteor_ S);
         _ ← write Meteor score;
         score ← call (Spice_ S);
         write Spice score
       else mret tt);
  score ← call (SentenceBert_ S);
  _ ← write SentenceBert score;
  score ← call (diversity_evaluate S);
  write Diversity score.

(** The report starts empty ([open(..., "w")]). *)
Definition evaluate_report (zh : bool) (S : scorers) : outcome unit * list line :=
  write_scores zh S [].

End Scoring.

(** ** Learning-rate scheduling: [update_lr] and where [Runner.train] attaches it *)

Module LrSchedule.

Inductive engine : Type := trainer | evaluator.
Inductive event : Type := ITERATION_STARTED | EPOCH_COMPLETED.

#[export] Instance engine_eq_dec : EqDecision engine.
Proof. solve_decision. Defined.
#[export] Instance event_eq_dec : EqDecision event.
Proof. solve_decision. Defined.

(** A call of the scheduler's [step], with the value passed, if any. *)
Inductive step_call : Type := step (metric_value : option Q).

(** [update_lr(engine, metric=None)]; [class_name] is
    [scheduler.__class__.__name__] and [metrics] is [engine.state.metrics]. *)
Definition update_lr (class_name : string) (metrics : gmap string Q)
    (metric : option string) : outcome step_call :=
  if String.eqb class_name "ReduceLROnPlateau" then
    match metric with
    | None => Raise AssertionError
    | Some m =>
        match metrics !! m with
        | None => Raise KeyError
        | Some val_result => Ok (step (Some val_result))
        end
    end
  else Ok (step None).

(** The class names stepped on the evaluator's [EPOCH_COMPLETED]. *)
Definition epoch_stepped : list string :=
  ["StepLR"; "ReduceLROnPlateau"; "ExponentialLR"; "MultiStepLR"].

(** The handler registration: on which engine and event [update_lr]
    fires, and the extra argument it is registered with. *)
Definition attach (class_name : string) : engine * event * option string :=
  if bool_decide (class_name ∈ epoch_stepped)
  then (evaluator, EPOCH_COMPLETED, Some "score"%string)
  else (trainer, ITERATION_STARTED, None).

(** An event fired during the run, with the metrics of its engine. *)
Record fired : Type := {
  on_engine : engine;
  on_event : event;
  state_metrics : gmap string Q
}.

(** The scheduler steps one fired event causes. *)
Definition dispatch (class_name : string) (f : fired) : outcome (list step_call) :=
  let '(eng, ev, metric) := attach class_name in
  if bool_decide (on_engine f = eng ∧ on_event f = ev) then
    s ← update_lr class_name (state_metrics f) metric;
    Ok [s]
  else Ok [].

(** The scheduler steps of a whole run, in order. *)
Fixpoint run (class_name : string) (trace : list fired) : outcome (list step_call) :=
  match trace with
  | [] => Ok []
  | f :: rest =>
      steps ← dispatch class_name f;
      more ← run class_name rest;
      Ok (steps ++ more)
  end.

End LrSchedule.

(** ** [BaseRunner.sample] and its closure [_sample] *)

Module Sample.
Import Vocab Decode.

(** A local variable of a Python function: unbound until assigned. *)
Definition local (A : Type) : Type := option A.

(** Reading a local: an unbound one raises [UnboundLocalError]. *)
Definition read {A} (name : string) (v : local A) : outcome A :=
  match v with
  | Some x => Ok x
  | None => Raise (UnboundLocalError name)
  end.

(** One batch of the data loader with what the model returns for it:
    [batch[0]] and [output["seqs"]]. *)
Record batch : Type := {
  keys : list string;
  forward_seqs : outcome (list (list Z))
}.

(** [dump["model"]], as far as [sample] uses it: its [max_length] and
    what [model.to(self.device)] comes to. *)
Record model : Type := {
  model_max_length : Z;
  model_to : outcome unit
}.

(** [dump["config"]]: a dictionary; the two entries [sample] reads. *)
Record config : Type := {
  config_vocab_file : option string;
  config_zh : option bool
}.

(** What [saved.pth] holds: a dictionary; the three entries [sample]
    reads, each of which may be missing. *)
Record checkpoint : Type := {
  saved_model : option model;
  saved_scaler : option unit;
  saved_config : option config
}.

(** What surrounds the call: whether [tableprint] can be imported, what
    [torch.load] returns or raises for a path, what the construction of
    the data set comes to, and the construction of the loader with the
    batches it yields. *)
Record environment : Type := {
  import_tableprint : outcome unit;
  torch_load_checkpoint : string -> outcome checkpoint;
  torch_load_vocabulary : string -> outcome Vocabulary;
  SJTUDatasetEval : outcome unit;
  DataLoader : outcome (list batch)
}.

(** [os.path.join(a, b)] for a directory [a] without a trailing slash. *)
Definition path_join (a b : string) : string := a +:+ "/" +:+ b.

(** What is written to [writer]. *)
Inductive out_line : Type :=
| Header (width_length : Z)
| Newline
| Row (key sentence : string)
| Bottom
| Unique (n : nat).

(** The state the closure shares with [sample]: the lines written and the
    list [sentences]. *)
Definition shared : Type := list out_line * list string.

(** The loop [for idx, seq in enumerate(seqs)] of [_sample].  [sentence]
    is a local of [_sample]: it is assigned only when the caption is a
    list, and read on every row. *)
Fixpoint _sample_loop (vocabulary : Vocabulary) (zh : bool) (keys : list string)
    (idx : nat) (seqs : list (list Z)) (sentence : local string) (st : shared)
  : outcome unit * shared :=
  match seqs with
  | [] => (Ok tt, st)
  | seq :: rest =>
      match _convert_idx2sentence seq vocabulary zh with
      | Raise e => (Raise e, st)
      | Ok caption =>
          let sentence :=
            match caption with
            | Lst l => Some (join " " l)
            | Str _ => sentence
            end in
          match keys !! idx with
          | None => (Raise IndexError, st)
          | Some key =>
              match read "sentence" sentence with
              | Raise e => (Raise e, st)
              | Ok s =>
                  _sample_loop vocabulary zh keys (S idx) rest sentence
                               (st.1 ++ [Row key s], st.2 ++ [s])
              end
          end
      end
  end.

(** [_sample(engine, batch)]: every call starts with [sentence] unbound. *)
Definition _sample (vocabulary : Vocabulary) (zh : bool) (b : batch) (st : shared)
  : outcome unit * shared :=
  match forward_seqs b with
  | Raise e => (Raise e, st)
  | Ok seqs => _sample_loop vocabulary zh (keys b) 0 seqs None st
  end.

(** [sample_engine.run(dataloader)] *)
Fixpoint engine_run (vocabulary : Vocabulary) (zh : bool) (batches : list batch)
    (st : shared) : outcome unit * shared :=
  match batches with
  | [] => (Ok tt, st)
  | b :: rest =>
      match _sample vocabulary zh b st with
      | (Ok _, st') => engine_run vocabulary zh rest st'
      | (Raise e, st') => (Raise e, st')
      end
  end.

(** [sample] from its first statement to the construction of the loader
    (lines 144 to 165), in source order: the import, the load of the
    checkpoint and its three subscripts, the subscript of the
    configuration and the load of the vocabulary, [config["zh"]], the move
    of the model to the device, the data set and the loader. *)
Definition sample_setup (env : environment) (experiment_path : string)
  : outcome (model * Vocabulary * bool * list batch) :=
  _ ← import_tableprint env;
  dump ← torch_load_checkpoint env (path_join experiment_path "saved.pth");
  model ← subscript (saved_model dump);
  scaler ← subscript (saved_scaler dump);
  config ← subscript (saved_config dump);
  vocab_file ← subscript (config_vocab_file config);
  vocabulary ← torch_load_vocabulary env vocab_file;
  zh ← subscript (config_zh config);
  _ ← model_to model;
  _ ← SJTUDatasetEval env;
  batches ← DataLoader env;
  Ok (model, vocabulary, zh, batches).

(** [BaseRunner.sample].  The result is the call's outcome and the
    content of the output file, [None] while the file has not been opened.
    [max_length] is a local of [sample] (it is assigned in the body) and
    not one of its parameters, so it starts unbound. *)
Definition sample (env : environment)
    (experiment_path feature_file predict_scp output : string)
  : outcome unit * option (list out_line) :=
  let max_length : local (option Z) := None in
  match sample_setup env experiment_path with
  | Raise e => (Raise e, None)
  | Ok (model, vocabulary, zh, batches) =>
      match read "max_length" max_length with
      | Raise e => (Raise e, None)
      | Ok v =>
          let max_length :=
            match v with None => model_max_length model | Some n => n end in
          let width_length := (max_length * 4)%Z in
          let st0 : shared := ([Header width_length; Newline], []) in
          match engine_run vocabulary zh batches st0 with
          | (Raise e, st) => (Raise e, Some st.1)
          | (Ok _, st) =>
              (Ok tt,
               Some (st.1 ++ [Bottom; Unique (length (remove_dups st.2))]))
          end
      end
  end.

End Sample.

(** ** [Runner._get_dataloaders]: what is built from the split *)

Module RunnerData.
Import Runner Decode.

(** [caption["token" if zh else "caption"]]: a token list or a string.
    [zh] is what the configuration holds under ["zh"], if anything
    ([data_config["zh"]] in the random-split branch, [config["zh"]] in the
    pre-split one): the subscript of the configuration is evaluated first,
    then that of the caption, and either raises [KeyError] on a missing
    key. *)
Definition reference (zh : option bool) (c : caption_entry)
  : outcome Decode.caption :=
  z ← subscript zh;
  if z : bool then t ← subscript (token c); Ok (Lst t)
  else t ← subscript (Runner.caption c); Ok (Str t).

(** [for caption in caption_info[audio_idx]["captions"]:
       key2refs[audio_id].append(...)], on the list under [audio_id]. *)
Fixpoint append_refs (zh : option bool) (captions : list caption_entry)
    (refs : list Decode.caption) : outcome (list Decode.caption) :=
  match captions with
  | [] => Ok refs
  | c :: rest =>
      r ← reference zh c;
      append_refs zh rest (refs ++ [r])
  end.

(** [for audio_idx in idxs: audio_id = ...; key2refs[audio_id] = []; ...] *)
Fixpoint key2refs_loop (caption_info : list audio) (zh : option bool)
    (idxs : list nat) (key2refs : gmap string (list Decode.caption))
  : outcome (gmap string (list Decode.caption)) :=
  match idxs with
  | [] => Ok key2refs
  | audio_idx :: rest =>
      match caption_info !! audio_idx with
      | None => Raise IndexError
      | Some a =>
          refs ← append_refs zh (captions a) [];
          key2refs_loop caption_info zh rest (<[audio_id a := refs]> key2refs)
      end
  end.

(** [[caption_info[audio_idx]["audio_id"] for audio_idx in val_audio_idxs]] *)
Fixpoint audio_ids (caption_info : list audio) (idxs : list nat)
  : outcome (list string) :=
  match idxs with
  | [] => Ok []
  | audio_idx :: rest =>
      match caption_info !! audio_idx with
      | None => Raise IndexError
      | Some a => ids ← audio_ids caption_info rest; Ok (audio_id a :: ids)
      end
  end.

(** [{audio_id: table[audio_id] for audio_id in val_audio_ids}]: a feature
    table (audio id to storage path) cut down to the listed ids; an id the
    table lacks raises [KeyError]. *)
Fixpoint restrict (table : gmap string string) (ids : list string)
    (acc : gmap string string) : outcome (gmap string string) :=
  match ids with
  | [] => Ok acc
  | audio_id :: rest =>
      match table !! audio_id with
      | None => Raise KeyError
      | Some path => restrict table rest (<[audio_id := path]> acc)
      end
  end.

Record data : Type := {
  val_audio_ids : list string;
  val_raw_audio_to_h5 : gmap string string;
  val_fc_audio_to_h5 : gmap string string;
  val_attn_audio_to_h5 : gmap string string;
  train_key2refs : gmap string (list Decode.caption);
  val_key2refs : gmap string (list Decode.caption)
}.

(** The constructions of the branch that are not looked into: what
    building the training data set, its sampler and its loader comes to
    (lines 59 to 76), and what building the validation data set and its
    loader comes to once its three tables are there (lines 78 to 87). *)
Record loaders : Type := {
  train_dataloader : outcome unit;
  val_dataloader : outcome unit
}.

(** The rest of the random-split branch, in source order: the training
    loader, the validation ids, the three feature tables of the validation
    data set and its loader, then the references of the training and of
    the validation records. *)
Definition build (l : loaders) (caption_info : list audio)
    (raw_audio_to_h5 fc_audio_to_h5 attn_audio_to_h5 : gmap string string)
    (zh : option bool) (s : split) : outcome data :=
  _ ← train_dataloader l;
  ids ← audio_ids caption_info (val_audio_idxs s);
  raw ← restrict raw_audio_to_h5 ids ∅;
  fc ← restrict fc_audio_to_h5 ids ∅;
  attn ← restrict attn_audio_to_h5 ids ∅;
  _ ← val_dataloader l;
  train ← key2refs_loop caption_info zh (train_audio_idxs s) ∅;
  val ← key2refs_loop caption_info zh (val_audio_idxs s) ∅;
  Ok {| val_audio_ids := ids;
        val_raw_audio_to_h5 := raw;
        val_fc_audio_to_h5 := fc;
        val_attn_audio_to_h5 := attn;
        train_key2refs := train;
        val_key2refs := val |}.

End RunnerData.

(** ** [BaseRunner._get_dataloaders]: the references of the two sides *)

Module BaseRunnerData.
Import BaseRunner Decode.

(** The column the references are read from: ["tokens"] when [zh],
    ["caption"] otherwise. *)
Definition column (zh : bool) (r : row) : Decode.caption :=
  if zh then Lst (tokens r) else Str (BaseRunner.caption r).

(** [df.groupby("key")[column].apply(list).to_dict()]: every key with the
    column values of its rows, in row order. *)
Definition groupby_to_dict (zh : bool) (df : DataFrame)
  : gmap string (list Decode.caption) :=
  foldl (fun m r => <[key r.2 := default [] (m !! key r.2) ++ [column zh r.2]]> m)
        ∅ df.

Record refs : Type := {
  train_key2refs : gmap string (list Decode.caption);
  val_key2refs : gmap string (list Decode.caption)
}.

Definition key2refs (zh : bool) (s : split) : refs :=
  {| train_key2refs := groupby_to_dict zh (train_df s);
     val_key2refs := groupby_to_dict zh (val_df s) |}.

End BaseRunnerData.

(** ** [BaseRunner.evaluate] and [BaseRunner.dcase_predict]: collecting predictions *)

Module Predict.
Import Vocab Decode Sample.

(** A Python [dict] with string keys, as the list of its items in
    insertion order. *)
Definition odict (V : Type) : Type := list (string * V).

(** [d[k] = v]: a key already present keeps its place and gets the new
    value; a new key goes to the end. *)
Fixpoint setitem {V} (d : odict V) (k : string) (v : V) : odict V :=
  match d with
  | [] => [(k, v)]
  | (k', v') :: rest =>
      if String.eqb k' k then (k', v) :: rest
      else (k', v') :: setitem rest k v
  end.

(** [d.get(k)] *)
Fixpoint getitem {V} (d : odict V) (k : string) : option V :=
  match d with
  | [] => None
  | (k', v') :: rest => if String.eqb k' k then Some v' else getitem rest k
  end.

(** The loop of [evaluate]'s [_sample]:
    [for idx, seq in enumerate(seqs): ...; key2pred[keys[idx]] = [caption,]]. *)
Fixpoint evaluate_loop (vocabulary : Vocabulary) (zh : bool) (keys : list string)
    (idx : nat) (seqs : list (list Z)) (key2pred : odict (list caption))
  : outcome unit * odict (list caption) :=
  match seqs with
  | [] => (Ok tt, key2pred)
  | seq :: rest =>
      match _convert_idx2sentence seq vocabulary zh with
      | Raise e => (Raise e, key2pred)
      | Ok caption =>
          match keys !! idx with
          | None => (Raise IndexError, key2pred)
          | Some key =>
              evaluate_loop vocabulary zh keys (S idx) rest
                            (setitem key2pred key [caption])
          end
      end
  end.

(** [evaluate]'s [_sample(engine, batch)] *)
Definition evaluate_sample (vocabulary : Vocabulary) (zh : bool) (b : batch)
    (key2pred : odict (list caption)) : outcome unit * odict (list caption) :=
  match forward_seqs b with
  | Raise e => (Raise e, key2pred)
  | Ok seqs => evaluate_loop vocabulary zh (keys b) 0 seqs key2pred
  end.

(** [sampler.run(dataloader)] in [evaluate], from an empty [key2pred]. *)
Fixpoint evaluate_run (vocabulary : Vocabulary) (zh : bool) (batches : list batch)
    (key2pred : odict (list caption)) : outcome unit * odict (list caption) :=
  match batches with
  | [] => (Ok tt, key2pred)
  | b :: rest =>
      match evaluate_sample vocabulary zh b key2pred with
      | (Ok _, key2pred') => evaluate_run vocabulary zh rest key2pred'
      | (Raise e, key2pred') => (Raise e, key2pred')
      end
  end.

(** One entry of [refs4eval[key]] or [preds4eval[key]]. *)
Record eval_entry : Type := {
  entry_audio_id : string;
  entry_id : nat;
  entry_caption : caption
}.

(** [for key, refs in d.items(): out[key] = []; for idx, ref in
    enumerate(refs): out[key].append({...})], for [refs4eval] and
    [preds4eval] alike. *)
Fixpoint for_eval_loop (items : list (string * list caption))
    (out : odict (list eval_entry)) : odict (list eval_entry) :=
  match items with
  | [] => out
  | (key, refs) :: rest =>
      for_eval_loop rest
        (setitem out key
           (imap (fun idx ref => {| entry_audio_id := key; entry_id := idx;
                                    entry_caption := ref |}) refs))
  end.

Definition for_eval (d : odict (list caption)) : odict (list eval_entry) :=
  for_eval_loop d [].

(** One row of [predictions] in [dcase_predict]. *)
Record prediction : Type := {
  file_name : string;
  caption_predicted : caption
}.

(** The loop of [dcase_predict]'s [_sample]:
    [predictions.append({"file_name": keys[idx] + ".wav", ...})]. *)
Fixpoint dcase_loop (vocabulary : Vocabulary) (zh : bool) (keys : list string)
    (idx : nat) (seqs : list (list Z)) (predictions : list prediction)
  : outcome unit * list prediction :=
  match seqs with
  | [] => (Ok tt, predictions)
  | seq :: rest =>
      match _convert_idx2sentence seq vocabulary zh with
      | Raise e => (Raise e, predictions)
      | Ok caption =>
          match keys !! idx with
          | None => (Raise IndexError, predictions)
          | Some key =>
              dcase_loop vocabulary zh keys (S idx) rest
                (predictions ++ [{| file_name := key +:+ ".wav";
                                    caption_predicted := caption |}])
          end
      end
  end.

Definition dcase_sample (vocabulary : Vocabulary) (zh : bool) (b : batch)
    (predictions : list prediction) : outcome unit * list prediction :=
  match forward_seqs b with
  | Raise e => (Raise e, predictions)
  | Ok seqs => dcase_loop vocabulary zh (keys b) 0 seqs predictions
  end.

(** [sample_engine.run(dataloader)] in [dcase_predict]. *)
Fixpoint dcase_run (vocabulary : Vocabulary) (zh : bool) (batches : list batch)
    (predictions : list prediction) : outcome unit * list prediction :=
  match batches with
  | [] => (Ok tt, predictions)
  | b :: rest =>
      match dcase_sample vocabulary zh b predictions with
      | (Ok _, predictions') => dcase_run vocabulary zh rest predictions'
      | (Raise e, predictions') => (Raise e, predictions')
      end
  end.

End Predict.

(** ** [Runner.train]: the evaluator's handlers, in registration order *)

Module EvalEpoch.
Import Decode Checkpoint Predict.

Section Handlers.

Context {ModelState OptimizerState SchedulerState Improver Refs : Type}.

(** External collaborators: the scoring of predictions against
    references ([self._eval_prediction], which returns a dictionary of
    scores or raises), the scheduler's [step], and the improvement
    criterion (a closure with a state of its own).  The scheduler's
    [step], the criterion, the [state_dict] calls and [torch.save] are
    taken to return: what an exception of theirs would leave behind is not
    modelled. *)
Context (_eval_prediction :
           Refs -> odict (list caption) -> outcome (gmap string Q)).
Context (scheduler_step : option Q -> SchedulerState -> SchedulerState).
Context (crtrn_imprvd : Q -> Improver -> bool * Improver).

#[local] Abbreviation objects := (objects ModelState OptimizerState SchedulerState).
#[local] Abbreviation dump := (dump ModelState OptimizerState SchedulerState).

(** The two files under [outputdir]; [torch.save] overwrites. *)
Record disk : Type := {
  best : option dump;
  last : option dump
}.

(** What the handlers read and change. *)
Record state : Type := {
  key2pred : odict (list caption);      (* shared with [_inference] *)
  metrics : gmap string Q;              (* [evaluator.state.metrics] *)
  objs : objects;                       (* model, optimizer, scheduler, vocabularies *)
  improver : Improver;
  files : disk
}.

(** [_inference] over one validation pass: [key2pred[keys[idx]] =
    [candidate,]] for each key with its decoded candidate, in turn. *)
Definition _inference (st : state) (kc : list (string * caption)) : state :=
  {| key2pred := foldl (fun d q => setitem d q.1 [q.2]) (key2pred st) kc;
     metrics := metrics st; objs := objs st; improver := improver st;
     files := files st |}.

(** [eval_val], registered first: score, store the score, clear. *)
Definition eval_val (val_key2refs : Refs) (st : state) : outcome state :=
  score_output ← _eval_prediction val_key2refs (key2pred st);
  match score_output !! "CIDEr"%string with
  | None => Raise KeyError
  | Some score =>
      Ok {| key2pred := [];
            metrics := <["score"%string := score]> (metrics st);
            objs := objs st; improver := improver st; files := files st |}
  end.

Definition set_scheduler (o : objects) (s : SchedulerState) : objects :=
  {| model_module := model_module o; optimizer := optimizer o; scheduler := s;
     vocabulary := vocabulary o; structure_vocabulary := structure_vocabulary o |}.

(** [update_lr], registered second on the evaluator when the scheduler's
    class is one of the four epoch-stepped ones, with ["score"]. *)
Definition update_lr_handler (class_name : string) (st : state) : outcome state :=
  if bool_decide (class_name ∈ LrSchedule.epoch_stepped) then
    call ← LrSchedule.update_lr class_name (metrics st) (Some "score"%string);
    match call with
    | LrSchedule.step value =>
        Ok {| key2pred := key2pred st; metrics := metrics st;
              objs := set_scheduler (objs st)
                        (scheduler_step value (scheduler (objs st)));
              improver := improver st; files := files st |}
    end
  else Ok st.

(** [save_model], registered last. *)
Definition save_model_handler (st : state) : outcome state :=
  match metrics st !! "score"%string with
  | None => Raise KeyError
  | Some score =>
      let d := make_dump (objs st) in
      let '(improved, improver') := crtrn_imprvd score (improver st) in
      Ok {| key2pred := key2pred st; metrics := metrics st; objs := objs st;
            improver := improver';
            files := {| best := if improved then Some d else best (files st);
                        last := Some d |} |}
  end.

(** The evaluator's [EPOCH_COMPLETED]: the handlers in the order they
    were registered. *)
Definition epoch_completed (class_name : string) (val_key2refs : Refs)
    (st : state) : outcome state :=
  st ← eval_val val_key2refs st;
  st ← update_lr_handler class_name st;
  save_model_handler st.

(** One evaluation: the validation pass, then [EPOCH_COMPLETED]. *)
Definition evaluation (class_name : string) (val_key2refs : Refs)
    (kc : list (string * caption)) (st : state) : outcome state :=
  epoch_completed class_name val_key2refs (_inference st kc).

(** The evaluations of a run; between two of them training changes the
    model, the optimizer and possibly the scheduler ([trained]). *)
Fixpoint evaluations (class_name : string) (val_key2refs : Refs)
    (epochs : list ((objects -> objects) * list (string * caption)))
    (st : state) : outcome state :=
  match epochs with
  | [] => Ok st
  | (trained, kc) :: rest =>
      st ← evaluation class_name val_key2refs kc
             {| key2pred := key2pred st; metrics := metrics st;
                objs := trained (objs st); improver := improver st;
                files := files st |};
      evaluations class_name val_key2refs rest st
  end.

End Handlers.

Arguments disk : clear implicits.
Arguments state : clear implicits.

End EvalEpoch.

(** ** [BaseRunner.evaluate]: the rows of [pred_df] *)

Module PredDf.
Import Decode Predict.

(** A [string] holds the UTF-8 encoding of a Python [str], byte by byte.
    [str.split()] without a separator splits at the characters for which
    [str.isspace] holds: U+0009 to U+000D, U+001C to U+001F, U+0020,
    U+0085, U+00A0, U+1680, U+2000 to U+200A, U+2028, U+2029, U+202F,
    U+205F and U+3000.  In UTF-8 the first ten are one byte each, the next
    two are two bytes and the rest three. *)
Definition space1 (b0 : nat) : bool :=
  ((9 <=? b0) && (b0 <=? 13)) || ((28 <=? b0) && (b0 <=? 31)) || (b0 =? 32).

Definition space2 (b0 b1 : nat) : bool :=
  (b0 =? 194) && ((b1 =? 133) || (b1 =? 160)).

Definition space3 (b0 b1 b2 : nat) : bool :=
  ((b0 =? 225) && (b1 =? 154) && (b2 =? 128))
  || ((b0 =? 226) && (b1 =? 128)
      && (((128 <=? b2) && (b2 <=? 138)) || (b2 =? 168) || (b2 =? 169)
          || (b2 =? 175)))
  || ((b0 =? 226) && (b1 =? 129) && (b2 =? 159))
  || ((b0 =? 227) && (b1 =? 128) && (b2 =? 128)).

(** The number of bytes of the whitespace character [s] starts with, 0
    when it starts with none.  The lead bytes of these encodings are never
    continuation bytes, so in the encoding of a [str] a match is always a
    whole character. *)
Definition whitespace_length (s : string) : nat :=
  match s with
  | EmptyString => 0
  | String a s1 =>
      let b0 := nat_of_ascii a in
      if space1 b0 then 1
      else match s1 with
           | EmptyString => 0
           | String b s2 =>
               let b1 := nat_of_ascii b in
               if space2 b0 b1 then 2
               else match s2 with
                    | EmptyString => 0
                    | String c _ =>
                        if space3 b0 b1 (nat_of_ascii c) then 3 else 0
                    end
           end
  end.

(** [s.split()]: the maximal runs of characters that are not whitespace,
    in order.  [word] is the run being read, if any; [skip] counts the
    bytes still to pass of the whitespace character being read. *)
Fixpoint split_from (s : string) (skip : nat) (word : option string)
  : list string :=
  match s with
  | EmptyString => match word with Some w => [w] | None => [] end
  | String c rest =>
      match skip with
      | S k => split_from rest k word
      | O =>
          match whitespace_length s with
          | O =>
              split_from rest 0
                (Some (match word with
                       | Some w => w +:+ String c EmptyString
                       | None => String c EmptyString
                       end))
          | S k =>
              match word with
              | Some w => w :: split_from rest k None
              | None => split_from rest k None
              end
          end
      end
  end.

Definition split (s : string) : list string := split_from s 0 None.

(** One row of [pred_df]. *)
Record pred_row : Type := {
  filename : string;
  row_caption : caption;
  tokens : caption
}.

(** The dictionary appended for one item of [key2pred]:
    [{"filename": key + ".wav",
      "caption": "".join(pred[0]) if zh else pred[0],
      "tokens": pred[0] if zh else pred[0].split()}].
    A list has no [split]. *)
Definition row (zh : bool) (key : string) (pred : list caption) : outcome pred_row :=
  match pred with
  | [] => Raise IndexError
  | pred0 :: _ =>
      toks ← (if zh then Ok pred0
              else match pred0 with
                   | Str s => Ok (Lst (split s))
                   | Lst _ => Raise (ExternalError "AttributeError")
                   end);
      Ok {| filename := key +:+ ".wav";
            row_caption := evaluate_caption zh pred0;
            tokens := toks |}
  end.

(** [for key, pred in key2pred.items(): pred_df.append({...})] *)
Fixpoint pred_df_loop (zh : bool) (items : list (string * list caption))
    (pred_df : list pred_row) : outcome (list pred_row) :=
  match items with
  | [] => Ok pred_df
  | (key, pred) :: rest =>
      r ← row zh key pred;
      pred_df_loop zh rest (pred_df ++ [r])
  end.

Definition pred_df (zh : bool) (key2pred : odict (list caption))
  : outcome (list pred_row) :=
  pred_df_loop zh key2pred [].

End PredDf.

(** ** [Runner.train]: from its first line to the construction of the model *)

Module Train.
Import Sample.

(** The external calls of this stretch of [train]. *)
Inductive step : Type :=
| parse_config_or_kwargs
| init_process_group
| set_device
| mkdir
| genlogger
| logger_info
| pprint_dict
| get_dataloaders
| get_model (with_logger : bool).

#[export] Instance step_eq_dec : EqDecision step.
Proof. solve_decision. Defined.

(** What the process is started with, and how each external call ends. *)
Record process : Type := {
  distributed : bool;               (* [conf["distributed"]] *)
  get_rank : Z;                     (* [torch.distributed.get_rank()] *)
  kwargs_local_rank : option Z;     (* [kwargs["local_rank"]], if given *)
  slurm_job_id : bool;              (* ["SLURM_JOB_ID" in os.environ] *)
  returns : step -> outcome unit
}.

(** Statements that make external calls and may raise: the state is the
    list of calls made so far. *)
Definition traced (A : Type) : Type := list step -> outcome A * list step.

#[export] Instance traced_ret : MRet traced := fun A a trace => (Ok a, trace).
#[export] Instance traced_bind : MBind traced := fun A B k m trace =>
  match m trace with
  | (Ok a, trace') => k a trace'
  | (Raise e, trace') => (Raise e, trace')
  end.

Definition call (p : process) (s : step) : traced unit :=
  fun trace => (returns p s, trace ++ [s]).

Definition lift {A} (m : outcome A) : traced A := fun trace => (m, trace).

(** [not conf["distributed"] or not self.local_rank], where
    [self.local_rank] is the rank of a distributed process. *)
Definition main_process (p : process) : bool :=
  negb (distributed p) || (get_rank p =? 0)%Z.

(** [train] up to [model = self._get_model(...)].  [logger] is a local of
    [train], assigned under the main-process guard only.  The reads of
    the loaders' attributes and of the two vocabularies that follow
    [self._get_dataloaders(conf)] are counted with that call. *)
Definition train_setup (p : process) : traced unit :=
  _ ← call p parse_config_or_kwargs;
  _ ← (if distributed p then
         _ ← call p init_process_group;
         _ ← lift (match kwargs_local_rank p with
                   | None => Raise KeyError
                   | Some r =>
                       if (r =? get_rank p)%Z then Ok tt else Raise AssertionError
                   end);
         call p set_device
       else mret tt);
  logger ← (if main_process p then
              _ ← call p mkdir;
              _ ← call p genlogger;
              _ ← (if slurm_job_id p then
                     _ ← call p logger_info;
                     call p logger_info
                   else mret tt);
              _ ← call p logger_info;
              _ ← call p pprint_dict;
              mret (Some tt)
            else mret (None : local unit));
  _ ← call p get_dataloaders;
  _ ← lift (read "logger" logger);
  _ ← call p pprint_dict;
  call p (get_model (main_process p)).

End Train.

(* ===================================================================== *)
(** * Part II: lemmas and theorems                                        *)
(* ===================================================================== *)

(** ** Decoding id sequences *)

Section DecodeFacts.
Import Vocab Decode.

Implicit Types (iw : gmap Z string) (ids pre post : list Z)
               (acc toks : list string).

Lemma outcome_bind_Ok {A B} (m : outcome A) (k : A -> outcome B) (b : B) :
  (m ≫= k) = Ok b -> exists a, m = Ok a /\ k a = Ok b.
Proof. destruct m as [a|e]; simpl; [eauto | discriminate]. Qed.

(** The accumulator is only ever extended: the loop started from [acc]
    returns [acc] followed by what the loop started from [[]] returns. *)
Lemma candidate_loop_acc iw ids acc :
  candidate_loop iw ids acc =
  (toks ← candidate_loop iw ids []; Ok (acc ++ toks)).
Proof.
  revert acc. induction ids as [|i ids IH]; intros acc; simpl.
  - by rewrite app_nil_r.
  - destruct (iw !! i) as [w|]; [|done].
    destruct (String.eqb w END); [simpl; by rewrite app_nil_r|].
    destruct (String.eqb w START); [apply IH|].
    rewrite (IH (acc ++ [w])), (IH [w]).
    destruct (candidate_loop iw ids []) as [toks|e]; simpl; [|done].
    by rewrite <- app_assoc.
Qed.

(** Everything from an end sentinel on is ignored, and not even looked
    up in the vocabulary. *)
Lemma candidate_loop_break iw pre e post acc toks :
  iw !! e = Some END ->
  candidate_loop iw (pre ++ e :: post) acc = Ok toks ->
  candidate_loop iw pre acc = Ok toks.
Proof.
  intros He. revert acc. induction pre as [|i pre IH]; intros acc; simpl.
  - by rewrite He.
  - destruct (iw !! i) as [w|]; [|done].
    destruct (String.eqb w END); [done|].
    destruct (String.eqb w START); apply IH.
Qed.

Lemma candidate_loop_sound iw ids acc toks :
  candidate_loop iw ids acc = Ok toks ->
  exists new, toks = acc ++ new ∧ (START ∉ new) ∧ (END ∉ new)
              ∧ length new <= length ids.
Proof.
  revert acc. induction ids as [|i ids IH]; intros acc; simpl.
  - intros [= <-]. exists []. rewrite app_nil_r.
    repeat split; [apply not_elem_of_nil..|simpl; lia].
  - destruct (iw !! i) as [w|]; [|done].
    destruct (String.eqb w END) eqn:Eend.
    { intros [= <-]. exists []. rewrite app_nil_r.
      repeat split; [apply not_elem_of_nil..|simpl; lia]. }
    destruct (String.eqb w START) eqn:Estart.
    { intros H. destruct (IH _ H) as (new & -> & ? & ? & ?).
      exists new. repeat split; [done..|lia]. }
    intros H. destruct (IH _ H) as (new & -> & Hs & He & Hlen).
    exists (w :: new). rewrite <- app_assoc. simpl.
    apply String.eqb_neq in Eend, Estart.
    repeat split; [| |lia].
    + intros [Heq|?]%elem_of_cons; [by apply Estart | by apply Hs].
    + intros [Heq|?]%elem_of_cons; [by apply Eend | by apply He].
Qed.

(** Before the first end sentinel nothing but start sentinels is dropped. *)
Lemma candidate_loop_exact iw ids acc toks :
  (forall i, i ∈ ids -> iw !! i ≠ Some END) ->
  candidate_loop iw ids acc = Ok toks ->
  toks = acc ++ filter (fun w => w ≠ START) (omap (fun i => iw !! i) ids).
Proof.
  revert acc. induction ids as [|i ids IH]; intros acc Hno; simpl.
  - intros [= <-]. by rewrite app_nil_r.
  - assert (forall j, j ∈ ids -> iw !! j ≠ Some END) as Hno'
      by (intros j Hj; apply Hno; by right).
    pose proof (Hno i ltac:(left)) as Hi.
    destruct (iw !! i) as [w|]; [|done].
    destruct (String.eqb_spec w END) as [->|Hend]; [done|].
    destruct (String.eqb_spec w START) as [->|Hstart].
    + rewrite filter_cons_False by (intros Hne; by apply Hne). by apply IH.
    + rewrite filter_cons_True by done. intros Hloop.
      rewrite (IH _ Hno' Hloop). by rewrite <- app_assoc.
Qed.

Lemma candidate_loop_total iw ids acc :
  (forall i, i ∈ ids -> is_Some (iw !! i)) ->
  exists toks, candidate_loop iw ids acc = Ok toks.
Proof.
  revert acc. induction ids as [|i ids IH]; intros acc Hall; simpl; [eauto|].
  destruct (Hall i) as [w ->]; [left|].
  assert (forall j, j ∈ ids -> is_Some (iw !! j)) by (intros; apply Hall; by right).
  destruct (String.eqb w END); [eauto|].
  destruct (String.eqb w START); eauto.
Qed.

Lemma string_app_cons (a : ascii) (s t : string) :
  String a s +:+ t = String a (s +:+ t).
Proof. reflexivity. Qed.

Lemma string_app_nil_r (s : string) : s +:+ "" = s.
Proof. induction s as [|a s IH]; [done|]. by rewrite string_app_cons, IH. Qed.

Lemma string_app_length (s t : string) :
  String.length (s +:+ t) = String.length s + String.length t.
Proof.
  induction s as [|a s IH]; [done|].
  rewrite string_app_cons. simpl. by rewrite IH.
Qed.

(** Joining with the empty separator is plain concatenation. *)
Lemma join_empty_sep (l : list string) :
  join "" l = foldr String.append EmptyString l.
Proof.
  induction l as [|x [|y l] IH]; [done| |].
  - simpl. by rewrite string_app_nil_r.
  - change (join "" (x :: y :: l)) with (x +:+ "" +:+ join "" (y :: l)).
    rewrite IH. reflexivity.
Qed.

Lemma join_length (sep : string) (l : list string) :
  String.length (join sep l) =
  total_length l + String.length sep * (length l - 1).
Proof.
  induction l as [|x [|y l] IH]; [simpl; lia..|].
  change (join sep (x :: y :: l)) with (x +:+ sep +:+ join sep (y :: l)).
  rewrite !string_app_length, IH. simpl. lia.
Qed.

End DecodeFacts.

Section DecodeTheorems.
Import Vocab Decode.

(** A small vocabulary for concrete runs: the two sentinels, three
    English tokens and three Chinese tokens. *)
Definition demo_vocabulary : Vocabulary :=
  {| idx2word := list_to_map
       [ (0, START); (1, END); (2, "a"); (3, "cat"); (4, "sleeps");
         (5, "猫"); (6, "在"); (7, "睡觉") ]%Z |}.

(** C2.  For every id sequence, [_convert_idx2sentence] succeeds as soon
    as every id is in the vocabulary; whenever it returns, the token list
    it kept contains neither the start nor the end sentinel, is no longer
    than the id sequence, and decoding halts at an end sentinel: cut at
    any id that maps to the end sentinel, the prefix alone decodes to the
    same result, so no token comes from that id or from anything behind
    it; cut at the first such id, the tokens are exactly the words of the
    prefix other than the start sentinel. *)
Theorem convert_idx2sentence_halts_skips_bounded
    (vocabulary : Vocabulary) (word_ids : list Z) (zh : bool) :
  ((forall i, i ∈ word_ids -> is_Some (idx2word vocabulary !! i)) ->
     exists c, _convert_idx2sentence word_ids vocabulary zh = Ok c) ∧
  (forall c, _convert_idx2sentence word_ids vocabulary zh = Ok c ->
     exists toks,
       c = (if zh then Lst toks else Str (join " " toks)) ∧
       (START ∉ toks) ∧ (END ∉ toks) ∧
       length toks <= length word_ids ∧
       forall pre e post,
         word_ids = pre ++ e :: post ->
         idx2word vocabulary !! e = Some END ->
         _convert_idx2sentence pre vocabulary zh = Ok c ∧
         length toks <= length pre ∧
         ((forall i, i ∈ pre -> idx2word vocabulary !! i ≠ Some END) ->
          toks = filter (fun w => w ≠ START)
                        (omap (fun i => idx2word vocabulary !! i) pre))).
Proof.
  unfold _convert_idx2sentence. split.
  - intros Hall.
    destruct (candidate_loop_total (idx2word vocabulary) word_ids [] Hall)
      as [toks ->]. simpl. eauto.
  - intros c (toks & Hloop & [= <-])%outcome_bind_Ok.
    exists toks.
    destruct (candidate_loop_sound _ _ _ _ Hloop) as (new & -> & Hs & He & Hlen).
    simpl in *. split; [by destruct zh|]. do 3 (split; [done|]).
    intros pre e post -> Hend.
    apply candidate_loop_break in Hloop; [|done].
    rewrite Hloop. simpl. split; [done|]. split.
    + destruct (candidate_loop_sound _ _ _ _ Hloop) as (new' & Heq & _ & _ & Hlen').
      simpl in Heq. subst new'. done.
    + intros Hfirst. by apply (candidate_loop_exact _ _ [] _ Hfirst).
Qed.

Lemma convert_idx2sentence_halts_skips_bounded_witness :
  (exists c, _convert_idx2sentence [0; 2; 3; 4; 1; 2]%Z demo_vocabulary false = Ok c) ∧
  (exists toks,
     Str "a cat sleeps" = Str (join " " toks) ∧
     (START ∉ toks) ∧ (END ∉ toks) ∧
     length toks <= 6 ∧
     forall pre e post,
       [0; 2; 3; 4; 1; 2]%Z = pre ++ e :: post ->
       idx2word demo_vocabulary !! e = Some END ->
       _convert_idx2sentence pre demo_vocabulary false = Ok (Str "a cat sleeps") ∧
       length toks <= length pre ∧
       ((forall i, i ∈ pre -> idx2word demo_vocabulary !! i ≠ Some END) ->
        toks = filter (fun w => w ≠ START)
                      (omap (fun i => idx2word demo_vocabulary !! i) pre))).
Proof.
  destruct (convert_idx2sentence_halts_skips_bounded
              demo_vocabulary [0; 2; 3; 4; 1; 2]%Z false) as [Htotal Hsound].
  split.
  - apply Htotal. intros i Hi.
    repeat (apply elem_of_cons in Hi as [->|Hi]); try (vm_compute; eauto; fail).
    by apply elem_of_nil in Hi.
  - apply (Hsound (Str "a cat sleeps")). reflexivity.
Defined.

(** C7.  Given the token list kept by the decoding loop, the sentence
    stored for logographic-script ([zh]) output is the tokens concatenated
    with no separator, and the sentence for other output is the tokens
    joined by single spaces: its length is the tokens' total length plus
    one separator between each two neighbours. *)
Theorem decoded_sentence_joining
    (vocabulary : Vocabulary) (word_ids : list Z) (toks : list string) :
  candidate_loop (idx2word vocabulary) word_ids [] = Ok toks ->
  (exists c, _convert_idx2sentence word_ids vocabulary true = Ok c ∧
             evaluate_caption true c = Str (foldr String.append "" toks) ∧
             String.length (foldr String.append "" toks) = total_length toks) ∧
  (exists c, _convert_idx2sentence word_ids vocabulary false = Ok c ∧
             evaluate_caption false c = Str (join " " toks) ∧
             String.length (join " " toks) =
               total_length toks + (length toks - 1)).
Proof.
  intros Hloop. unfold _convert_idx2sentence. rewrite Hloop. simpl. split.
  - exists (Lst toks). split; [done|]. simpl. rewrite join_empty_sep.
    split; [done|]. rewrite <- join_empty_sep, join_length. simpl. lia.
  - exists (Str (join " " toks)). split; [done|]. split; [done|].
    rewrite join_length. simpl. lia.
Qed.

Lemma decoded_sentence_joining_witness :
  (exists c, _convert_idx2sentence [0; 5; 6; 7; 1]%Z demo_vocabulary true = Ok c ∧
             evaluate_caption true c = Str "猫在睡觉") ∧
  (exists c, _convert_idx2sentence [0; 2; 3; 4; 1]%Z demo_vocabulary false = Ok c ∧
             evaluate_caption false c = Str "a cat sleeps").
Proof.
  split.
  - destruct (decoded_sentence_joining demo_vocabulary [0; 5; 6; 7; 1]%Z
                ["猫"; "在"; "睡觉"] eq_refl) as [(c & Hc & Hcap & _) _].
    exists c. split; [exact Hc | exact Hcap].
  - destruct (decoded_sentence_joining demo_vocabulary [0; 2; 3; 4; 1]%Z
                ["a"; "cat"; "sleeps"] eq_refl) as [_ (c & Hc & Hcap & _)].
    exists c. split; [exact Hc | exact Hcap].
Defined.

End DecodeTheorems.

(** ** The numpy generator *)

Section NumpyFacts.
Import Numpy.
Context `{RandomState}.

Lemma permutation_NoDup n g : NoDup (permutation n g).1.
Proof. rewrite permutation_spec. apply NoDup_seq. Qed.

Lemma permutation_elem n g i : i ∈ (permutation n g).1 <-> i < n.
Proof. rewrite permutation_spec, elem_of_seq. lia. Qed.

Lemma permutation_length n g : length (permutation n g).1 = n.
Proof. rewrite permutation_spec. apply length_seq. Qed.

(** A sample drawn without replacement: [size] distinct indices below
    [n]; the draw succeeds exactly when [0 <= size <= n]. *)
Lemma choice_Ok n size g l g' :
  choice n size g = (Ok l, g') ->
  (0 <= size <= Z.of_nat n)%Z ∧ NoDup l ∧ length l = Z.to_nat size
  ∧ (forall i, i ∈ l -> i < n).
Proof.
  unfold choice.
  destruct (size <? 0)%Z eqn:Hneg; [done|].
  destruct (Z.of_nat n <? size)%Z eqn:Hbig; [done|]. simpl.
  apply Z.ltb_ge in Hneg, Hbig.
  pose proof (permutation_NoDup n g) as Hnd.
  pose proof (permutation_length n g) as Hlen.
  pose proof (permutation_elem n g) as Hin.
  destruct (permutation n g) as [p g'']. simpl in *.
  intros [= <- <-]. split; [lia|]. split; [|split].
  - eapply sublist_NoDup; [exact Hnd | apply sublist_take].
  - rewrite length_take. lia.
  - intros i Hi. apply Hin. by eapply subseteq_take.
Qed.

Lemma choice_succeeds n size g :
  (0 <= size <= Z.of_nat n)%Z -> exists l g', choice n size g = (Ok l, g').
Proof.
  intros [H0 Hn]. unfold choice.
  apply Z.ltb_ge in H0, Hn. rewrite H0, Hn. simpl.
  destruct (permutation n g); eauto.
Qed.

Lemma choice_Raise n size g :
  (size < 0 ∨ Z.of_nat n < size)%Z -> choice n size g = (Raise ValueError, g).
Proof.
  intros Hbad. unfold choice.
  destruct (size <? 0)%Z eqn:Hneg; [done|].
  destruct (Z.of_nat n <? size)%Z eqn:Hbig; [done|].
  apply Z.ltb_ge in Hneg, Hbig. lia.
Qed.

(** Whether a draw raises does not depend on the generator's state. *)
Lemma choice_is_ok_state n size g1 g2 :
  is_ok (choice n size g1).1 = is_ok (choice n size g2).1.
Proof.
  unfold choice. destruct ((size <? 0)%Z || (Z.of_nat n <? size)%Z); [done|].
  by destruct (permutation n g1), (permutation n g2).
Qed.

Lemma choice_array_Ok (a : list string) size g l g' :
  NoDup a ->
  choice_array a size g = (Ok l, g') ->
  (0 <= size <= Z.of_nat (length a))%Z ∧ NoDup l ∧ length l = Z.to_nat size
  ∧ (forall k, k ∈ l -> k ∈ a).
Proof.
  intros Ha. unfold choice_array.
  destruct (choice (length a) size g) as [[idx|e] g''] eqn:Hc; [|done].
  intros [= <- <-].
  destruct (choice_Ok _ _ _ _ _ Hc) as (Hsize & Hnd & Hlen & Hlt).
  split; [done|]. split; [|split].
  - apply NoDup_fmap_2_strong; [|done].
    intros i j Hi Hj Heq. apply Hlt in Hi, Hj.
    destruct (lookup_lt_is_Some_2 a i Hi) as [x Hx].
    destruct (lookup_lt_is_Some_2 a j Hj) as [y Hy].
    rewrite (list_lookup_total_correct _ _ _ Hx) in Heq.
    rewrite (list_lookup_total_correct _ _ _ Hy) in Heq. subst y.
    exact (NoDup_lookup a i j x Ha Hx Hy).
  - by rewrite length_fmap.
  - intros k (i & -> & Hi)%list_elem_of_fmap.
    apply list_elem_of_lookup_total_2. by apply Hlt.
Qed.

End NumpyFacts.

(** ** The random train/validation splits *)

Section SplitListFacts.

(** A list filtered by membership in a duplicate-free sublist [s] of its
    elements has [length s] elements left in, and the rest left out. *)
Lemma length_filter_complement {A} `{EqDecision A} (s l : list A) :
  NoDup s -> NoDup l -> (forall x, x ∈ s -> x ∈ l) ->
  length (filter (fun x => x ∉ s) l) + length s = length l.
Proof.
  intros Hs Hl Hsub.
  assert (filter (fun x => x ∈ s) l ≡ₚ s) as Hin.
  { apply NoDup_Permutation; [by apply NoDup_filter | done |].
    intros x. rewrite list_elem_of_filter. naive_solver. }
  apply Permutation_length in Hin.
  pose proof (Permutation_length (filter_app_complement (fun x => x ∈ s) l)) as Hc.
  rewrite length_app in Hc. lia.
Qed.

Lemma unique_from_spec (seen l : list string) :
  NoDup (BaseRunner.unique_from seen l)
  ∧ forall k, k ∈ BaseRunner.unique_from seen l <-> k ∈ l ∧ k ∉ seen.
Proof.
  revert seen. induction l as [|k l IH]; intros seen; simpl.
  - split; [constructor|]. intros k. rewrite elem_of_nil. naive_solver.
  - destruct (decide (k ∈ seen)) as [Hk|Hk].
    + destruct (IH seen) as [Hnd Hin]. split; [done|].
      intros k'. rewrite Hin, elem_of_cons. naive_solver.
    + destruct (IH (k :: seen)) as [Hnd Hin]. split.
      * constructor; [|done]. rewrite Hin, elem_of_cons. naive_solver.
      * intros k'. rewrite !elem_of_cons, Hin, elem_of_cons.
        destruct (decide (k' = k)); naive_solver.
Qed.

Lemma unique_NoDup (l : list string) : NoDup (BaseRunner.unique l).
Proof. apply unique_from_spec. Qed.

Lemma elem_of_unique (l : list string) k : k ∈ BaseRunner.unique l <-> k ∈ l.
Proof.
  unfold BaseRunner.unique.
  destruct (unique_from_spec [] l) as [_ ->]. rewrite elem_of_nil. naive_solver.
Qed.

Lemma read_json_labels (rows : list BaseRunner.row) :
  (BaseRunner.read_json rows).*1 = seq 0 (length rows).
Proof.
  unfold BaseRunner.read_json. rewrite fmap_imap.
  rewrite (imap_ext _ (fun j _ => j)); [|done].
  rewrite (imap_seq_0 rows (fun j => j)). apply list_fmap_id.
Qed.

Lemma NoDup_fst_inj {A B} (l : list (A * B)) (x y : A * B) :
  NoDup (l.*1) -> x ∈ l -> y ∈ l -> x.1 = y.1 -> x = y.
Proof.
  induction l as [|z l IH]; simpl; [by intros _ ?%elem_of_nil|].
  intros [Hz Hnd]%NoDup_cons [->|Hx]%elem_of_cons [->|Hy]%elem_of_cons Heq;
    [done| | |by apply IH].
  - exfalso. apply Hz. rewrite Heq. by apply list_elem_of_fmap_2.
  - exfalso. apply Hz. rewrite <- Heq. by apply list_elem_of_fmap_2.
Qed.

End SplitListFacts.

Section SplitFacts.
Import Num Numpy.
Context `{RandomState}.

(** *** [Runner._get_dataloaders] *)

Lemma Runner_split_inv info tp g s g' :
  Runner._get_dataloaders info tp g = (Ok s, g') ->
  exists size,
    Runner.val_size info tp = Ok size
    ∧ choice (length info) size g = (Ok (Runner.val_audio_idxs s), g')
    ∧ Runner.train_audio_idxs s =
        filter (fun idx => idx ∉ Runner.val_audio_idxs s) (seq 0 (length info)).
Proof.
  unfold Runner._get_dataloaders.
  destruct (Runner.val_size info tp) as [size|e]; [|done].
  destruct (choice (length info) size g) as [[l|e] g''] eqn:Hc; [|done].
  intros [= <- <-]. eauto.
Qed.

Lemma Runner_split_is_ok info tp g :
  is_ok (Runner._get_dataloaders info tp g).1 = true <->
  exists size, Runner.val_size info tp = Ok size
               ∧ (0 <= size <= Z.of_nat (length info))%Z.
Proof.
  unfold Runner._get_dataloaders.
  destruct (Runner.val_size info tp) as [size|e]; simpl.
  - destruct (choice (length info) size g) as [[l|e] g'] eqn:Hc; simpl.
    + split; [|done]. intros _. exists size. split; [done|].
      by destruct (choice_Ok _ _ _ _ _ Hc).
    + split; [done|]. intros (size' & [= <-] & Hrange).
      destruct (choice_succeeds (length info) size g Hrange) as (l & g'' & Hc').
      congruence.
  - split; [done|]. by intros (? & ? & _).
Qed.

(** *** [BaseRunner._get_dataloaders] *)

Lemma BaseRunner_split_inv rows tp g s g' :
  BaseRunner._get_dataloaders rows tp g = (Ok s, g') ->
  let caption_df := BaseRunner.read_json rows in
  let keys := BaseRunner.unique ((fun r => BaseRunner.key r.2) <$> caption_df) in
  exists size,
    BaseRunner.train_size caption_df tp = Ok size
    ∧ choice_array keys size g = (Ok (BaseRunner.train_keys s), g')
    ∧ BaseRunner.train_df s =
        filter (fun r => BaseRunner.key r.2 ∈ BaseRunner.train_keys s) caption_df
    ∧ BaseRunner.val_df s =
        filter (fun r => r.1 ∉ (BaseRunner.train_df s).*1) caption_df.
Proof.
  unfold BaseRunner._get_dataloaders. simpl.
  destruct (BaseRunner.train_size _ tp) as [size|e]; [|done].
  destruct (choice_array _ size g) as [[l|e] g''] eqn:Hc; [|done].
  intros [= <- <-]. simpl. eauto.
Qed.

End SplitFacts.

Section SplitTheorems.
Import Num Numpy.
Context `{RandomState}.

Lemma list_filter_iff_in {A} (P Q : A -> Prop)
    `{!forall x, Decision (P x), !forall x, Decision (Q x)} (l : list A) :
  (forall x, x ∈ l -> P x <-> Q x) -> filter P l = filter Q l.
Proof.
  induction l as [|a l IH]; intros HPQ; [done|].
  assert (filter P l = filter Q l) as Hl
    by (apply IH; intros x Hx; apply HPQ; by right).
  destruct (decide (P a)) as [Ha|Ha].
  - rewrite !filter_cons_True; [by rewrite Hl| |done].
    apply HPQ; [left|done].
  - rewrite !filter_cons_False; [done| |done].
    intros HQ. apply Ha, HPQ; [left|done].
Qed.

Lemma SplitSpec_val_size_range (total : nat) (p : Q) :
  (0 <= p <= 100)%Q ->
  (0 <= SplitSpec.val_size total p <= Z.of_nat total)%Z.
Proof.
  intros [H0 H100]. unfold SplitSpec.val_size.
  pose proof (Nat2Z.is_nonneg total) as Hn.
  assert (0 <= inject_Z (Z.of_nat total))%Q as Hq
    by (rewrite <- (Zle_Qle 0); exact Hn).
  assert (0 <= 1 - p / 100 <= 1)%Q as [Hlo Hhi].
  { assert (p / 100 == p * (1 # 100))%Q as -> by reflexivity.
    split; Lqa.lra. }
  split.
  - rewrite <- (Qfloor_Z 0). apply Qfloor_resp_le.
    by apply Qmult_le_0_compat.
  - rewrite <- (Qfloor_Z (Z.of_nat total)) at 2. apply Qfloor_resp_le.
    Lqa.nra.
Qed.

Lemma SplitSpec_train_size_range (n_keys : nat) (p : Q) :
  (0 <= p <= 100)%Q ->
  (0 <= SplitSpec.train_size n_keys p <= Z.of_nat n_keys)%Z.
Proof.
  intros [H0 H100]. unfold SplitSpec.train_size.
  pose proof (Nat2Z.is_nonneg n_keys) as Hn.
  assert (0 <= inject_Z (Z.of_nat n_keys))%Q as Hq
    by (rewrite <- (Zle_Qle 0); exact Hn).
  assert (0 <= p / 100 <= 1)%Q as [Hlo Hhi].
  { assert (p / 100 == p * (1 # 100))%Q as -> by reflexivity.
    split; Lqa.lra. }
  split.
  - rewrite <- (Qfloor_Z 0). apply Qfloor_resp_le.
    by apply Qmult_le_0_compat.
  - rewrite <- (Qfloor_Z (Z.of_nat n_keys)) at 2. apply Qfloor_resp_le.
    Lqa.nra.
Qed.

(** Whenever [Runner]'s split returns: the validation indices are
    distinct indices of records, the training indices are exactly the
    remaining ones, and [val_size] evaluated to their number. *)
Lemma Runner_split_partition info tp g s g' :
  Runner._get_dataloaders info tp g = (Ok s, g') ->
  let val := Runner.val_audio_idxs s in
  let train := Runner.train_audio_idxs s in
  let n := length info in
  NoDup val ∧ (forall i, i ∈ val -> i < n)
  ∧ Runner.val_size info tp = Ok (Z.of_nat (length val))
  ∧ (forall i, i ∈ train <-> i < n ∧ i ∉ val)
  ∧ NoDup train
  ∧ (forall i, ¬ (i ∈ train ∧ i ∈ val))
  ∧ (forall i, i < n <-> i ∈ train ∨ i ∈ val)
  ∧ length train + length val = n.
Proof.
  intros Hrun val train n.
  destruct (Runner_split_inv _ _ _ _ _ Hrun) as (size & Hsize & Hc & Htrain).
  destruct (choice_Ok _ _ _ _ _ Hc) as (Hrange & Hnd & Hlen & Hlt).
  fold val in Hc, Htrain, Hnd, Hlen, Hlt. fold train in Htrain. fold n in Hlt.
  assert (forall i, i ∈ train <-> i < n ∧ i ∉ val) as Hcompl.
  { intros i. rewrite Htrain, list_elem_of_filter, elem_of_seq. subst n.
    naive_solver lia. }
  split; [done|]. split; [done|]. split.
  { rewrite Hsize, Hlen, Z2Nat.id; [done|lia]. }
  split; [done|]. split.
  { rewrite Htrain. apply NoDup_filter, NoDup_seq. }
  split; [intros i [Hi1%Hcompl Hi2]; tauto|]. split.
  { intros i. rewrite Hcompl. destruct (decide (i ∈ val)); naive_solver. }
  rewrite Htrain. subst n. rewrite <- (length_seq (length info) 0) at 2.
  apply length_filter_complement; [done|apply NoDup_seq|].
  intros i Hi. apply elem_of_seq. apply Hlt in Hi. lia.
Qed.

(** The same for [BaseRunner]: the training keys are distinct keys of the
    file, the training rows the rows with a drawn key, the validation rows
    exactly the remaining rows. *)
Lemma BaseRunner_split_partition rows tp g s g' :
  BaseRunner._get_dataloaders rows tp g = (Ok s, g') ->
  let df := BaseRunner.read_json rows in
  let keys := BaseRunner.train_keys s in
  let train := BaseRunner.train_df s in
  let val := BaseRunner.val_df s in
  NoDup keys ∧ (forall k, k ∈ keys -> exists r, r ∈ df ∧ BaseRunner.key r.2 = k)
  ∧ BaseRunner.train_size df tp = Ok (Z.of_nat (length keys))
  ∧ (forall r, r ∈ train <-> r ∈ df ∧ BaseRunner.key r.2 ∈ keys)
  ∧ (forall r, r ∈ val <-> r ∈ df ∧ BaseRunner.key r.2 ∉ keys)
  ∧ (forall i, ¬ (i ∈ train.*1 ∧ i ∈ val.*1))
  ∧ (forall i, i < length rows <-> i ∈ train.*1 ∨ i ∈ val.*1)
  ∧ length train + length val = length rows.
Proof.
  intros Hrun df keys train val.
  destruct (BaseRunner_split_inv _ _ _ _ _ Hrun)
    as (size & Hsize & Hc & Htrain & Hval).
  fold df in Hsize, Hc, Htrain, Hval. fold keys in Hc, Htrain.
  fold train in Htrain, Hval. fold val in Hval.
  destruct (choice_array_Ok _ _ _ _ _ (unique_NoDup _) Hc)
    as (Hrange & Hnd & Hlen & Hsub).
  assert (NoDup (df.*1)) as Hlabels
    by (subst df; rewrite read_json_labels; apply NoDup_seq).
  assert (forall r, r ∈ train <-> r ∈ df ∧ BaseRunner.key r.2 ∈ keys) as Hin_train.
  { intros r. rewrite Htrain, list_elem_of_filter. tauto. }
  assert (forall r, r ∈ df -> r.1 ∉ train.*1 <-> BaseRunner.key r.2 ∉ keys) as Hlab.
  { intros r Hr. split; intros Hnot Hbad; apply Hnot.
    - apply list_elem_of_fmap_2, Hin_train. done.
    - apply list_elem_of_fmap in Hbad as (r' & Heq & Hr').
      apply Hin_train in Hr' as [Hr' Hk].
      by rewrite (NoDup_fst_inj df r r' Hlabels Hr Hr' Heq). }
  assert (forall r, r ∈ val <-> r ∈ df ∧ BaseRunner.key r.2 ∉ keys) as Hin_val.
  { intros r. rewrite Hval, list_elem_of_filter. split.
    - intros [Hnot Hr]. split; [done|]. by apply Hlab.
    - intros [Hr Hnot]. split; [|done]. by apply Hlab. }
  split; [done|]. split.
  { intros k Hk. apply Hsub, elem_of_unique, list_elem_of_fmap in Hk
      as (r & -> & Hr). eauto. }
  split.
  { rewrite Hsize, Hlen, Z2Nat.id; [done|lia]. }
  split; [done|]. split; [done|]. split.
  { intros i [Hi1 Hi2]. apply list_elem_of_fmap in Hi2 as (r & -> & Hr).
    rewrite Hval in Hr. apply list_elem_of_filter in Hr as [Hr _]. done. }
  split.
  { intros i. split.
    - intros Hi.
      assert (i ∈ df.*1) as (r & -> & Hr)%list_elem_of_fmap
        by (subst df; rewrite read_json_labels; apply elem_of_seq; lia).
      destruct (decide (BaseRunner.key r.2 ∈ keys)).
      + left. apply list_elem_of_fmap_2, Hin_train. done.
      + right. apply list_elem_of_fmap_2, Hin_val. done.
    - assert (forall r, r ∈ df -> r.1 < length rows) as Hlt.
      { intros r Hr. apply (list_elem_of_fmap_2 fst) in Hr.
        subst df. rewrite read_json_labels in Hr.
        apply elem_of_seq in Hr. lia. }
      intros [(r & -> & Hr)%list_elem_of_fmap|(r & -> & Hr)%list_elem_of_fmap].
      + apply Hlt. by apply Hin_train in Hr as [Hr _].
      + apply Hlt. by apply Hin_val in Hr as [Hr _]. }
  assert (val = filter (fun r => ¬ BaseRunner.key r.2 ∈ keys) df) as ->.
  { rewrite Hval. apply list_filter_iff_in. intros r Hr. by apply Hlab. }
  rewrite Htrain.
  pose proof (Permutation_length
    (filter_app_complement (fun r => BaseRunner.key r.2 ∈ keys) df)) as Hlen'.
  rewrite length_app in Hlen'. rewrite Hlen'.
  subst df. unfold BaseRunner.read_json. apply length_imap.
Qed.

(** C1 (as amended).  Whenever a random split returns, its two sides are
    disjoint and together cover every record.  In [Runner] the validation
    indices are a sample drawn without replacement (distinct indices below
    the record count), of size [round-down(total * (1 - train_percent/100))],
    and the training indices are exactly the remaining ones.  In
    [BaseRunner] it is the training keys that are the sample drawn without
    replacement from the distinct keys, of size
    [round-down(n_keys * train_percent/100)]; the training rows are the
    rows with a drawn key and the validation rows are exactly the remaining
    ones.  The sizes are stated for the inputs on which the code's
    floating-point product truncates to the exact round-down, and for
    those every percentage from 0 to 100 makes the split return; what the
    sizes are on the other inputs is left out. *)
Theorem random_split_partitions :
  (forall info tp g s g',
     Runner._get_dataloaders info tp g = (Ok s, g') ->
     let val := Runner.val_audio_idxs s in
     let train := Runner.train_audio_idxs s in
     let n := length info in
     NoDup val ∧ (forall i, i ∈ val -> i < n)
     ∧ (forall i, i ∈ train <-> i < n ∧ i ∉ val)
     ∧ NoDup train
     ∧ (forall i, ¬ (i ∈ train ∧ i ∈ val))
     ∧ (forall i, i < n <-> i ∈ train ∨ i ∈ val)
     ∧ length train + length val = n
     ∧ (forall p, exact tp = Some p ->
          Runner.val_size info tp = Ok (SplitSpec.val_size n p) ->
          Z.of_nat (length val) = SplitSpec.val_size n p))
  ∧
  (forall info tp p g,
     exact tp = Some p -> (0 <= p <= 100)%Q ->
     Runner.val_size info tp = Ok (SplitSpec.val_size (length info) p) ->
     exists s g', Runner._get_dataloaders info tp g = (Ok s, g'))
  ∧
  (forall rows tp g s g',
     BaseRunner._get_dataloaders rows tp g = (Ok s, g') ->
     let df := BaseRunner.read_json rows in
     let n_keys := length (BaseRunner.unique ((fun r => BaseRunner.key r.2) <$> df)) in
     let keys := BaseRunner.train_keys s in
     let train := BaseRunner.train_df s in
     let val := BaseRunner.val_df s in
     NoDup keys ∧ (forall k, k ∈ keys -> exists r, r ∈ df ∧ BaseRunner.key r.2 = k)
     ∧ (forall r, r ∈ train <-> r ∈ df ∧ BaseRunner.key r.2 ∈ keys)
     ∧ (forall r, r ∈ val <-> r ∈ df ∧ BaseRunner.key r.2 ∉ keys)
     ∧ (forall i, ¬ (i ∈ train.*1 ∧ i ∈ val.*1))
     ∧ (forall i, i < length rows <-> i ∈ train.*1 ∨ i ∈ val.*1)
     ∧ length train + length val = length rows
     ∧ (forall p, exact tp = Some p ->
          BaseRunner.train_size df tp = Ok (SplitSpec.train_size n_keys p) ->
          Z.of_nat (length keys) = SplitSpec.train_size n_keys p))
  ∧
  (forall rows tp p g,
     let df := BaseRunner.read_json rows in
     let n_keys := length (BaseRunner.unique ((fun r => BaseRunner.key r.2) <$> df)) in
     exact tp = Some p -> (0 <= p <= 100)%Q ->
     BaseRunner.train_size df tp = Ok (SplitSpec.train_size n_keys p) ->
     exists s g', BaseRunner._get_dataloaders rows tp g = (Ok s, g')).
Proof.
  split; [|split; [|split]].
  - intros info tp g s g' Hrun val train n.
    destruct (Runner_split_partition _ _ _ _ _ Hrun)
      as (Hnd & Hlt & Hsize & Hcompl & Hndt & Hdisj & Hcover & Hlen).
    repeat (split; [done|]).
    intros p _ Hspec. fold val in Hsize. rewrite Hsize in Hspec.
    by injection Hspec.
  - intros info tp p g _ Hp Hspec. unfold Runner._get_dataloaders.
    rewrite Hspec.
    destruct (choice_succeeds (length info) _ g
                (SplitSpec_val_size_range (length info) p Hp))
      as (l & g' & ->).
    by eexists _, _.
  - intros rows tp g s g' Hrun df n_keys keys train val.
    destruct (BaseRunner_split_partition _ _ _ _ _ Hrun)
      as (Hnd & Hsub & Hsize & Htrain & Hval & Hdisj & Hcover & Hlen).
    repeat (split; [done|]).
    intros p _ Hspec. fold df keys in Hsize. rewrite Hsize in Hspec.
    by injection Hspec.
  - intros rows tp p g df n_keys _ Hp Hspec. unfold BaseRunner._get_dataloaders.
    fold df. rewrite Hspec. unfold choice_array.
    destruct (choice_succeeds n_keys _ g
                (SplitSpec_train_size_range n_keys p Hp))
      as (l & g' & Hc).
    fold n_keys. rewrite Hc. by eexists _, _.
Qed.


End SplitTheorems.

(** ** Concrete runs of the splits *)

Section SplitRuns.
Import Num Numpy.

(** A deterministic stand-in generator for concrete runs: the state is a
    counter, and [permutation n] is [0 .. n-1] rotated by the counter. *)
Definition rotate_seq (n g : nat) : list nat :=
  drop (g `mod` n) (seq 0 n) ++ take (g `mod` n) (seq 0 n).

Lemma rotate_seq_Permutation n g : rotate_seq n g ≡ₚ seq 0 n.
Proof.
  unfold rotate_seq. rewrite Permutation_app_comm. by rewrite take_drop.
Qed.

Definition rotating_state : RandomState :=
  {| rng := nat;
     seed := Z.to_nat;
     permutation := fun n g => (rotate_seq n g, S g);
     permutation_spec := rotate_seq_Permutation |}.

Definition demo_audio (k : string) : Runner.audio :=
  {| Runner.audio_id := k; Runner.captions := [] |}.

Definition demo_row (k : string) : BaseRunner.row :=
  {| BaseRunner.key := k; BaseRunner.caption := k; BaseRunner.tokens := [k] |}.

(** Ten audio records, as in the end-to-end scenario of the specification. *)
Definition ten_audios : list Runner.audio :=
  demo_audio <$> ["a0"; "a1"; "a2"; "a3"; "a4"; "a5"; "a6"; "a7"; "a8"; "a9"].

(** Three caption rows with three distinct keys. *)
Definition three_rows : list BaseRunner.row :=
  demo_row <$> ["a"; "b"; "c"].

Lemma Runner_split_run :
  @Runner._get_dataloaders rotating_state ten_audios (Int 75) 1
  = (Ok {| Runner.val_audio_idxs := [1; 2];
           Runner.train_audio_idxs := [0; 3; 4; 5; 6; 7; 8; 9] |}, 2).
Proof. vm_compute. reflexivity. Qed.

Lemma BaseRunner_split_run :
  @BaseRunner._get_dataloaders rotating_state three_rows (Int 50) 1
  = (Ok {| BaseRunner.train_keys := ["b"];
           BaseRunner.train_df := [(1, demo_row "b")];
           BaseRunner.val_df := [(0, demo_row "a"); (2, demo_row "c")] |}, 2).
Proof. vm_compute. reflexivity. Qed.

Lemma random_split_partitions_witness :
  (let val := [1; 2] in
   let train := [0; 3; 4; 5; 6; 7; 8; 9] in
   NoDup val ∧ (forall i, i ∈ val -> i < 10)
   ∧ (forall i, i ∈ train <-> i < 10 ∧ i ∉ val)
   ∧ NoDup train
   ∧ (forall i, ¬ (i ∈ train ∧ i ∈ val))
   ∧ (forall i, i < 10 <-> i ∈ train ∨ i ∈ val)
   ∧ length train + length val = 10
   ∧ Z.of_nat (length val) = SplitSpec.val_size 10 75)
  ∧ (exists s g',
       @Runner._get_dataloaders rotating_state ten_audios (Int 75) 1 = (Ok s, g'))
  ∧
  (let df := BaseRunner.read_json three_rows in
   let keys := ["b"] in
   let train := [(1, demo_row "b")] in
   let val := [(0, demo_row "a"); (2, demo_row "c")] in
   NoDup keys ∧ (forall k, k ∈ keys -> exists r, r ∈ df ∧ BaseRunner.key r.2 = k)
   ∧ (forall r, r ∈ train <-> r ∈ df ∧ BaseRunner.key r.2 ∈ keys)
   ∧ (forall r, r ∈ val <-> r ∈ df ∧ BaseRunner.key r.2 ∉ keys)
   ∧ (forall i, ¬ (i ∈ train.*1 ∧ i ∈ val.*1))
   ∧ (forall i, i < 3 <-> i ∈ train.*1 ∨ i ∈ val.*1)
   ∧ length train + length val = 3
   ∧ Z.of_nat (length keys) = SplitSpec.train_size 3 50)
  ∧ (exists s g',
       @BaseRunner._get_dataloaders rotating_state three_rows (Int 50) 1 = (Ok s, g')).
Proof.
  destruct (@random_split_partitions rotating_state) as (HR & HRret & HB & HBret).
  split; [|split; [|split]].
  - destruct (HR ten_audios (Int 75) 1 _ 2 Runner_split_run)
      as (H1 & H2 & H3 & H4 & H5 & H6 & H7 & Hsize).
    repeat (split; [assumption|]).
    exact (Hsize 75%Q eq_refl ltac:(vm_compute; reflexivity)).
  - apply (HRret ten_audios (Int 75) 75%Q 1 eq_refl).
    + split; unfold Qle; simpl; lia.
    + vm_compute. reflexivity.
  - destruct (HB three_rows (Int 50) 1 _ 2 BaseRunner_split_run)
      as (H1 & H2 & H3 & H4 & H5 & H6 & H7 & Hsize).
    repeat (split; [assumption|]).
    exact (Hsize 50%Q eq_refl ltac:(vm_compute; reflexivity)).
  - apply (HBret three_rows (Int 50) 50%Q 1 eq_refl).
    + split; unfold Qle; simpl; lia.
    + vm_compute. reflexivity.
Defined.

(** The claimed validation size fails on [BaseRunner]: with three rows
    of distinct keys and 50 percent, one key is drawn for training and
    the two remaining rows form the validation side, whereas
    [round-down(3 * (1 - 50/100))] is 1; the rows that are drawn are the
    training rows, not the validation rows.  Which key is drawn depends on
    the generator; the sizes do not. *)
Lemma random_split_validation_size_counterexample :
  exists s g',
    @BaseRunner._get_dataloaders rotating_state three_rows (Int 50) 1 = (Ok s, g')
    ∧ BaseRunner.train_size (BaseRunner.read_json three_rows) (Int 50) = Ok 1%Z
    ∧ (BaseRunner.train_df s).*1 = [1]
    ∧ (BaseRunner.val_df s).*1 = [0; 2]
    ∧ SplitSpec.val_size 3 50 = 1%Z
    ∧ Z.of_nat (length (BaseRunner.val_df s)) ≠ SplitSpec.val_size 3 50.
Proof.
  eexists _, _. split; [apply BaseRunner_split_run|].
  repeat split; try (vm_compute; reflexivity).
  vm_compute. discriminate.
Qed.

(** Two runs seeded alike agree although the generator was left in
    different states before; another seed draws another split. *)
Lemma seeded_runs_agree :
  let w_a := @BaseRunner.Build_world rotating_state 7 None false in
  let w_b := @BaseRunner.Build_world rotating_state 42 (Some 5%Z) true in
  @Run.Runner_split rotating_state 1 ten_audios (Int 75) w_a
  = Ok {| Runner.val_audio_idxs := [1; 2];
          Runner.train_audio_idxs := [0; 3; 4; 5; 6; 7; 8; 9] |}
  ∧ @Run.Runner_split rotating_state 1 ten_audios (Int 75) w_b
    = Ok {| Runner.val_audio_idxs := [1; 2];
            Runner.train_audio_idxs := [0; 3; 4; 5; 6; 7; 8; 9] |}
  ∧ @Run.Runner_split rotating_state 3 ten_audios (Int 75) w_a
    = Ok {| Runner.val_audio_idxs := [3; 4];
            Runner.train_audio_idxs := [0; 1; 2; 5; 6; 7; 8; 9] |}.
Proof. repeat split; vm_compute; reflexivity. Qed.


(** In [Runner] the validation size is computed in binary64: for ten
    records at 80 percent, [1 - 80/100.] is [0.19999999999999996], the
    product is [1.9999999999999996] and its truncation is 1, one less
    than the exact [round-down(10 * (1 - 80/100)) = 2]. *)
Lemma Runner_val_size_float_truncation :
  (1 - float_of_int 80 / 100)%float = 0.19999999999999996%float
  ∧ (float_of_int 10 * (1 - float_of_int 80 / 100))%float = 1.9999999999999996%float
  ∧ Runner.val_size ten_audios (Int 80) = Ok 1%Z
  ∧ SplitSpec.val_size 10 80 = 2%Z.
Proof. repeat split; vm_compute; reflexivity. Qed.

End SplitRuns.

(** ** Scheduled sampling *)

Section ScheduledSamplingFacts.
Import ScheduledSampling.

#[local] Existing Instance real_ops.
#[local] Open Scope R_scope.

Definition exponential_args (r : R) (f : option R) : ss_args R :=
  {| ss_mode := "exponential"; ss_ratio := r; final_ss_ratio := f |}.

Definition linear_args {F} (r f : F) : ss_args F :=
  {| ss_mode := "linear"; ss_ratio := r; final_ss_ratio := Some f |}.

(** The per-iteration decay factor [0.01 ** (1.0 / total_iters)]. *)
Definition decay (total_iters : nat) : R := Rpower (1 / 100) (1 / INR total_iters).

Lemma decay_pow (total_iters : nat) :
  (0 < total_iters)%nat -> decay total_iters ^ total_iters = 1 / 100.
Proof.
  intros HT. unfold decay.
  assert (0 < INR total_iters) as HT' by (apply lt_0_INR; lia).
  rewrite <- Rpower_pow by apply exp_pos.
  rewrite Rpower_mult.
  replace (1 / INR total_iters * INR total_iters) with 1 by (field; lra).
  apply Rpower_1. lra.
Qed.

Lemma exponential_iterations (k num_iter num_epoch : nat) (r : R) (f : option R) :
  (0 < num_iter * num_epoch)%nat ->
  iterations k num_iter num_epoch (exponential_args r f)
  = Ok (exponential_args (r * decay (num_iter * num_epoch) ^ k) f).
Proof.
  intros HT. revert r. induction k as [|k IH]; intros r; simpl.
  - do 2 f_equal. lra.
  - unfold update_ss_ratio. simpl.
    destruct (Nat.eqb_spec (num_iter * num_epoch) 0) as [H0|_]; [lia|]. simpl.
    unfold set_ss_ratio. simpl. fold (decay (num_iter * num_epoch)).
    fold (exponential_args (r * decay (num_iter * num_epoch)) f).
    rewrite IH. do 2 f_equal. lra.
Qed.

Lemma linear_iterations (k num_iter num_epoch : nat) (r f : R) :
  (0 < num_iter * num_epoch)%nat ->
  iterations k num_iter num_epoch (linear_args r f)
  = Ok (linear_args (r - INR k * ((1 - f) / INR (num_iter * num_epoch))) f).
Proof.
  intros HT. revert r. induction k as [|k IH]; intros r.
  - simpl. do 2 f_equal. lra.
  - rewrite S_INR. cbn [iterations]. unfold update_ss_ratio. simpl.
    destruct (Nat.eqb_spec (num_iter * num_epoch) 0) as [H0|_]; [lia|]. simpl.
    unfold set_ss_ratio. simpl.
    fold (linear_args (r - (1 - f) / INR (num_iter * num_epoch)) f).
    rewrite IH. do 2 f_equal. lra.
Qed.

(** An idealisation, not the code's arithmetic: were the handler's
    operations exact, firing it [total_iters] times from the initial ratio
    [r] would yield [r * 0.01] in exponential mode and [r - (1 - final_ss)]
    in linear mode, and in linear mode the ratio after any number [k] of
    firings would be [r - k * (1 - final_ss) / total_iters].  The handler
    runs in binary64, where these values are met only up to rounding (see
    [ss_ratio_linear_binary64_run]). *)
Lemma ss_ratio_exact_arithmetic
    (num_iter num_epoch : nat) (r f : R) (fo : option R) :
  let total_iters := (num_iter * num_epoch)%nat in
  (0 < total_iters)%nat ->
  iterations total_iters num_iter num_epoch (exponential_args r fo)
    = Ok (exponential_args (r * (1 / 100)) fo)
  ∧ iterations total_iters num_iter num_epoch (linear_args r f)
    = Ok (linear_args (r - (1 - f)) f)
  ∧ forall k : nat,
      iterations k num_iter num_epoch (linear_args r f)
      = Ok (linear_args (r - INR k * ((1 - f) / INR total_iters)) f).
Proof.
  intros total_iters HT.
  assert (0 < INR total_iters) as HT' by (apply lt_0_INR; lia).
  split; [|split].
  - unfold total_iters. rewrite exponential_iterations by done.
    fold total_iters. by rewrite decay_pow.
  - unfold total_iters. rewrite linear_iterations by done.
    fold total_iters. do 2 f_equal. field. lra.
  - intros k. by apply linear_iterations.
Qed.

(** The linear mode never calls [pow]. *)
Lemma linear_update_ignores_pow (pow1 pow2 : float -> float -> float)
    (num_iter num_epoch : nat) (a : ss_args float) :
  ss_mode a = "linear"%string ->
  @update_ss_ratio float (binary64_ops pow1) num_iter num_epoch a
  = @update_ss_ratio float (binary64_ops pow2) num_iter num_epoch a.
Proof. intros Hmode. unfold update_ss_ratio. by rewrite Hmode. Qed.

(** In binary64 the exact value is not reached bit for bit: with ten
    iterations in total, initial ratio [1.0] and final ratio [0.0], ten
    subtractions of [0.1] leave [1.3877787807814457e-16], whereas
    [1.0 - (1.0 - 0.0)] is [0.0]; the two differ by a rounding error. *)
Lemma ss_ratio_linear_binary64_run :
  exists a : ss_args float,
    @iterations float (binary64_ops (fun _ _ => nan)) 10 10 1
                (linear_args 1 0)%float = Ok a
    ∧ ss_ratio a = 1.3877787807814457e-16%float
    ∧ (1 - (1 - 0))%float = 0%float
    ∧ PrimFloat.eqb (ss_ratio a) (1 - (1 - 0))%float = false.
Proof.
  eexists. split; [vm_compute; reflexivity|].
  repeat split; vm_compute; reflexivity.
Qed.

End ScheduledSamplingFacts.

(** ** Checkpointing *)

Section CheckpointFacts.
Import Checkpoint.
Context {ModelState OptimizerState SchedulerState : Type}.

#[local] Abbreviation objects := (objects ModelState OptimizerState SchedulerState).
#[local] Abbreviation dump := (dump ModelState OptimizerState SchedulerState).

Implicit Types (d : direction) (best : option Q) (epochs pre post : list (objects * Q)).

Lemma Qltb_lt (x y : Q) : Qltb x y = true <-> (x < y)%Q.
Proof.
  unfold Qltb. rewrite negb_true_iff, <- not_true_iff_false, Qle_bool_iff.
  split; [apply Qnot_le_lt | apply Qlt_not_le].
Qed.

Lemma betterb_better d (x y : Q) : betterb d x y = true <-> better d x y.
Proof. destruct d; apply Qltb_lt. Qed.

(** Strictly better than [y] is strictly better than anything [y] is at
    least as good as. *)
Lemma better_over_weaker d (x y p : Q) :
  better d x y -> ¬ better d p y -> better d x p.
Proof.
  destruct d; simpl; intros Hxy Hpy%Qnot_lt_le.
  - by apply Qle_lt_trans with y.
  - by apply Qlt_le_trans with y.
Qed.

Lemma not_better_trans d (x y z : Q) :
  ¬ better d x y -> ¬ better d y z -> ¬ better d x z.
Proof.
  destruct d; simpl; intros Hxy%Qnot_lt_le Hyz%Qnot_lt_le; apply Qle_not_lt.
  - by apply Qle_trans with y.
  - by apply Qle_trans with y.
Qed.

Lemma better_irrefl d (x : Q) : ¬ better d x x.
Proof. destruct d; apply Qlt_irrefl. Qed.

Lemma better_trans d (x y z : Q) : better d x y -> better d y z -> better d x z.
Proof.
  destruct d; simpl; intros Hxy Hyz.
  - by apply Qlt_trans with y.
  - by apply Qlt_trans with y.
Qed.

(** The improver's state after a sequence of scores. *)
Fixpoint best_after d best (scores : list Q) : option Q :=
  match scores with
  | [] => best
  | x :: rest => best_after d (crtrn_imprvd d x best).2 rest
  end.

Lemma evaluation_epochs_app d best pre post :
  evaluation_epochs d best (pre ++ post)
  = evaluation_epochs d best pre
    ++ evaluation_epochs d (best_after d best pre.*2) post.
Proof.
  revert best. induction pre as [|[o x] pre IH]; intros best; [done|].
  simpl. unfold save_model.
  destruct (crtrn_imprvd d x best) as [improved best'] eqn:Hc. simpl.
  by rewrite IH.
Qed.

Lemma length_evaluation_epochs d best epochs :
  length (evaluation_epochs d best epochs) = length epochs.
Proof.
  revert best. induction epochs as [|[o x] epochs IH]; intros best; [done|].
  simpl. unfold save_model. destruct (crtrn_imprvd d x best). simpl. by rewrite IH.
Qed.

(** Started from a best score [b0], the state stays a score that was
    seen, and nothing seen is strictly better than it. *)
Lemma best_after_Some d (b0 : Q) (scores : list Q) :
  exists b, best_after d (Some b0) scores = Some b
    ∧ (b = b0 ∨ b ∈ scores)
    ∧ ¬ better d b0 b
    ∧ forall p, p ∈ scores -> ¬ better d p b.
Proof.
  revert b0. induction scores as [|x rest IH]; intros b0; simpl.
  - exists b0. split; [done|]. split; [by left|]. split; [apply better_irrefl|].
    by intros p ?%elem_of_nil.
  - destruct (betterb d x b0) eqn:Hx; simpl.
    + apply betterb_better in Hx.
      destruct (IH x) as (b & -> & Hb & Hxb & Hrest).
      exists b. split; [done|]. split; [|split].
      * right. apply elem_of_cons. destruct Hb as [->|Hb]; [by left|by right].
      * intros Hb0. apply Hxb. by apply better_trans with b0.
      * intros p [->|Hp]%elem_of_cons; [done|by apply Hrest].
    + apply not_true_iff_false in Hx. rewrite betterb_better in Hx.
      destruct (IH b0) as (b & -> & Hb & Hb0 & Hrest).
      exists b. split; [done|]. split; [|split; [done|]].
      * destruct Hb as [->|Hb]; [by left|right; apply elem_of_cons; by right].
      * intros p [->|Hp]%elem_of_cons; [|by apply Hrest].
        by apply not_better_trans with b0.
Qed.

Lemma best_after_None d (scores : list Q) :
  match best_after d None scores with
  | None => scores = []
  | Some b => b ∈ scores ∧ forall p, p ∈ scores -> ¬ better d p b
  end.
Proof.
  destruct scores as [|x rest]; [done|]. simpl.
  destruct (best_after_Some d x rest) as (b & -> & Hb & Hxb & Hrest).
  split.
  - apply elem_of_cons. destruct Hb as [->|Hb]; [by left|by right].
  - intros p [->|Hp]%elem_of_cons; [done|by apply Hrest].
Qed.

(** After the scores [seen], a new score is reported as an improvement
    exactly when it is strictly better than every one of them. *)
Lemma crtrn_imprvd_iff d (seen : list Q) (score : Q) :
  (crtrn_imprvd d score (best_after d None seen)).1 = true
  <-> forall p, p ∈ seen -> better d score p.
Proof.
  pose proof (best_after_None d seen) as Hinv.
  destruct (best_after d None seen) as [b|]; simpl.
  - destruct Hinv as [Hb Hbest].
    destruct (betterb d score b) eqn:Hs; simpl.
    + apply betterb_better in Hs. split; [|done].
      intros _ p Hp. apply better_over_weaker with b; [done|by apply Hbest].
    + split; [done|]. intros Hall. apply Hall, betterb_better in Hb. congruence.
  - subst seen. split; [|done]. by intros _ p ?%elem_of_nil.
Qed.

(** C4.  At every evaluation epoch of a run, [save_model] writes the
    "last" snapshot unconditionally, and writes the "best" snapshot if and
    only if the epoch's score is strictly better, in the configured
    direction, than every score seen earlier in the run; both snapshots
    are the same bundle, holding the model parameters, the optimizer
    state, the scheduler state and the id-to-token tables of the caption
    and the structure vocabulary. *)
Theorem best_written_iff_strict_improvement
    d pre post (o : objects) (score : Q) :
  exists writes,
    evaluation_epochs d None (pre ++ (o, score) :: post) !! length pre = Some writes
    ∧ ((best_pth, make_dump o) ∈ writes <-> forall p, p ∈ pre.*2 -> better d score p)
    ∧ (last_pth, make_dump o) ∈ writes
    ∧ (writes = [(best_pth, make_dump o); (last_pth, make_dump o)]
       ∨ writes = [(last_pth, make_dump o)])
    ∧ dump_model (make_dump o) = model_module o
    ∧ dump_optimizer (make_dump o) = optimizer o
    ∧ dump_lr_scheduler (make_dump o) = scheduler o
    ∧ dump_vocabulary (make_dump o) = Vocab.idx2word (vocabulary o)
    ∧ dump_structure_vocabulary (make_dump o)
      = Vocab.idx2word (structure_vocabulary o).
Proof.
  rewrite evaluation_epochs_app.
  rewrite lookup_app_r by (rewrite length_evaluation_epochs; lia).
  rewrite length_evaluation_epochs, Nat.sub_diag. simpl.
  unfold save_model.
  pose proof (crtrn_imprvd_iff d pre.*2 score) as Hiff.
  destruct (crtrn_imprvd d score (best_after d None pre.*2))
    as [improved best'] eqn:Hc. simpl in *.
  eexists. split; [done|].
  destruct improved; simpl.
  - split; [split; [intros _; by apply Hiff|intros _; left]|].
    split; [right; left|]. split; [by left|done].
  - split.
    + split.
      * intros [[=]|[]%elem_of_nil]%elem_of_cons.
      * intros Hall. apply Hiff in Hall. done.
    + split; [left|]. split; [by right|done].
Qed.

End CheckpointFacts.

(** ** The score report *)

Section ScoringFacts.
Import Scoring.

(** The scorer results in the order [write_scores] consumes them, each
    with the metric of the line it feeds; [Bleu] feeds four lines. *)
Definition bleu_entry (S : scorers) (n : nat) : metric * outcome Q :=
  (Bleu_ (n + 1),
   score ← Bleu S;
   match score !! n with Some x => Ok x | None => Raise IndexError end).

Definition plan (zh : bool) (S : scorers) : list (metric * outcome Q) :=
  (bleu_entry S <$> seq 0 4)
  ++ [(ROUGE, Rouge S); (CIDEr, Cider S)]
  ++ (if zh then [] else [(Meteor, Meteor_ S); (Spice, Spice_ S)])
  ++ [(SentenceBert, SentenceBert_ S); (Diversity, diversity_evaluate S)].

(** Score, write, go on; the first exception ends it. *)
Fixpoint run_plan (p : list (metric * outcome Q)) : io unit :=
  match p with
  | [] => mret tt
  | (m, r) :: rest => x ← call r; _ ← write m x; run_plan rest
  end.

(** The lines of the entries that returned a score. *)
Definition lines_of (p : list (metric * outcome Q)) : list line :=
  omap (fun q => match q.2 with Ok x => Some (q.1, x) | Raise _ => None end) p.

Lemma run_plan_app (p1 p2 : list (metric * outcome Q)) (report : list line) :
  run_plan (p1 ++ p2) report
  = match run_plan p1 report with
    | (Ok _, report') => run_plan p2 report'
    | (Raise e, report') => (Raise e, report')
    end.
Proof.
  revert report. induction p1 as [|[m [x|e]] p1 IH]; intros report; simpl; [done| |done].
  unfold mbind, io_bind, call, write. simpl. apply IH.
Qed.

Lemma write_bleu_plan (S : scorers) (score : list Q) (ns : list nat)
    (report : list line) :
  Bleu S = Ok score ->
  write_bleu score ns report = run_plan (bleu_entry S <$> ns) report.
Proof.
  intros HB.
  assert (forall n, bleu_entry S n
                    = (Bleu_ (n + 1),
                       match score !! n with
                       | Some x => Ok x
                       | None => Raise IndexError
                       end)) as Hentry
    by (intros n; unfold bleu_entry; by rewrite HB).
  revert report. induction ns as [|n ns IH]; intros report; [done|].
  rewrite fmap_cons. cbn [write_bleu run_plan]. rewrite Hentry.
  unfold mbind, io_bind, index, call, write.
  destruct (score !! n); [apply IH|done].
Qed.

(** The sequential code is the plan run entry by entry. *)
Lemma write_scores_plan (zh : bool) (S : scorers) (report : list line) :
  write_scores zh S report = run_plan (plan zh S) report.
Proof.
  unfold write_scores, plan. rewrite run_plan_app.
  destruct (Bleu S) as [score|e] eqn:HB.
  - unfold mbind at 1. unfold io_bind at 1. unfold call at 1.
    unfold mbind at 1. unfold io_bind at 1.
    rewrite (write_bleu_plan S score _ _ HB).
    destruct (run_plan (bleu_entry S <$> seq 0 4) report) as [[[]|e] report']; [|done].
    destruct zh; simpl; unfold mbind, io_bind, call, write, mret, io_ret; simpl;
      repeat (match goal with
              | |- context [match ?r with Ok _ => _ | Raise _ => _ end] =>
                  is_var r || destruct r eqn:?; simpl
              | |- context [let (_, _) := (let (_, _) := ?r in _) in _] => idtac
              end); try done.
  - simpl. unfold bleu_entry. rewrite HB. done.
Qed.

Lemma run_plan_first_failure (pre post : list (metric * outcome Q))
    (m : metric) (e : exn) (report : list line) :
  (forall q, q ∈ pre -> is_ok q.2 = true) ->
  run_plan (pre ++ (m, Raise e) :: post) report
  = (Raise e, report ++ lines_of pre).
Proof.
  revert report. induction pre as [|[m' [x|e']] pre IH]; intros report Hok; simpl.
  - by rewrite app_nil_r.
  - unfold mbind, io_bind, call, write. simpl.
    rewrite IH; [|intros q Hq; apply Hok; by right].
    unfold lines_of. simpl. by rewrite <- app_assoc.
  - specialize (Hok (m', Raise e')). simpl in Hok.
    discriminate Hok. left.
Qed.

Lemma run_plan_all_ok (p : list (metric * outcome Q)) (report : list line) :
  (forall q, q ∈ p -> is_ok q.2 = true) ->
  run_plan p report = (Ok tt, report ++ lines_of p).
Proof.
  revert report. induction p as [|[m [x|e]] p IH]; intros report Hok; simpl.
  - by rewrite app_nil_r.
  - unfold mbind, io_bind, call, write. simpl.
    rewrite IH; [|intros q Hq; apply Hok; by right].
    unfold lines_of. simpl. by rewrite <- app_assoc.
  - specialize (Hok (m, Raise e)). simpl in Hok.
    discriminate Hok. left.
Qed.

Lemma lines_of_metrics (p : list (metric * outcome Q)) :
  (forall q, q ∈ p -> is_ok q.2 = true) -> (lines_of p).*1 = p.*1.
Proof.
  induction p as [|[m [x|e]] p IH]; intros Hok; [done| |].
  - unfold lines_of in *. simpl. f_equal. apply IH. intros q Hq. apply Hok. by right.
  - specialize (Hok (m, Raise e)). simpl in Hok. discriminate Hok. left.
Qed.

Lemma plan_metrics (zh : bool) (S : scorers) :
  (plan zh S).*1
  = [Bleu_ 1; Bleu_ 2; Bleu_ 3; Bleu_ 4; ROUGE; CIDEr]
    ++ (if zh then [] else [Meteor; Spice]) ++ [SentenceBert; Diversity].
Proof. by destruct zh. Qed.

Lemma plan_metrics_NoDup (zh : bool) (S : scorers) : NoDup (plan zh S).*1.
Proof.
  rewrite plan_metrics. destruct zh; compute_done.
Qed.

Lemma run_plan_prefix (p : list (metric * outcome Q)) (report : list line) :
  exists p1 p2,
    p = p1 ++ p2 ∧ (forall q, q ∈ p1 -> is_ok q.2 = true)
    ∧ (run_plan p report).2 = report ++ lines_of p1.
Proof.
  revert report. induction p as [|[m [x|e]] p IH]; intros report.
  - exists [], []. split; [done|]. split; [by intros q ?%elem_of_nil|].
    simpl. by rewrite app_nil_r.
  - destruct (IH (report ++ [(m, x)])) as (p1 & p2 & -> & Hok & Hrun).
    exists ((m, Ok x) :: p1), p2. split; [done|]. split.
    + intros q [->|Hq]%elem_of_cons; [done|by apply Hok].
    + simpl. unfold mbind, io_bind, call, write. simpl.
      rewrite Hrun. unfold lines_of. simpl. by rewrite <- app_assoc.
  - exists [], ((m, Raise e) :: p). split; [done|].
    split; [by intros q ?%elem_of_nil|]. simpl. by rewrite app_nil_r.
Qed.

Lemma plan_all_ok (zh : bool) (S : scorers) (score : list Q) :
  Bleu S = Ok score -> 4 <= length score ->
  is_ok (Rouge S) = true -> is_ok (Cider S) = true ->
  (zh = false -> is_ok (Meteor_ S) = true ∧ is_ok (Spice_ S) = true) ->
  is_ok (SentenceBert_ S) = true -> is_ok (diversity_evaluate S) = true ->
  forall q, q ∈ plan zh S -> is_ok q.2 = true.
Proof.
  intros HB Hlen HR HC HMS HSB HD q. unfold plan.
  rewrite !elem_of_app, list_elem_of_fmap, !elem_of_cons, elem_of_nil.
  intros [(n & -> & Hn)|[[->|[->|[]]]|[Hzh|[->|[->|[]]]]]]; try done.
  - apply elem_of_seq in Hn. unfold bleu_entry. rewrite HB. simpl.
    destruct (lookup_lt_is_Some_2 score n) as [x ->]; [lia|done].
  - destruct zh; [by apply elem_of_nil in Hzh|].
    destruct (HMS eq_refl) as [HM HS].
    rewrite !elem_of_cons, elem_of_nil in Hzh.
    destruct Hzh as [->|[->|[]]]; done.
Qed.

(** A scoring run in which the METEOR scorer cannot start (its Java
    helper is missing) while every other scorer would return a score. *)
Definition meteor_missing : scorers :=
  {| Bleu := Ok [0.61; 0.42; 0.29; 0.2]%Q;
     Rouge := Ok 0.4%Q;
     Cider := Ok 0.9%Q;
     Meteor_ := Raise (ExternalError "java");
     Spice_ := Ok 0.15%Q;
     SentenceBert_ := Ok 0.5%Q;
     diversity_evaluate := Ok 0.7%Q |}.

(** A scoring run in which every scorer returns a score. *)
Definition all_scored : scorers :=
  {| Bleu := Ok [0.61; 0.42; 0.29; 0.2]%Q;
     Rouge := Ok 0.4%Q;
     Cider := Ok 0.9%Q;
     Meteor_ := Ok 0.3%Q;
     Spice_ := Ok 0.15%Q;
     SentenceBert_ := Ok 0.5%Q;
     diversity_evaluate := Ok 0.7%Q |}.

(** C5 (as amended).  A scorer's exception aborts the evaluation at that
    point: when the scorer feeding metric [m] is the first to raise, the
    evaluation ends with that exception, the report holds exactly the
    lines of the metrics before [m], and neither [m] nor any later metric
    has a line; no scorer after the failing one runs and nothing is noted
    about the missing metric. *)
Theorem scorer_failure_aborts_report (zh : bool) (S : scorers)
    (pre post : list (metric * outcome Q)) (m : metric) (e : exn) :
  plan zh S = pre ++ (m, Raise e) :: post ->
  (forall q, q ∈ pre -> is_ok q.2 = true) ->
  evaluate_report zh S = (Raise e, lines_of pre)
  ∧ (lines_of pre).*1 = pre.*1
  ∧ (forall m', m' ∈ m :: post.*1 -> m' ∉ (lines_of pre).*1).
Proof.
  intros Hplan Hok. unfold evaluate_report.
  rewrite write_scores_plan, Hplan, run_plan_first_failure by done.
  split; [done|]. split; [by apply lines_of_metrics|].
  rewrite lines_of_metrics by done.
  pose proof (plan_metrics_NoDup zh S) as Hnd.
  rewrite Hplan, fmap_app, fmap_cons in Hnd. simpl in Hnd.
  apply NoDup_app in Hnd as (_ & Hdisj & _).
  intros m' Hm' Hin. by apply (Hdisj m').
Qed.

Lemma scorer_failure_aborts_report_witness :
  evaluate_report false meteor_missing
  = (Raise (ExternalError "java"),
     [(Bleu_ 1, 0.61); (Bleu_ 2, 0.42); (Bleu_ 3, 0.29); (Bleu_ 4, 0.2);
      (ROUGE, 0.4); (CIDEr, 0.9)]%Q)
  ∧ forall m', m' ∈ [Meteor; Spice; SentenceBert; Diversity] ->
               m' ∉ [Bleu_ 1; Bleu_ 2; Bleu_ 3; Bleu_ 4; ROUGE; CIDEr].
Proof.
  destruct (scorer_failure_aborts_report false meteor_missing
              (take 6 (plan false meteor_missing))
              (drop 7 (plan false meteor_missing))
              Meteor (ExternalError "java") eq_refl) as (Hrun & _ & Habsent).
  - intros q Hq. repeat (apply elem_of_cons in Hq as [->|Hq]); try reflexivity.
    by apply elem_of_nil in Hq.
  - split; [exact Hrun | exact Habsent].
Defined.

(** The claimed isolation fails: with METEOR unable to start, the
    evaluation ends with that exception after the CIDEr line, and the
    SPICE, sentence-embedding and diversity lines are never written
    although their scorers would have returned scores; nothing in the
    report mentions METEOR. *)
Lemma scorer_isolation_counterexample :
  exists report,
    evaluate_report false meteor_missing = (Raise (ExternalError "java"), report)
    ∧ report.*1 = [Bleu_ 1; Bleu_ 2; Bleu_ 3; Bleu_ 4; ROUGE; CIDEr]
    ∧ is_ok (Spice_ meteor_missing) = true
    ∧ is_ok (SentenceBert_ meteor_missing) = true
    ∧ is_ok (diversity_evaluate meteor_missing) = true
    ∧ (Meteor ∉ report.*1) ∧ (Spice ∉ report.*1)
    ∧ (SentenceBert ∉ report.*1) ∧ (Diversity ∉ report.*1).
Proof.
  eexists. split; [reflexivity|]. simpl.
  repeat split; try reflexivity; compute_done.
Qed.

(** C8.  The metrics of the report lines always form an initial stretch
    of: BLEU-1 to BLEU-4, ROUGE, CIDEr, then METEOR and SPICE when the
    corpus is not logographic-script ([zh] false), then the
    sentence-embedding score, then the diversity score.  When every scorer
    returns its score the report has exactly these lines in this order,
    and for a logographic-script corpus it has no METEOR and no SPICE
    line. *)
Theorem report_metric_order (zh : bool) (S : scorers) :
  ((evaluate_report zh S).2.*1 `prefix_of`
     [Bleu_ 1; Bleu_ 2; Bleu_ 3; Bleu_ 4; ROUGE; CIDEr]
     ++ (if zh then [] else [Meteor; Spice]) ++ [SentenceBert; Diversity])
  ∧ (forall score,
       Bleu S = Ok score -> 4 <= length score ->
       is_ok (Rouge S) = true -> is_ok (Cider S) = true ->
       (zh = false -> is_ok (Meteor_ S) = true ∧ is_ok (Spice_ S) = true) ->
       is_ok (SentenceBert_ S) = true -> is_ok (diversity_evaluate S) = true ->
       exists report,
         evaluate_report zh S = (Ok tt, report)
         ∧ report.*1
           = [Bleu_ 1; Bleu_ 2; Bleu_ 3; Bleu_ 4; ROUGE; CIDEr]
             ++ (if zh then [] else [Meteor; Spice]) ++ [SentenceBert; Diversity]
         ∧ (forall m x, (m, x) ∈ report -> (m, Ok x) ∈ plan zh S)
         ∧ (zh = true -> (Meteor ∉ report.*1) ∧ (Spice ∉ report.*1))).
Proof.
  unfold evaluate_report. split.
  - rewrite write_scores_plan, <- (plan_metrics zh S).
    destruct (run_plan_prefix (plan zh S) []) as (p1 & p2 & Hp & Hok & Hrun).
    rewrite Hrun, app_nil_l, lines_of_metrics by done. rewrite Hp, fmap_app.
    by eexists.
  - intros score HB Hlen HR HC HMS HSB HD.
    pose proof (plan_all_ok zh S score HB Hlen HR HC HMS HSB HD) as Hok.
    exists (lines_of (plan zh S)).
    rewrite write_scores_plan, run_plan_all_ok by done. rewrite app_nil_l.
    split; [done|]. split; [by rewrite lines_of_metrics, plan_metrics|]. split.
    + intros m x. unfold lines_of. rewrite list_elem_of_omap.
      intros ([m' [x'|e']] & Hin & Heq); simpl in Heq; [|done].
      by injection Heq as -> ->.
    + intros ->. rewrite lines_of_metrics, plan_metrics by done. simpl.
      split; compute_done.
Qed.

Lemma report_metric_order_witness :
  (exists report,
     evaluate_report false all_scored = (Ok tt, report)
     ∧ report.*1 = [Bleu_ 1; Bleu_ 2; Bleu_ 3; Bleu_ 4; ROUGE; CIDEr;
                    Meteor; Spice; SentenceBert; Diversity])
  ∧ (exists report,
       evaluate_report true all_scored = (Ok tt, report)
       ∧ report.*1 = [Bleu_ 1; Bleu_ 2; Bleu_ 3; Bleu_ 4; ROUGE; CIDEr;
                      SentenceBert; Diversity]
       ∧ (Meteor ∉ report.*1) ∧ (Spice ∉ report.*1)).
Proof.
  assert (4 <= length [0.61; 0.42; 0.29; 0.2]%Q) as Hlen by (simpl; lia).
  split.
  - destruct (proj2 (report_metric_order false all_scored)
                [0.61; 0.42; 0.29; 0.2]%Q eq_refl Hlen eq_refl eq_refl
                (fun _ => conj eq_refl eq_refl) eq_refl eq_refl)
      as (report & Hrun & Horder & _).
    exists report. split; [exact Hrun | exact Horder].
  - assert (true = false -> is_ok (Meteor_ all_scored) = true
                            ∧ is_ok (Spice_ all_scored) = true) as Hzh'
      by (intros [=]).
    destruct (proj2 (report_metric_order true all_scored)
                [0.61; 0.42; 0.29; 0.2]%Q eq_refl Hlen eq_refl eq_refl
                Hzh' eq_refl eq_refl)
      as (report & Hrun & Horder & _ & Hzh).
    exists report. split; [exact Hrun|]. split; [exact Horder|].
    exact (Hzh eq_refl).
Defined.

End ScoringFacts.

(** ** Learning-rate scheduling *)

Section LrScheduleFacts.
Import LrSchedule.

(** The evaluator's [eval_val] handler is registered before [update_lr]
    and stores the score, so the metrics of every evaluation epoch that
    completes hold ["score"]. *)
Definition scored (f : fired) : Prop :=
  on_engine f = evaluator -> on_event f = EPOCH_COMPLETED ->
  is_Some (state_metrics f !! "score"%string).

Definition is_evaluation_epoch (f : fired) : Prop :=
  on_engine f = evaluator ∧ on_event f = EPOCH_COMPLETED.

Definition is_iteration_start (f : fired) : Prop :=
  on_engine f = trainer ∧ on_event f = ITERATION_STARTED.

#[local] Instance is_evaluation_epoch_dec f : Decision (is_evaluation_epoch f).
Proof. unfold is_evaluation_epoch. apply _. Defined.
#[local] Instance is_iteration_start_dec f : Decision (is_iteration_start f).
Proof. unfold is_iteration_start. apply _. Defined.

(** The step an evaluation epoch causes for an epoch-stepped class: with
    the score for [ReduceLROnPlateau], plain for the other three. *)
Definition epoch_step (class_name : string) (f : fired) : step_call :=
  step (if String.eqb class_name "ReduceLROnPlateau"
        then state_metrics f !! "score"%string else None).

Lemma dispatch_epoch_stepped (class_name : string) (f : fired) :
  class_name ∈ epoch_stepped -> scored f ->
  dispatch class_name f
  = Ok (if decide (is_evaluation_epoch f) then [epoch_step class_name f] else []).
Proof.
  intros Hin Hscored. unfold dispatch, attach.
  rewrite bool_decide_eq_true_2 by done.
  destruct (decide (is_evaluation_epoch f)) as [[He Hv]|Hno].
  - rewrite bool_decide_eq_true_2 by done.
    unfold update_lr, epoch_step.
    destruct (Hscored He Hv) as [v Hv'].
    destruct (String.eqb class_name "ReduceLROnPlateau"); [|done].
    by rewrite Hv'.
  - by rewrite bool_decide_eq_false_2.
Qed.

Lemma dispatch_iteration_stepped (class_name : string) (f : fired) :
  class_name ∉ epoch_stepped ->
  dispatch class_name f
  = Ok (if decide (is_iteration_start f) then [step None] else []).
Proof.
  intros Hnot. unfold dispatch, attach.
  rewrite bool_decide_eq_false_2 by done.
  assert (String.eqb class_name "ReduceLROnPlateau" = false) as Hname.
  { apply String.eqb_neq. intros ->. apply Hnot. compute_done. }
  destruct (decide (is_iteration_start f)) as [Hyes|Hno].
  - rewrite bool_decide_eq_true_2 by done. unfold update_lr. by rewrite Hname.
  - by rewrite bool_decide_eq_false_2.
Qed.

(** C6 (as amended).  The scheduler is stepped once per completed
    evaluation epoch, and at no training iteration, exactly when its class
    is one of [StepLR], [ReduceLROnPlateau], [ExponentialLR] and
    [MultiStepLR]; the scoring metric is passed to the step only for
    [ReduceLROnPlateau].  A scheduler of any other class is stepped once at
    each training iteration start, without a metric, and at no evaluation
    epoch. *)
Theorem lr_scheduler_stepping (class_name : string) (trace : list fired) :
  Forall scored trace ->
  run class_name trace
  = Ok (if decide (class_name ∈ epoch_stepped)
        then epoch_step class_name <$> filter is_evaluation_epoch trace
        else (fun _ => step None) <$> filter is_iteration_start trace).
Proof.
  intros Hscored.
  destruct (decide (class_name ∈ epoch_stepped)) as [Hin|Hnot].
  - induction Hscored as [|f trace Hf _ IH]; [done|].
    cbn [run]. rewrite dispatch_epoch_stepped, IH by done. simpl.
    destruct (decide (is_evaluation_epoch f)).
    + by rewrite filter_cons_True.
    + by rewrite filter_cons_False.
  - clear Hscored. induction trace as [|f trace IH]; [done|].
    cbn [run]. rewrite dispatch_iteration_stepped, IH by done. simpl.
    destruct (decide (is_iteration_start f)).
    + by rewrite filter_cons_True.
    + by rewrite filter_cons_False.
Qed.

Definition iteration_started : fired :=
  {| on_engine := trainer; on_event := ITERATION_STARTED; state_metrics := ∅ |}.

Definition evaluation_completed (score : Q) : fired :=
  {| on_engine := evaluator; on_event := EPOCH_COMPLETED;
     state_metrics := {[ "score"%string := score ]} |}.

(** One epoch of two training iterations followed by its evaluation. *)
Definition one_epoch : list fired :=
  [iteration_started; iteration_started; evaluation_completed 0.5%Q].

Lemma one_epoch_scored : Forall scored one_epoch.
Proof.
  repeat apply Forall_cons_2; try apply Forall_nil_2; unfold scored; simpl;
    try discriminate.
  intros _ _. by eexists.
Defined.

Lemma lr_scheduler_stepping_witness :
  run "ReduceLROnPlateau" one_epoch = Ok [step (Some 0.5%Q)]
  ∧ run "ExponentialDecayScheduler" one_epoch = Ok [step None; step None].
Proof.
  split.
  - exact (lr_scheduler_stepping "ReduceLROnPlateau" one_epoch one_epoch_scored).
  - exact (lr_scheduler_stepping "ExponentialDecayScheduler" one_epoch
                                 one_epoch_scored).
Defined.

(** The claimed dividing line fails: [StepLR] is not the plateau-sensitive
    scheduler, yet it is registered on the evaluator's [EPOCH_COMPLETED]:
    over two training iterations and one evaluation epoch it is stepped
    once, at the evaluation epoch, and not twice at the iteration starts. *)
Lemma lr_scheduler_stepping_counterexample :
  String.eqb "StepLR" "ReduceLROnPlateau" = false
  ∧ attach "StepLR" = (evaluator, EPOCH_COMPLETED, Some "score"%string)
  ∧ run "StepLR" one_epoch = Ok [step None]
  ∧ run "StepLR" [iteration_started; iteration_started] = Ok []
  ∧ run "StepLR" one_epoch ≠ Ok [step None; step None].
Proof. repeat split; try reflexivity. discriminate. Qed.

End LrScheduleFacts.

(** ** [BaseRunner.sample] *)

Section SampleFacts.
Import Vocab Decode Sample.

(** C9 (as amended).  Whatever its arguments and surroundings, [sample]
    ends in an exception and leaves the output file unopened, so no
    caption row is written.  When a statement before the check of
    [max_length] fails, its exception is the one raised; when all of them
    return (the import, the two loads, the subscripts of the checkpoint
    and of its configuration, the move of the model, the data set and the
    loader), the exception is the unbound local [max_length].  In
    [_sample], a row whose decoded caption is a string does not assign
    [sentence]: on the first such row of a call the read of [sentence]
    raises the unbound-local error and nothing is written for the row. *)
Theorem sample_fails_on_unbound_locals
    (env : environment) (experiment_path feature_file predict_scp output : string) :
  let result := sample env experiment_path feature_file predict_scp output in
  (exists e, result.1 = Raise e)
  ∧ result.2 = None
  ∧ (forall e, sample_setup env experiment_path = Raise e -> result = (Raise e, None))
  ∧ (forall dump model config vocab_file vocabulary zh batches,
       import_tableprint env = Ok tt ->
       torch_load_checkpoint env (path_join experiment_path "saved.pth") = Ok dump ->
       saved_model dump = Some model ->
       saved_scaler dump = Some tt ->
       saved_config dump = Some config ->
       config_vocab_file config = Some vocab_file ->
       torch_load_vocabulary env vocab_file = Ok vocabulary ->
       config_zh config = Some zh ->
       model_to model = Ok tt ->
       SJTUDatasetEval env = Ok tt ->
       DataLoader env = Ok batches ->
       result = (Raise (UnboundLocalError "max_length"), None))
  ∧ (forall vocabulary zh keys idx seq rest st s key,
       _convert_idx2sentence seq vocabulary zh = Ok (Str s) ->
       keys !! idx = Some key ->
       _sample_loop vocabulary zh keys idx (seq :: rest) None st
       = (Raise (UnboundLocalError "sentence"), st)).
Proof.
  intros result. subst result. unfold sample.
  split; [|split; [|split; [|split]]].
  - destruct (sample_setup env experiment_path) as [[[[m v] z] bs]|e];
      by eexists.
  - by destruct (sample_setup env experiment_path) as [[[[m v] z] bs]|e].
  - by intros e ->.
  - intros dump m c vf v z bs Himport Hload Hm Hs Hc Hvf Hv Hz Hto Hds Hdl.
    unfold sample_setup.
    rewrite Himport. simpl. rewrite Hload. simpl.
    rewrite Hm, Hs, Hc. simpl. rewrite Hvf. simpl. rewrite Hv. simpl.
    rewrite Hz. simpl. rewrite Hto. simpl. rewrite Hds. simpl.
    by rewrite Hdl.
  - intros vocabulary zh keys idx seq rest st s key Hc Hk.
    simpl. by rewrite Hc, Hk.
Qed.

Definition demo_batch : batch :=
  {| keys := ["clip1"; "clip2"];
     forward_seqs := Ok [[0; 2; 3; 4; 1]; [0; 2; 3; 1; 1]]%Z |}.

Definition demo_checkpoint : checkpoint :=
  {| saved_model := Some {| model_max_length := 20; model_to := Ok tt |};
     saved_scaler := Some tt;
     saved_config := Some {| config_vocab_file := Some "vocab.pth"%string;
                             config_zh := Some false |} |}.

(** Everything [sample] needs is in place. *)
Definition demo_environment : environment :=
  {| import_tableprint := Ok tt;
     torch_load_checkpoint := fun path =>
       if String.eqb path "exp/saved.pth" then Ok demo_checkpoint
       else Raise (FileNotFoundError path);
     torch_load_vocabulary := fun path =>
       if String.eqb path "vocab.pth" then Ok demo_vocabulary
       else Raise (FileNotFoundError path);
     SJTUDatasetEval := Ok tt;
     DataLoader := Ok [demo_batch] |}.

(** The same, with no checkpoint under the experiment path. *)
Definition no_checkpoint : environment :=
  {| import_tableprint := Ok tt;
     torch_load_checkpoint := fun path => Raise (FileNotFoundError path);
     torch_load_vocabulary := torch_load_vocabulary demo_environment;
     SJTUDatasetEval := Ok tt;
     DataLoader := Ok [demo_batch] |}.

Lemma sample_fails_on_unbound_locals_witness :
  sample demo_environment "exp" "feats.h5" "predict.scp" "output_word.txt"
  = (Raise (UnboundLocalError "max_length"), None)
  ∧ sample no_checkpoint "exp" "feats.h5" "predict.scp" "output_word.txt"
    = (Raise (FileNotFoundError "exp/saved.pth"), None)
  ∧ _sample demo_vocabulary false demo_batch ([Header 80; Newline], [])
    = (Raise (UnboundLocalError "sentence"), ([Header 80; Newline], [])).
Proof.
  destruct (sample_fails_on_unbound_locals
              demo_environment "exp" "feats.h5" "predict.scp" "output_word.txt")
    as (_ & _ & _ & Hmax & Hsentence).
  destruct (sample_fails_on_unbound_locals
              no_checkpoint "exp" "feats.h5" "predict.scp" "output_word.txt")
    as (_ & _ & Hfirst & _).
  split; [|split].
  - exact (Hmax demo_checkpoint _ _ "vocab.pth"%string demo_vocabulary false
                [demo_batch] eq_refl eq_refl eq_refl eq_refl eq_refl eq_refl
                eq_refl eq_refl eq_refl eq_refl eq_refl).
  - exact (Hfirst (FileNotFoundError "exp/saved.pth") eq_refl).
  - exact (Hsentence demo_vocabulary false ["clip1"; "clip2"] 0
                     [0; 2; 3; 4; 1]%Z [[0; 2; 3; 1; 1]%Z]
                     ([Header 80; Newline], []) "a cat sleeps" "clip1"
                     eq_refl eq_refl).
Defined.

(** The claimed error is not the one raised where the checkpoint cannot
    be loaded: the call ends in [torch.load]'s exception, not in an
    unbound-variable error. *)
Lemma sample_unbound_variable_counterexample :
  exists e,
    (sample no_checkpoint "exp" "feats.h5" "predict.scp" "output_word.txt").1
    = Raise e
    ∧ e = FileNotFoundError "exp/saved.pth"
    ∧ forall name, e ≠ UnboundLocalError name.
Proof.
  exists (FileNotFoundError "exp/saved.pth"). by repeat split.
Qed.

End SampleFacts.

(** ** More on decoding: when it raises *)

Section DecodeErrors.
Import Vocab Decode.

Implicit Types (iw : gmap Z string) (ids pre post : list Z).

(** Every id that no end sentinel precedes is in the vocabulary. *)
Definition resolves_up_to_end iw ids : Prop :=
  forall pre i post,
    ids = pre ++ i :: post ->
    (forall j, j ∈ pre -> iw !! j ≠ Some END) ->
    is_Some (iw !! i).

Lemma resolves_up_to_end_cons iw (a : Z) (w : string) ids :
  iw !! a = Some w -> w ≠ END ->
  resolves_up_to_end iw (a :: ids) <-> resolves_up_to_end iw ids.
Proof.
  intros Ha Hw. split; intros Hres pre i post Hids Hpre.
  - apply (Hres (a :: pre) i post); [by rewrite Hids|].
    intros j [->|Hj]%elem_of_cons; [|by apply Hpre].
    rewrite Ha. by intros [= ->].
  - destruct pre as [|b pre]; simpl in Hids.
    + injection Hids as <- _. by rewrite Ha.
    + injection Hids as <- ->. apply (Hres pre i post); [done|].
      intros j Hj. apply Hpre. by right.
Qed.

Lemma candidate_loop_is_ok iw ids (acc : list string) :
  is_ok (candidate_loop iw ids acc) = true <-> resolves_up_to_end iw ids.
Proof.
  revert acc. induction ids as [|a ids IH]; intros acc; simpl.
  - split; [|done]. intros _ pre i post Hids. by destruct pre.
  - destruct (iw !! a) as [w|] eqn:Ha.
    + destruct (String.eqb_spec w END) as [->|Hend].
      * split; [|done]. intros _ pre i post Hids Hpre.
        destruct pre as [|b pre]; simpl in Hids.
        -- injection Hids as <- _. by rewrite Ha.
        -- injection Hids as <- ->. exfalso. apply (Hpre a); [left|done].
      * rewrite (resolves_up_to_end_cons iw a w ids Ha Hend).
        destruct (String.eqb w START); apply IH.
    + split; [done|]. intros Hres.
      destruct (Hres [] a ids eq_refl) as [w Hw].
      * by intros j ?%elem_of_nil.
      * congruence.
Qed.

Lemma candidate_loop_raises_KeyError iw ids (acc : list string) (e : exn) :
  candidate_loop iw ids acc = Raise e -> e = KeyError.
Proof.
  revert acc. induction ids as [|a ids IH]; intros acc; simpl; [done|].
  destruct (iw !! a) as [w|]; [|by intros [= <-]].
  destruct (String.eqb w END); [done|].
  destruct (String.eqb w START); apply IH.
Qed.

Lemma convert_idx2sentence_is_ok (vocabulary : Vocabulary) (word_ids : list Z)
    (zh : bool) :
  is_ok (_convert_idx2sentence word_ids vocabulary zh) = true
  <-> resolves_up_to_end (idx2word vocabulary) word_ids.
Proof.
  unfold _convert_idx2sentence.
  rewrite <- (candidate_loop_is_ok (idx2word vocabulary) word_ids []).
  by destruct (candidate_loop (idx2word vocabulary) word_ids []).
Qed.

(** X1.  [_convert_idx2sentence] returns exactly when every id that no
    end sentinel precedes is in the vocabulary, and the only exception it
    raises is [KeyError]: an unknown id behind the first end sentinel is
    harmless, an unknown id before it (or with no end sentinel at all) is
    fatal. *)
Theorem convert_idx2sentence_returns_iff
    (vocabulary : Vocabulary) (word_ids : list Z) (zh : bool) :
  ((exists c, _convert_idx2sentence word_ids vocabulary zh = Ok c)
   <-> resolves_up_to_end (idx2word vocabulary) word_ids)
  ∧ (forall e, _convert_idx2sentence word_ids vocabulary zh = Raise e -> e = KeyError).
Proof.
  unfold _convert_idx2sentence.
  rewrite <- (candidate_loop_is_ok (idx2word vocabulary) word_ids []).
  destruct (candidate_loop (idx2word vocabulary) word_ids []) as [toks|e] eqn:Hloop;
    simpl.
  - split; [split; [done|intros _; by eexists]|done].
  - split; [split; [by intros [c [=]]|done]|].
    intros e' [= <-]. by apply candidate_loop_raises_KeyError in Hloop.
Qed.

End DecodeErrors.

(** ** What [Runner._get_dataloaders] builds from the split *)

Section RunnerDataFacts.
Import Numpy Runner Decode RunnerData.

Implicit Types (info : list audio) (idxs : list nat)
               (table acc : gmap string string)
               (m : gmap string (list Decode.caption))
               (zh : option bool).

(** Every caption of the record carries the field the references are
    read from (and the configuration says which field that is). *)
Definition annotated zh (a : audio) : Prop :=
  Forall (fun c => is_ok (reference zh c) = true) (captions a).

(** [refs] are the references of the record, in caption order. *)
Definition references zh (a : audio) (refs : list Decode.caption) : Prop :=
  Forall2 (fun c r => reference zh c = Ok r) (captions a) refs.

Lemma reference_raises_KeyError zh (c : caption_entry) (e : exn) :
  reference zh c = Raise e -> e = KeyError.
Proof.
  unfold reference. destruct zh as [[]|]; simpl.
  - destruct (token c); simpl; [done|by intros [= <-]].
  - destruct (Runner.caption c); simpl; [done|by intros [= <-]].
  - by intros [= <-].
Qed.

Lemma append_refs_Ok zh (captions : list caption_entry)
    (refs out : list Decode.caption) :
  append_refs zh captions refs = Ok out <->
  exists new, Forall2 (fun c r => reference zh c = Ok r) captions new
              ∧ out = refs ++ new.
Proof.
  revert refs. induction captions as [|c captions IH]; intros refs; simpl.
  - split.
    + intros [= <-]. exists []. by rewrite app_nil_r.
    + intros (new & ->%Forall2_nil_inv_l & ->). by rewrite app_nil_r.
  - destruct (reference zh c) as [r|e] eqn:Hr; simpl.
    + rewrite IH. split.
      * intros (new & Hnew & ->). exists (r :: new).
        split; [by constructor|by rewrite <- app_assoc].
      * intros (new & Hnew & ->).
        apply Forall2_cons_inv_l in Hnew as (r' & new' & Hr' & Hnew' & ->).
        rewrite Hr in Hr'. injection Hr' as <-.
        exists new'. split; [done|by rewrite <- app_assoc].
    + split; [done|]. intros (new & Hnew & _).
      apply Forall2_cons_inv_l in Hnew as (r' & new' & Hr' & _).
      congruence.
Qed.

Lemma append_refs_is_ok zh (captions : list caption_entry)
    (refs : list Decode.caption) :
  is_ok (append_refs zh captions refs) = true
  <-> Forall (fun c => is_ok (reference zh c) = true) captions.
Proof.
  revert refs. induction captions as [|c captions IH]; intros refs; simpl.
  - split; [constructor|done].
  - rewrite Forall_cons. destruct (reference zh c) as [r|e]; simpl.
    + rewrite IH. naive_solver.
    + naive_solver.
Qed.

Lemma append_refs_raises_KeyError zh (captions : list caption_entry)
    (refs : list Decode.caption) (e : exn) :
  append_refs zh captions refs = Raise e -> e = KeyError.
Proof.
  revert refs. induction captions as [|c captions IH]; intros refs; simpl; [done|].
  destruct (reference zh c) as [r|e'] eqn:Hr; simpl; [apply IH|].
  intros [= <-]. by eapply reference_raises_KeyError.
Qed.

(** [k] is the audio id of a record listed in [idxs]. *)
Definition listed info idxs (k : string) : Prop :=
  exists i a, i ∈ idxs ∧ info !! i = Some a ∧ audio_id a = k.

Lemma listed_nil info k : ¬ listed info [] k.
Proof. by intros (i & a & ?%elem_of_nil & _). Qed.

Lemma listed_cons info i idxs k (a : audio) :
  info !! i = Some a ->
  listed info (i :: idxs) k <-> audio_id a = k ∨ listed info idxs k.
Proof.
  intros Hi. split.
  - intros (j & b & [->|Hj]%elem_of_cons & Hb & Hk).
    + left. congruence.
    + right. by exists j, b.
  - intros [Hk|(j & b & Hj & Hb & Hk)].
    + exists i, a. split; [left|done].
    + exists j, b. split; [by right|done].
Qed.

Lemma audio_ids_spec info idxs :
  (forall i, i ∈ idxs -> i < length info) ->
  exists ids, audio_ids info idxs = Ok ids
              ∧ forall k, k ∈ ids <-> listed info idxs k.
Proof.
  induction idxs as [|i idxs IH]; intros Hlt; simpl.
  - exists []. split; [done|]. intros k. split; [by intros ?%elem_of_nil|].
    by intros ?%listed_nil.
  - destruct (lookup_lt_is_Some_2 info i) as [a Ha]; [apply Hlt; left|].
    rewrite Ha.
    destruct IH as (ids & -> & Hids); [intros j Hj; apply Hlt; by right|].
    simpl. exists (audio_id a :: ids). split; [done|].
    intros k. rewrite elem_of_cons, (listed_cons info i idxs k a Ha), Hids.
    naive_solver.
Qed.

Lemma restrict_is_ok table (ids : list string) acc :
  is_ok (restrict table ids acc) = true <-> forall k, k ∈ ids -> is_Some (table !! k).
Proof.
  revert acc. induction ids as [|k ids IH]; intros acc; simpl.
  - split; [|done]. by intros _ k ?%elem_of_nil.
  - destruct (table !! k) as [path|] eqn:Hk.
    + rewrite IH. split.
      * intros Hall j [->|Hj]%elem_of_cons; [by rewrite Hk|by apply Hall].
      * intros Hall j Hj. apply Hall. by right.
    + split; [done|]. intros Hall.
      destruct (Hall k) as [path Hpath]; [left|congruence].
Qed.

Lemma restrict_raises_KeyError table (ids : list string) acc (e : exn) :
  restrict table ids acc = Raise e -> e = KeyError.
Proof.
  revert acc. induction ids as [|k ids IH]; intros acc; simpl; [done|].
  destruct (table !! k); [apply IH|by intros [= <-]].
Qed.

Lemma restrict_lookup table (ids : list string) acc (r : gmap string string) (k : string) :
  restrict table ids acc = Ok r ->
  r !! k = if decide (k ∈ ids) then table !! k else acc !! k.
Proof.
  revert acc. induction ids as [|j ids IH]; intros acc; simpl.
  - by intros [= <-].
  - destruct (table !! j) as [path|] eqn:Hj; [|done].
    intros Hr. rewrite (IH _ Hr).
    destruct (decide (k ∈ ids)) as [Hin|Hnotin].
    + rewrite decide_True; [done|by right].
    + destruct (decide (k = j)) as [->|Hne].
      * rewrite decide_True by left. by rewrite lookup_insert_eq.
      * rewrite decide_False; [by rewrite lookup_insert_ne|].
        by intros [?|?]%elem_of_cons.
Qed.

(** Over indices of records, the loop returns exactly when every listed
    record is annotated. *)
Lemma key2refs_loop_is_ok info zh idxs m0 :
  (forall i, i ∈ idxs -> i < length info) ->
  is_ok (key2refs_loop info zh idxs m0) = true
  <-> forall i a, i ∈ idxs -> info !! i = Some a -> annotated zh a.
Proof.
  revert m0. induction idxs as [|i idxs IH]; intros m0 Hlt; simpl.
  - split; [|done]. by intros _ i a ?%elem_of_nil.
  - destruct (lookup_lt_is_Some_2 info i) as [a Ha]; [apply Hlt; left|].
    rewrite Ha.
    assert (forall j, j ∈ idxs -> j < length info) as Hlt'
      by (intros j Hj; apply Hlt; by right).
    pose proof (append_refs_is_ok zh (captions a) []) as Happ.
    destruct (append_refs zh (captions a) []) as [refs|e]; simpl in *.
    + rewrite (IH _ Hlt'). split.
      * intros Hall j b [->|Hj]%elem_of_cons Hb.
        -- assert (b = a) as -> by congruence. by apply Happ.
        -- by apply (Hall j).
      * intros Hall j b Hj. apply Hall. by right.
    + split; [done|]. intros Hall.
      apply Happ. apply (Hall i a); [left|done].
Qed.

Lemma key2refs_loop_raises_KeyError info zh idxs m0 (e : exn) :
  (forall i, i ∈ idxs -> i < length info) ->
  key2refs_loop info zh idxs m0 = Raise e -> e = KeyError.
Proof.
  revert m0. induction idxs as [|i idxs IH]; intros m0 Hlt; simpl; [done|].
  destruct (lookup_lt_is_Some_2 info i) as [a ->]; [apply Hlt; left|].
  destruct (append_refs zh (captions a) []) as [refs|e'] eqn:Happ; simpl.
  - apply IH. intros j Hj. apply Hlt. by right.
  - intros [= <-]. by eapply append_refs_raises_KeyError.
Qed.

Lemma key2refs_loop_dom info zh idxs m0 m (k : string) :
  key2refs_loop info zh idxs m0 = Ok m ->
  k ∈ dom m <-> k ∈ dom m0 ∨ listed info idxs k.
Proof.
  revert m0. induction idxs as [|i idxs IH]; intros m0; simpl.
  - intros [= <-]. split; [by left|]. by intros [?|?%listed_nil].
  - destruct (info !! i) as [a|] eqn:Ha; [|done].
    destruct (append_refs zh (captions a) []) as [refs|]; simpl; [|done].
    intros Hm. rewrite (IH _ Hm), dom_insert, (listed_cons info i idxs k a Ha).
    rewrite elem_of_union, elem_of_singleton. naive_solver.
Qed.

(** An entry survives the loop when no listed record carries its key. *)
Lemma key2refs_loop_keep info zh idxs m0 m (k : string) :
  key2refs_loop info zh idxs m0 = Ok m ->
  ¬ listed info idxs k ->
  m !! k = m0 !! k.
Proof.
  revert m0. induction idxs as [|i idxs IH]; intros m0; simpl.
  - by intros [= <-].
  - destruct (info !! i) as [a|] eqn:Ha; [|done].
    destruct (append_refs zh (captions a) []) as [refs|]; simpl; [|done].
    intros Hm Hno. rewrite (IH _ Hm).
    + rewrite lookup_insert_ne; [done|].
      intros Heq. apply Hno. exists i, a. split; [left|done].
    + intros (j & b & Hj & Hb & Hk). apply Hno.
      exists j, b. split; [by right|done].
Qed.

(** The record listed last under an audio id decides its references. *)
Lemma key2refs_loop_last info zh (pre post : list nat) (i : nat) (a : audio) m0 m :
  key2refs_loop info zh (pre ++ i :: post) m0 = Ok m ->
  info !! i = Some a ->
  ¬ listed info post (audio_id a) ->
  exists refs, references zh a refs ∧ m !! audio_id a = Some refs.
Proof.
  revert m0. induction pre as [|j pre IH]; intros m0; simpl.
  - intros Hm Ha Hpost. rewrite Ha in Hm.
    destruct (append_refs zh (captions a) []) as [refs|] eqn:Happ;
      simpl in Hm; [|done].
    exists refs. split.
    + apply append_refs_Ok in Happ as (new & Hnew & ->). exact Hnew.
    + by rewrite (key2refs_loop_keep _ _ _ _ _ _ Hm Hpost), lookup_insert_eq.
  - destruct (info !! j) as [b|]; [|done].
    destruct (append_refs zh (captions b) []) as [refs|]; simpl; [|done].
    apply IH.
Qed.

Context `{RandomState}.

(** What the later loops need from a split that returned. *)
Lemma Runner_split_indices info tp g s g' :
  Runner._get_dataloaders info tp g = (Ok s, g') ->
  NoDup (val_audio_idxs s) ∧ NoDup (train_audio_idxs s)
  ∧ (forall i, i ∈ val_audio_idxs s -> i < length info)
  ∧ (forall i, i ∈ train_audio_idxs s <-> i < length info ∧ i ∉ val_audio_idxs s).
Proof.
  intros Hrun.
  destruct (Runner_split_inv _ _ _ _ _ Hrun) as (size & _ & Hc & Htrain).
  destruct (choice_Ok _ _ _ _ _ Hc) as (_ & Hnd & _ & Hlt).
  split; [done|]. split; [rewrite Htrain; apply NoDup_filter, NoDup_seq|].
  split; [done|].
  intros i. rewrite Htrain, list_elem_of_filter, elem_of_seq. naive_solver lia.
Qed.

(** After a split that returned, the two reference loops both return
    exactly when every record is annotated. *)
Lemma key2refs_loops_is_ok info zh tp g s g' m1 m2 :
  Runner._get_dataloaders info tp g = (Ok s, g') ->
  is_ok (key2refs_loop info zh (train_audio_idxs s) m1) = true
  ∧ is_ok (key2refs_loop info zh (val_audio_idxs s) m2) = true
  <-> forall a, a ∈ info -> annotated zh a.
Proof.
  intros Hrun.
  destruct (Runner_split_indices _ _ _ _ _ Hrun) as (_ & _ & Hval & Htrain).
  rewrite !key2refs_loop_is_ok;
    [|done|intros i Hi; by apply Htrain in Hi as [? _]].
  split.
  - intros [Ht Hv] a (i & Ha)%list_elem_of_lookup.
    pose proof (lookup_lt_Some _ _ _ Ha) as Hlt.
    destruct (decide (i ∈ val_audio_idxs s)) as [Hi|Hi].
    + by apply (Hv i a).
    + apply (Ht i a); [by apply Htrain|done].
  - intros Hall. split; intros i a _ Ha; apply Hall;
      by apply list_elem_of_lookup_2 in Ha.
Qed.

(** X2.  After a split that returned, the rest of the random-split branch
    returns exactly when the two loaders can be built, every validation
    record's audio id has an entry in each of the three feature tables,
    and every caption of every record carries the field the references are
    read from.  With the loaders built, the only exception it raises is
    [KeyError].  The training records' ids are not looked up in the
    feature tables at this point.  When it returns, the validation data
    set's three tables are the given tables cut down to the validation
    ids. *)
Theorem validation_feature_tables
    (l : loaders) info tp g s g' (raw fc attn : gmap string string) zh :
  Runner._get_dataloaders info tp g = (Ok s, g') ->
  ((exists d, build l info raw fc attn zh s = Ok d)
   <-> (train_dataloader l = Ok tt ∧ val_dataloader l = Ok tt)
       ∧ (forall k, listed info (val_audio_idxs s) k ->
                    is_Some (raw !! k) ∧ is_Some (fc !! k) ∧ is_Some (attn !! k))
       ∧ (forall a, a ∈ info -> annotated zh a))
  ∧ (train_dataloader l = Ok tt -> val_dataloader l = Ok tt ->
     forall e, build l info raw fc attn zh s = Raise e -> e = KeyError)
  ∧ (forall d, build l info raw fc attn zh s = Ok d ->
       (forall k, k ∈ val_audio_ids d <-> listed info (val_audio_idxs s) k)
       ∧ forall k,
           val_raw_audio_to_h5 d !! k
             = (if decide (k ∈ val_audio_ids d) then raw !! k else None)
           ∧ val_fc_audio_to_h5 d !! k
             = (if decide (k ∈ val_audio_ids d) then fc !! k else None)
           ∧ val_attn_audio_to_h5 d !! k
             = (if decide (k ∈ val_audio_ids d) then attn !! k else None)).
Proof.
  intros Hrun.
  destruct (Runner_split_indices _ _ _ _ _ Hrun) as (_ & _ & Hval & Htrain).
  destruct (audio_ids_spec info (val_audio_idxs s) Hval) as (ids & Hids & Hin).
  pose proof (key2refs_loops_is_ok info zh tp g s g' ∅ ∅ Hrun) as Hloops.
  pose proof (key2refs_loop_raises_KeyError info zh (train_audio_idxs s) ∅) as Hte.
  pose proof (key2refs_loop_raises_KeyError info zh (val_audio_idxs s) ∅) as Hve.
  pose proof (restrict_is_ok raw ids ∅) as Hraw.
  pose proof (restrict_is_ok fc ids ∅) as Hfc.
  pose proof (restrict_is_ok attn ids ∅) as Hattn.
  unfold build.
  destruct (train_dataloader l) as [[]|e0]; simpl.
  2:{ split; [|split; [|done]].
      - split; [by intros [d [=]]|]. by intros [[[=] _] _].
      - by intros [=]. }
  rewrite Hids. simpl.
  destruct (restrict raw ids ∅) as [r|e1] eqn:Er; simpl in *.
  2:{ split; [|split; [|done]].
      - split; [by intros [d [=]]|]. intros (_ & Hall & _).
        assert (false = true) as [=]. apply Hraw. intros k Hk. by apply Hall, Hin.
      - intros _ _ e [= <-]. by apply restrict_raises_KeyError in Er. }
  destruct (restrict fc ids ∅) as [f|e2] eqn:Ef; simpl in *.
  2:{ split; [|split; [|done]].
      - split; [by intros [d [=]]|]. intros (_ & Hall & _).
        assert (false = true) as [=]. apply Hfc. intros k Hk. by apply Hall, Hin.
      - intros _ _ e [= <-]. by apply restrict_raises_KeyError in Ef. }
  destruct (restrict attn ids ∅) as [t|e3] eqn:Et; simpl in *.
  2:{ split; [|split; [|done]].
      - split; [by intros [d [=]]|]. intros (_ & Hall & _).
        assert (false = true) as [=]. apply Hattn. intros k Hk. by apply Hall, Hin.
      - intros _ _ e [= <-]. by apply restrict_raises_KeyError in Et. }
  destruct (val_dataloader l) as [[]|e0]; simpl.
  2:{ split; [|split; [|done]].
      - split; [by intros [d [=]]|]. by intros [[_ [=]] _].
      - by intros _ [=]. }
  destruct (key2refs_loop info zh (train_audio_idxs s) ∅) as [mt|e4]; simpl in *.
  2:{ split; [|split; [|done]].
      - split; [by intros [d [=]]|]. intros (_ & _ & Hall).
        by apply Hloops in Hall as [[=] _].
      - intros _ _ e [= <-]. apply Hte; [|done].
        intros i Hi. by apply Htrain in Hi as [? _]. }
  destruct (key2refs_loop info zh (val_audio_idxs s) ∅) as [mv|e5]; simpl in *.
  2:{ split; [|split; [|done]].
      - split; [by intros [d [=]]|]. intros (_ & _ & Hall).
        by apply Hloops in Hall as [_ [=]].
      - intros _ _ e [= <-]. by apply Hve. }
  split; [|split; [done|]].
  - split; [|intros _; by eexists]. intros _. split; [done|]. split.
    + intros k Hk%Hin.
      split; [|split]; [by apply Hraw|by apply Hfc|by apply Hattn].
    + by apply Hloops.
  - intros d [= <-]. simpl. split; [done|]. intros k.
    rewrite (restrict_lookup _ _ _ _ k Er), (restrict_lookup _ _ _ _ k Ef),
      (restrict_lookup _ _ _ _ k Et).
    by destruct (decide (k ∈ ids)).
Qed.

(** X3.  When the random-split branch returns, the keys of the training
    references are the audio ids of the training records and the keys of
    the validation references those of the validation records, so every
    record's id has references on one side at least.  If the audio ids are
    pairwise distinct, no id has references on both sides and each id maps
    to the references of its own record, in the record's caption order. *)
Theorem key2refs_of_split
    (l : loaders) info tp g s g' (raw fc attn : gmap string string) zh (d : data) :
  Runner._get_dataloaders info tp g = (Ok s, g') ->
  build l info raw fc attn zh s = Ok d ->
  (forall k, k ∈ dom (train_key2refs d) <-> listed info (train_audio_idxs s) k)
  ∧ (forall k, k ∈ dom (val_key2refs d) <-> listed info (val_audio_idxs s) k)
  ∧ (forall a, a ∈ info ->
       audio_id a ∈ dom (train_key2refs d) ∪ dom (val_key2refs d))
  ∧ (NoDup (audio_id <$> info) ->
       dom (train_key2refs d) ## dom (val_key2refs d)
       ∧ forall i a, info !! i = Some a ->
           exists refs,
             references zh a refs
             ∧ (if decide (i ∈ val_audio_idxs s)
                then val_key2refs d else train_key2refs d) !! audio_id a
               = Some refs).
Proof.
  intros Hrun Hbuild.
  destruct (Runner_split_indices _ _ _ _ _ Hrun) as (Hndv & Hndt & Hval & Htrain).
  unfold build in Hbuild.
  destruct (train_dataloader l) as [[]|]; simpl in Hbuild; [|done].
  destruct (audio_ids info (val_audio_idxs s)) as [ids|]; simpl in Hbuild; [|done].
  destruct (restrict raw ids ∅) as [r|]; simpl in Hbuild; [|done].
  destruct (restrict fc ids ∅) as [f|]; simpl in Hbuild; [|done].
  destruct (restrict attn ids ∅) as [t|]; simpl in Hbuild; [|done].
  destruct (val_dataloader l) as [[]|]; simpl in Hbuild; [|done].
  destruct (key2refs_loop info zh (train_audio_idxs s) ∅) as [mt|] eqn:Hmt;
    simpl in Hbuild; [|done].
  destruct (key2refs_loop info zh (val_audio_idxs s) ∅) as [mv|] eqn:Hmv;
    simpl in Hbuild; [|done].
  injection Hbuild as <-. simpl.
  assert (forall k, k ∈ dom mt <-> listed info (train_audio_idxs s) k) as Hdt.
  { intros k. rewrite (key2refs_loop_dom _ _ _ _ _ k Hmt), dom_empty.
    rewrite elem_of_empty. naive_solver. }
  assert (forall k, k ∈ dom mv <-> listed info (val_audio_idxs s) k) as Hdv.
  { intros k. rewrite (key2refs_loop_dom _ _ _ _ _ k Hmv), dom_empty.
    rewrite elem_of_empty. naive_solver. }
  split; [done|]. split; [done|]. split.
  - intros a (i & Hi)%list_elem_of_lookup. apply elem_of_union.
    pose proof (lookup_lt_Some _ _ _ Hi) as Hlt.
    destruct (decide (i ∈ val_audio_idxs s)) as [Hv|Hv].
    + right. apply Hdv. by exists i, a.
    + left. apply Hdt. exists i, a. split; [by apply Htrain|done].
  - intros Hids.
    assert (forall i j a b, info !! i = Some a -> info !! j = Some b ->
                            audio_id a = audio_id b -> i = j) as Hinj.
    { intros i j a b Ha Hb Heq.
      apply (NoDup_lookup (audio_id <$> info) i j (audio_id a) Hids).
      - by rewrite list_lookup_fmap, Ha.
      - by rewrite list_lookup_fmap, Hb, Heq. }
    split.
    + intros k (i & a & Hi & Ha & Hk)%Hdt (j & b & Hj & Hb & Hk')%Hdv.
      assert (i = j) as -> by (apply (Hinj i j a b); congruence).
      apply Htrain in Hi as [_ Hi]. done.
    + intros i a Ha.
      pose proof (lookup_lt_Some _ _ _ Ha) as Hlt.
      destruct (decide (i ∈ val_audio_idxs s)) as [Hv|Hv].
      * destruct (list_elem_of_split _ _ Hv) as (pre & post & Hsplit).
        rewrite Hsplit in Hmv, Hndv.
        apply (key2refs_loop_last _ _ _ _ _ _ _ _ Hmv Ha).
        intros (j & b & Hj & Hb & Hk).
        assert (j = i) as -> by (by apply (Hinj j i b a)).
        apply NoDup_app in Hndv as (_ & _ & [Hnot _]%NoDup_cons). done.
      * assert (i ∈ train_audio_idxs s) as Ht by (by apply Htrain).
        destruct (list_elem_of_split _ _ Ht) as (pre & post & Hsplit).
        rewrite Hsplit in Hmt, Hndt.
        apply (key2refs_loop_last _ _ _ _ _ _ _ _ Hmt Ha).
        intros (j & b & Hj & Hb & Hk).
        assert (j = i) as -> by (by apply (Hinj j i b a)).
        apply NoDup_app in Hndt as (_ & _ & [Hnot _]%NoDup_cons). done.
Qed.

End RunnerDataFacts.

Section RunnerDataRuns.
Import Num Numpy Runner Decode RunnerData.

(** X4.  The reference loop over all records, as the pre-split branch runs
    it for each of its two caption files, returns exactly when every
    caption of every record carries the field the references are read
    from, and otherwise raises [KeyError].  When it returns, its keys are
    the audio ids of the file, and an id carried by several records keeps
    only the references of the last of them: the earlier records'
    references are replaced, not merged. *)
Theorem key2refs_over_all_records (info : list audio) (zh : option bool) :
  let run := key2refs_loop info zh (seq 0 (length info)) ∅ in
  ((exists m, run = Ok m) <-> forall a, a ∈ info -> annotated zh a)
  ∧ (forall e, run = Raise e -> e = KeyError)
  ∧ (forall m, run = Ok m ->
       (forall k, k ∈ dom m <-> exists a, a ∈ info ∧ audio_id a = k)
       ∧ (forall i a,
            info !! i = Some a ->
            (forall j b, i < j -> info !! j = Some b -> audio_id b ≠ audio_id a) ->
            exists refs, references zh a refs ∧ m !! audio_id a = Some refs)).
Proof.
  intros run.
  assert (forall i, i ∈ seq 0 (length info) -> i < length info) as Hlt
    by (intros i Hi%elem_of_seq; lia).
  split; [|split].
  - pose proof (key2refs_loop_is_ok info zh _ ∅ Hlt) as Hok. fold run in Hok.
    transitivity (is_ok run = true).
    { destruct run; simpl; split; [done|by eexists|by intros [? [=]]|done]. }
    rewrite Hok. split.
    + intros Hall a (i & Ha)%list_elem_of_lookup.
      apply (Hall i a); [|done].
      apply elem_of_seq. apply lookup_lt_Some in Ha. lia.
    + intros Hall i a _ Ha. apply Hall. by apply list_elem_of_lookup_2 in Ha.
  - intros e. by apply key2refs_loop_raises_KeyError.
  - intros m Hm. split.
    + intros k.
      rewrite (key2refs_loop_dom _ _ _ _ _ k Hm), dom_empty, elem_of_empty.
      split.
      * intros [[]|(i & a & _ & Ha & Hk)]. exists a. split; [|done].
        by apply list_elem_of_lookup_2 in Ha.
      * intros (a & (i & Ha)%list_elem_of_lookup & Hk). right.
        exists i, a. split; [|done].
        apply elem_of_seq. apply lookup_lt_Some in Ha. lia.
    + intros i a Ha Hlast.
      pose proof (lookup_lt_Some _ _ _ Ha) as Hlti.
      assert (seq 0 (length info) = seq 0 i ++ i :: seq (S i) (length info - S i))
        as Hsplit.
      { replace (length info) with (i + S (length info - S i)) at 1 by lia.
        by rewrite seq_app. }
      unfold run in Hm. rewrite Hsplit in Hm.
      apply (key2refs_loop_last _ _ _ _ _ _ _ _ Hm Ha).
      intros (j & b & Hj%elem_of_seq & Hb & Hk).
      apply (Hlast j b); [lia|done..].
Qed.

Definition demo_entry (text : string) : caption_entry :=
  {| cap_id := text; Runner.caption := Some text; token := Some [text] |}.

(** Three records with two captions each. *)
Definition captioned_audios : list audio :=
  [ {| audio_id := "a"; captions := [demo_entry "rain"; demo_entry "rain falls"] |};
    {| audio_id := "b"; captions := [demo_entry "a dog"; demo_entry "dog barks"] |};
    {| audio_id := "c"; captions := [demo_entry "wind"; demo_entry "it blows"] |} ].

Definition demo_table : gmap string string :=
  list_to_map [("a", "a.h5"); ("b", "b.h5"); ("c", "c.h5")]%string.

Definition captioned_split : split :=
  {| val_audio_idxs := [1]; train_audio_idxs := [0; 2] |}.

Lemma captioned_split_run :
  @_get_dataloaders rotating_state captioned_audios (Int 50) 1
  = (Ok captioned_split, 2).
Proof. vm_compute. reflexivity. Qed.

(** Both loaders can be built. *)
Definition built : loaders :=
  {| train_dataloader := Ok tt; val_dataloader := Ok tt |}.

Lemma validation_feature_tables_witness :
  (exists d, build built captioned_audios demo_table demo_table demo_table
                   (Some false) captioned_split = Ok d)
  ∧ forall e, build built captioned_audios (delete "b"%string demo_table)
                    demo_table demo_table (Some false) captioned_split = Raise e ->
              e = KeyError.
Proof.
  split.
  - apply (proj1 (@validation_feature_tables rotating_state built captioned_audios
                    (Int 50) 1 captioned_split 2 demo_table demo_table
                    demo_table (Some false) captioned_split_run)).
    split; [done|]. split.
    + intros k (i & a & Hi & Ha & Hk).
      apply list_elem_of_singleton in Hi as ->.
      injection Ha as <-. simpl in Hk. subst k. repeat split; by eexists.
    + apply Forall_forall. repeat constructor.
  - apply (@validation_feature_tables rotating_state built captioned_audios
             (Int 50) 1 captioned_split 2 (delete "b"%string demo_table)
             demo_table demo_table (Some false) captioned_split_run); done.
Defined.

Lemma key2refs_of_split_witness :
  exists d,
    build built captioned_audios demo_table demo_table demo_table (Some false)
          captioned_split = Ok d
    ∧ dom (train_key2refs d) ## dom (val_key2refs d)
    ∧ (exists refs,
         Forall2 (fun c r => reference (Some false) c = Ok r)
                 [demo_entry "a dog"; demo_entry "dog barks"] refs
         ∧ val_key2refs d !! "b"%string = Some refs)
    ∧ (exists refs,
         Forall2 (fun c r => reference (Some false) c = Ok r)
                 [demo_entry "wind"; demo_entry "it blows"] refs
         ∧ train_key2refs d !! "c"%string = Some refs).
Proof.
  eexists. split; [reflexivity|].
  destruct (@key2refs_of_split rotating_state built captioned_audios (Int 50) 1
              captioned_split 2 demo_table demo_table demo_table (Some false) _
              captioned_split_run eq_refl) as (_ & _ & _ & Hdistinct).
  destruct Hdistinct as [Hdisj Hrefs].
  { compute_done. }
  split; [exact Hdisj|]. split.
  - exact (Hrefs 1 _ eq_refl).
  - exact (Hrefs 2 _ eq_refl).
Defined.

End RunnerDataRuns.

(** ** The references of the two sides of [BaseRunner]'s split *)

Section BaseRunnerDataFacts.
Import Numpy BaseRunner Decode BaseRunnerData.

Implicit Types (df : DataFrame) (k : string).

(** The rows of a frame under one key. *)
Definition group df k : DataFrame := filter (fun r => key r.2 = k) df.

Lemma groupby_to_dict_lookup zh df k :
  groupby_to_dict zh df !! k
  = if decide (group df k = []) then None
    else Some ((fun r => column zh r.2) <$> group df k).
Proof.
  unfold groupby_to_dict, group.
  induction df as [|r df IH] using rev_ind; [done|].
  rewrite foldl_snoc, filter_app.
  destruct (decide (key r.2 = k)) as [<-|Hne].
  - rewrite lookup_insert_eq, IH.
    rewrite (filter_cons_True _ r []) by done. rewrite filter_nil.
    destruct (filter (fun r' => key r'.2 = key r.2) df) as [|x l]; [done|].
    rewrite decide_False by done. simpl. by rewrite fmap_app.
  - rewrite lookup_insert_ne by done.
    rewrite (filter_cons_False _ r []) by done. rewrite filter_nil, app_nil_r.
    apply IH.
Qed.

Lemma group_nil_iff df k :
  group df k = [] <-> ¬ exists r, r ∈ df ∧ key r.2 = k.
Proof.
  unfold group. split.
  - intros Hnil (r & Hr & Hk).
    assert (r ∈ filter (fun r => key r.2 = k) df) as Hin
      by (by apply list_elem_of_filter).
    rewrite Hnil in Hin. by apply elem_of_nil in Hin.
  - intros Hno. apply elem_of_nil_inv. intros r [Hk Hr]%list_elem_of_filter.
    apply Hno. eauto.
Qed.

Lemma groupby_to_dict_dom zh df k :
  k ∈ dom (groupby_to_dict zh df) <-> exists r, r ∈ df ∧ key r.2 = k.
Proof.
  rewrite elem_of_dom, groupby_to_dict_lookup.
  destruct (decide (group df k = [])) as [Hnil|Hsome].
  - split; [by intros [? [=]]|]. intros Hex. by apply group_nil_iff in Hnil.
  - split; [|by eexists]. intros _.
    destruct (group df k) as [|r l] eqn:Hg; [done|].
    assert (r ∈ group df k) as [Hk Hr]%list_elem_of_filter by (rewrite Hg; left).
    eauto.
Qed.

Context `{RandomState}.

(** The validation rows are the rows whose key was not drawn. *)
Lemma BaseRunner_val_df_by_key rows tp g s g' :
  BaseRunner._get_dataloaders rows tp g = (Ok s, g') ->
  train_df s = filter (fun r => key r.2 ∈ train_keys s) (read_json rows)
  ∧ val_df s = filter (fun r => ¬ key r.2 ∈ train_keys s) (read_json rows)
  ∧ forall k, k ∈ train_keys s -> exists r, r ∈ read_json rows ∧ key r.2 = k.
Proof.
  intros Hrun.
  destruct (BaseRunner_split_inv _ _ _ _ _ Hrun) as (size & _ & Hc & Htrain & Hval).
  destruct (choice_array_Ok _ _ _ _ _ (unique_NoDup _) Hc) as (_ & _ & _ & Hsub).
  split; [done|]. split.
  - rewrite Hval. apply list_filter_iff_in. intros r Hr.
    assert (NoDup ((read_json rows).*1)) as Hlabels
      by (rewrite read_json_labels; apply NoDup_seq).
    split; intros Hnot Hbad; apply Hnot.
    + apply list_elem_of_fmap_2. rewrite Htrain. by apply list_elem_of_filter.
    + apply list_elem_of_fmap in Hbad as (r' & Heq & Hr').
      rewrite Htrain in Hr'. apply list_elem_of_filter in Hr' as [Hk Hr'].
      by rewrite (NoDup_fst_inj _ r r' Hlabels Hr Hr' Heq).
  - intros k Hk. apply Hsub, elem_of_unique, list_elem_of_fmap in Hk
      as (r & -> & Hr). eauto.
Qed.

(** X5.  After [BaseRunner]'s split, the training references have exactly
    the drawn keys as keys, the validation references exactly the remaining
    keys of the caption file, so no key has references on both sides, also
    when a key has several caption rows; and each key maps to the captions
    of all of its rows, in file order. *)
Theorem groupby_key2refs_of_split rows tp g s g' (zh : bool) :
  BaseRunner._get_dataloaders rows tp g = (Ok s, g') ->
  let df := read_json rows in
  let r := key2refs zh s in
  (forall k, k ∈ dom (train_key2refs r) <-> k ∈ train_keys s)
  ∧ (forall k, k ∈ dom (val_key2refs r)
               <-> (exists x, x ∈ df ∧ key x.2 = k) ∧ k ∉ train_keys s)
  ∧ dom (train_key2refs r) ## dom (val_key2refs r)
  ∧ (forall k l,
       train_key2refs r !! k = Some l ∨ val_key2refs r !! k = Some l ->
       l = (fun x => column zh x.2) <$> group df k).
Proof.
  intros Hrun df r.
  destruct (BaseRunner_val_df_by_key _ _ _ _ _ Hrun) as (Htrain & Hval & Hkeys).
  fold df in Htrain, Hval, Hkeys.
  assert (forall k, k ∈ dom (train_key2refs r) <-> k ∈ train_keys s) as Hdt.
  { intros k. unfold r, key2refs. simpl. rewrite groupby_to_dict_dom, Htrain. split.
    - intros (x & [Hx _]%list_elem_of_filter & <-). done.
    - intros Hk. destruct (Hkeys k Hk) as (x & Hx & <-).
      exists x. split; [by apply list_elem_of_filter|done]. }
  assert (forall k, k ∈ dom (val_key2refs r)
                    <-> (exists x, x ∈ df ∧ key x.2 = k) ∧ k ∉ train_keys s) as Hdv.
  { intros k. unfold r, key2refs. simpl. rewrite groupby_to_dict_dom, Hval. split.
    - intros (x & [Hx Hin]%list_elem_of_filter & <-). eauto.
    - intros [(x & Hx & <-) Hnot]. exists x.
      split; [by apply list_elem_of_filter|done]. }
  split; [done|]. split; [done|]. split.
  - intros k Hk1%Hdt [_ Hk2]%Hdv. done.
  - intros k l. unfold r, key2refs. simpl.
    rewrite !groupby_to_dict_lookup, Htrain, Hval. unfold group.
    rewrite !list_filter_filter.
    intros [Hl|Hl].
    + destruct (decide _) as [|Hne] in Hl; [done|]. injection Hl as <-.
      f_equal. apply list_filter_iff_in. intros x Hx. split; [by intros [? _]|].
      intros Hk. split; [done|].
      destruct (decide (key x.2 ∈ train_keys s)) as [|Hnot]; [done|].
      exfalso. apply Hne. apply elem_of_nil_inv.
      intros y [[Hy1 Hy2] Hy]%list_elem_of_filter. congruence.
    + destruct (decide _) as [|Hne] in Hl; [done|]. injection Hl as <-.
      f_equal. apply list_filter_iff_in. intros x Hx. split; [by intros [? _]|].
      intros Hk. split; [done|]. intros Hin.
      apply Hne. apply elem_of_nil_inv.
      intros y [[Hy1 Hy2] Hy]%list_elem_of_filter. congruence.
Qed.

End BaseRunnerDataFacts.

Section BaseRunnerDataRuns.
Import Num Numpy BaseRunner Decode BaseRunnerData.

Definition caption_row (k text : string) : row :=
  {| key := k; BaseRunner.caption := text; tokens := [text] |}.

(** Four caption rows over three keys: key ["a"] has two captions. *)
Definition four_rows : list row :=
  [caption_row "a" "rain"; caption_row "b" "a dog"; caption_row "a" "rain falls";
   caption_row "c" "wind"].

Definition four_rows_split : split :=
  {| train_keys := ["b"];
     train_df := [(1, caption_row "b" "a dog")];
     val_df := [(0, caption_row "a" "rain"); (2, caption_row "a" "rain falls");
                (3, caption_row "c" "wind")] |}.

Lemma four_rows_split_run :
  @BaseRunner._get_dataloaders rotating_state four_rows (Int 50) 1
  = (Ok four_rows_split, 2).
Proof. vm_compute. reflexivity. Qed.

Lemma groupby_key2refs_of_split_witness :
  let r := key2refs false four_rows_split in
  dom (train_key2refs r) ## dom (val_key2refs r)
  ∧ (forall l, val_key2refs r !! "a"%string = Some l ->
               l = [Str "rain"; Str "rain falls"]).
Proof.
  destruct (@groupby_key2refs_of_split rotating_state four_rows (Int 50) 1
              four_rows_split 2 false four_rows_split_run)
    as (_ & _ & Hdisj & Hrefs).
  split; [exact Hdisj|].
  intros l Hl. exact (Hrefs "a"%string l (or_intror Hl)).
Defined.

End BaseRunnerDataRuns.

(** ** Collecting predictions *)

Section PredictFacts.
Import Vocab Decode Sample Predict.

(** The (key, sequence) pairs the loops visit, batch after batch. *)
Definition pairs (batches : list batch) : list (string * list Z) :=
  concat ((fun b => match forward_seqs b with
                    | Ok seqs => zip (keys b) seqs
                    | Raise _ => []
                    end) <$> batches).

(** [seq] under key [k] decodes to the caption [c] now stored under [k]. *)
Definition decodes (vocabulary : Vocabulary) (zh : bool)
    (p : string * list Z) (q : string * caption) : Prop :=
  p.1 = q.1 ∧ _convert_idx2sentence p.2 vocabulary zh = Ok q.2.

(** [key2pred[k] = [c]] for each pair in turn. *)
Definition assign (d : odict (list caption)) (kc : list (string * caption))
  : odict (list caption) :=
  foldl (fun d q => setitem d q.1 [q.2]) d kc.

Lemma setitem_keys {V} (d : odict V) (k : string) (v : V) :
  (setitem d k v).*1 = if decide (k ∈ d.*1) then d.*1 else d.*1 ++ [k].
Proof.
  induction d as [|[k' v'] d IH]; [done|]. cbn [setitem].
  destruct (String.eqb_spec k' k) as [->|Hne]; rewrite ?fmap_cons; cbn [fst].
  - rewrite decide_True; [done|left].
  - rewrite IH. destruct (decide (k ∈ d.*1)) as [Hin|Hnot].
    + rewrite decide_True; [done|by right].
    + rewrite decide_False; [done|].
      intros [->|?]%elem_of_cons; done.
Qed.


Lemma getitem_setitem {V} (d : odict V) (k k' : string) (v : V) :
  getitem (setitem d k v) k' = if decide (k = k') then Some v else getitem d k'.
Proof.
  induction d as [|[k0 v0] d IH]; simpl.
  - destruct (String.eqb_spec k k') as [->|Hne].
    + by rewrite decide_True.
    + by rewrite decide_False.
  - destruct (String.eqb_spec k0 k) as [->|Hne]; simpl.
    + destruct (String.eqb_spec k k') as [->|Hne'].
      * by rewrite decide_True.
      * by rewrite decide_False.
    + destruct (String.eqb_spec k0 k') as [->|Hne'].
      * by rewrite decide_False.
      * apply IH.
Qed.

Lemma elem_of_setitem {V} (d : odict V) (k : string) (v : V) (x : string * V) :
  x ∈ setitem d k v -> x = (k, v) ∨ x ∈ d.
Proof.
  induction d as [|[k0 v0] d IH]; simpl.
  - intros ->%list_elem_of_singleton. by left.
  - destruct (String.eqb_spec k0 k) as [->|Hne].
    + intros [->|Hx]%elem_of_cons; [by left|right; by right].
    + intros [->|Hx]%elem_of_cons; [right; left|].
      destruct (IH Hx) as [->|?]; [by left|right; by right].
Qed.

Lemma unique_from_ext (s1 s2 l : list string) :
  (forall x, x ∈ s1 <-> x ∈ s2) ->
  BaseRunner.unique_from s1 l = BaseRunner.unique_from s2 l.
Proof.
  revert s1 s2. induction l as [|k l IH]; intros s1 s2 Hext; simpl; [done|].
  destruct (decide (k ∈ s1)) as [H1|H1].
  - rewrite decide_True by (by apply Hext). by apply IH.
  - rewrite decide_False by (by rewrite <- Hext). f_equal. apply IH.
    intros x. rewrite !elem_of_cons, Hext. done.
Qed.

Lemma assign_keys (d : odict (list caption)) (kc : list (string * caption)) :
  (assign d kc).*1 = d.*1 ++ BaseRunner.unique_from d.*1 kc.*1.
Proof.
  unfold assign. revert d. induction kc as [|[k c] kc IH]; intros d; simpl.
  - by rewrite app_nil_r.
  - rewrite IH, setitem_keys.
    destruct (decide (k ∈ d.*1)) as [Hin|Hnot]; [done|].
    rewrite <- app_assoc. simpl. do 2 f_equal.
    apply unique_from_ext. intros x.
    rewrite elem_of_app, !elem_of_cons, elem_of_nil. naive_solver.
Qed.

Lemma assign_getitem_other (d : odict (list caption))
    (kc : list (string * caption)) (k : string) :
  k ∉ kc.*1 -> getitem (assign d kc) k = getitem d k.
Proof.
  unfold assign. revert d. induction kc as [|[k' c] kc IH]; intros d Hk; [done|].
  simpl in *. rewrite IH by (intros ?; apply Hk; by right).
  rewrite getitem_setitem, decide_False; [done|].
  intros ->. apply Hk. left.
Qed.

Lemma assign_getitem_last (d : odict (list caption))
    (pre post : list (string * caption)) (k : string) (c : caption) :
  k ∉ post.*1 -> getitem (assign d (pre ++ (k, c) :: post)) k = Some [c].
Proof.
  intros Hk. unfold assign. rewrite foldl_app. simpl.
  fold (assign (setitem (foldl (fun d q => setitem d q.1 [q.2]) d pre) k [c]) post).
  rewrite assign_getitem_other by done.
  by rewrite getitem_setitem, decide_True.
Qed.

Lemma elem_of_assign (d : odict (list caption)) (kc : list (string * caption))
    (x : string * list caption) :
  x ∈ assign d kc -> x ∈ d ∨ exists c, (x.1, c) ∈ kc ∧ x.2 = [c].
Proof.
  unfold assign. revert d. induction kc as [|[k c] kc IH]; intros d; simpl.
  - by left.
  - intros [[->|Hx]%elem_of_setitem|(c' & Hc' & Hx)]%IH.
    + right. exists c. split; [left|done].
    + by left.
    + right. exists c'. split; [by right|done].
Qed.

Lemma evaluate_loop_Ok vocabulary zh (ks : list string) (idx : nat)
    (seqs : list (list Z)) (d d' : odict (list caption)) :
  evaluate_loop vocabulary zh ks idx seqs d = (Ok tt, d') ->
  exists kc,
    d' = assign d kc
    ∧ Forall2 (decodes vocabulary zh) (zip (drop idx ks) seqs) kc.
Proof.
  revert idx d. induction seqs as [|seq seqs IH]; intros idx d; simpl.
  - intros [= <-]. exists []. split; [done|].
    rewrite zip_with_nil_r. constructor.
  - destruct (_convert_idx2sentence seq vocabulary zh) as [c|] eqn:Hc; [|done].
    destruct (ks !! idx) as [k|] eqn:Hk; [|done].
    intros (kc & -> & Hkc)%IH.
    exists ((k, c) :: kc). split; [done|].
    rewrite (drop_S _ _ _ Hk). simpl. by constructor.
Qed.

Lemma evaluate_run_Ok vocabulary zh (batches : list batch)
    (d d' : odict (list caption)) :
  evaluate_run vocabulary zh batches d = (Ok tt, d') ->
  exists kc,
    d' = assign d kc ∧ Forall2 (decodes vocabulary zh) (pairs batches) kc.
Proof.
  revert d. induction batches as [|b batches IH]; intros d; simpl.
  - intros [= <-]. exists []. split; [done|constructor].
  - unfold evaluate_sample, pairs. simpl.
    destruct (forward_seqs b) as [seqs|]; [|done].
    destruct (evaluate_loop vocabulary zh (keys b) 0 seqs d) as [[[]|] d1] eqn:Hloop;
      [|done].
    apply evaluate_loop_Ok in Hloop as (kc1 & -> & Hkc1).
    intros (kc2 & -> & Hkc2)%IH.
    exists (kc1 ++ kc2). split.
    + unfold assign. by rewrite foldl_app.
    + apply Forall2_app; done.
Qed.

Lemma decodes_keys vocabulary zh (ps : list (string * list Z))
    (kc : list (string * caption)) :
  Forall2 (decodes vocabulary zh) ps kc -> ps.*1 = kc.*1.
Proof.
  induction 1 as [|p q ps kc [Hk _] _ IH]; [done|].
  rewrite !fmap_cons. by f_equal.
Qed.

(** X6.  When [evaluate]'s prediction pass returns, [key2pred] holds
    exactly one entry per distinct key met, in order of first appearance;
    every entry is a one-element list with the decoding of a sequence
    paired with that key, and for a key met several times it is the
    decoding of the last sequence paired with it. *)
Theorem evaluate_one_prediction_per_key
    (vocabulary : Vocabulary) (zh : bool) (batches : list batch)
    (key2pred : odict (list caption)) :
  evaluate_run vocabulary zh batches [] = (Ok tt, key2pred) ->
  key2pred.*1 = BaseRunner.unique (pairs batches).*1
  ∧ NoDup key2pred.*1
  ∧ (forall k preds, (k, preds) ∈ key2pred ->
       exists seq c, (k, seq) ∈ pairs batches
                     ∧ _convert_idx2sentence seq vocabulary zh = Ok c
                     ∧ preds = [c])
  ∧ (forall pre k seq post,
       pairs batches = pre ++ (k, seq) :: post -> k ∉ post.*1 ->
       exists c, _convert_idx2sentence seq vocabulary zh = Ok c
                 ∧ getitem key2pred k = Some [c]).
Proof.
  intros (kc & -> & Hkc)%evaluate_run_Ok.
  pose proof (decodes_keys _ _ _ _ Hkc) as Hkeys.
  assert ((assign [] kc).*1 = BaseRunner.unique (pairs batches).*1) as Hk
    by (by rewrite assign_keys, Hkeys).
  split; [done|]. split; [rewrite Hk; apply unique_NoDup|]. split.
  - intros k preds [[]%elem_of_nil|(c & Hc & Heq)]%elem_of_assign.
    simpl in *. subst preds.
    apply list_elem_of_lookup in Hc as [i Hi].
    destruct (Forall2_lookup_r _ _ _ _ _ Hkc Hi) as ([k' seq] & Hp & Hk' & Hdec).
    simpl in *. subst k'. exists seq, c.
    split; [by apply list_elem_of_lookup_2 in Hp|done].
  - intros pre k seq post Hpairs Hlast. rewrite Hpairs in Hkc.
    apply Forall2_app_inv_l in Hkc as (kc1 & kc2 & _ & Hkc2 & ->).
    apply Forall2_cons_inv_l in Hkc2 as ([k' c] & kc3 & [Hk' Hc] & Hkc3 & ->).
    simpl in *. subst k'. exists c. split; [done|].
    apply assign_getitem_last. by rewrite <- (decodes_keys _ _ _ _ Hkc3).
Qed.

Definition two_batches : list batch :=
  [ {| keys := ["clip1"; "clip2"];
       forward_seqs := Ok [[0; 2; 3; 4; 1]; [0; 2; 3; 1]]%Z |};
    {| keys := ["clip1"]; forward_seqs := Ok [[0; 3; 1; 2]]%Z |} ].

Lemma two_batches_run :
  evaluate_run demo_vocabulary false two_batches []
  = (Ok tt, [("clip1"%string, [Str "cat"]); ("clip2"%string, [Str "a cat"])]).
Proof. reflexivity. Qed.

Lemma evaluate_one_prediction_per_key_witness :
  [("clip1"%string, [Str "cat"]); ("clip2"%string, [Str "a cat"])].*1
  = BaseRunner.unique (pairs two_batches).*1
  ∧ exists c,
      _convert_idx2sentence [0; 3; 1; 2]%Z demo_vocabulary false = Ok c
      ∧ getitem [("clip1"%string, [Str "cat"]); ("clip2"%string, [Str "a cat"])]
                "clip1" = Some [c].
Proof.
  destruct (evaluate_one_prediction_per_key demo_vocabulary false two_batches _
              two_batches_run) as (Hkeys & _ & _ & Hlast).
  split; [exact Hkeys|].
  apply (Hlast [("clip1"%string, [0; 2; 3; 4; 1]%Z);
                ("clip2"%string, [0; 2; 3; 1]%Z)]
               "clip1"%string [0; 3; 1; 2]%Z [] eq_refl).
  apply not_elem_of_nil.
Defined.

(** What makes the loop of one batch return. *)
Lemma evaluate_loop_is_ok vocabulary zh (ks : list string) (idx : nat)
    (seqs : list (list Z)) (d : odict (list caption)) :
  is_ok (evaluate_loop vocabulary zh ks idx seqs d).1 = true
  <-> idx + length seqs <= length ks
      ∧ Forall (resolves_up_to_end (idx2word vocabulary)) seqs
    ∨ seqs = [].
Proof.
  revert idx d. induction seqs as [|seq seqs IH]; intros idx d; simpl.
  - split; [by right|done].
  - pose proof (convert_idx2sentence_is_ok vocabulary seq zh) as Hiff.
    destruct (_convert_idx2sentence seq vocabulary zh) as [c|e] eqn:Hc; simpl in *.
    + assert (resolves_up_to_end (idx2word vocabulary) seq) as Hres
        by (by apply Hiff).
      destruct (ks !! idx) as [k|] eqn:Hk; simpl.
      * pose proof (lookup_lt_Some _ _ _ Hk) as Hlt.
        rewrite IH. split.
        -- intros [[Hlen Hall]| ->]; left.
           ++ split; [lia|by constructor].
           ++ split; [simpl; lia|by repeat constructor].
        -- intros [[Hlen Hall]|[=]]. inversion_clear Hall.
           left. split; [lia|done].
      * apply lookup_ge_None in Hk. split; [done|].
        intros [[Hlen _]|[=]]. lia.
    + split; [done|]. intros [[_ Hall]|[=]]. inversion_clear Hall as [|? ? Hres _].
      by apply Hiff in Hres.
Qed.

(** A batch the loop can take: the model returned sequences, at most as
    many as the batch has keys, and each decodes. *)
Definition decodable (vocabulary : Vocabulary) (b : batch) : Prop :=
  exists seqs,
    forward_seqs b = Ok seqs
    ∧ length seqs <= length (keys b)
    ∧ Forall (resolves_up_to_end (idx2word vocabulary)) seqs.

Lemma evaluate_run_is_ok vocabulary zh (batches : list batch)
    (d : odict (list caption)) :
  is_ok (evaluate_run vocabulary zh batches d).1 = true
  <-> Forall (decodable vocabulary) batches.
Proof.
  revert d. induction batches as [|b batches IH]; intros d; simpl.
  - split; [constructor|done].
  - unfold evaluate_sample, decodable at 1.
    destruct (forward_seqs b) as [seqs|e] eqn:Hf.
    + pose proof (evaluate_loop_is_ok vocabulary zh (keys b) 0 seqs d) as Hloop.
      destruct (evaluate_loop vocabulary zh (keys b) 0 seqs d) as [[[]|e] d1];
        simpl in *.
      * rewrite IH, Forall_cons. split; [|by intros [_ ?]].
        intros Hrest. split; [|done]. exists seqs. split; [done|].
        destruct (proj1 Hloop eq_refl) as [[? ?]| ->]; [done|].
        split; [simpl; lia|constructor].
      * rewrite Forall_cons. split; [done|].
        intros [(seqs' & Heq & Hlen & Hall) _].
        rewrite Hf in Heq. injection Heq as <-.
        apply Hloop. by left.
    + rewrite Forall_cons. split; [done|].
      intros [(seqs & Heq & _) _]. congruence.
Qed.

(** X7.  [evaluate]'s prediction pass returns exactly when, for every
    batch, the model returned its sequences, they are at most as many as
    the batch's keys, and every id that no end sentinel precedes is in the
    vocabulary.  A batch with more sequences than keys raises
    ([IndexError]); keys beyond the sequences are left without a
    prediction. *)
Theorem evaluate_run_returns_iff
    (vocabulary : Vocabulary) (zh : bool) (batches : list batch) :
  (exists key2pred, evaluate_run vocabulary zh batches [] = (Ok tt, key2pred))
  <-> Forall (decodable vocabulary) batches.
Proof.
  rewrite <- (evaluate_run_is_ok vocabulary zh batches []).
  destruct (evaluate_run vocabulary zh batches []) as [[[]|e] d]; simpl.
  - split; [done|]. intros _. by eexists.
  - split; [by intros [? [=]]|done].
Qed.

Lemma unique_from_NoDup (seen l : list string) :
  NoDup l -> (forall x, x ∈ l -> x ∉ seen) -> BaseRunner.unique_from seen l = l.
Proof.
  revert seen. induction l as [|k l IH]; intros seen Hnd Hseen; [done|].
  apply NoDup_cons in Hnd as [Hk Hnd]. simpl.
  rewrite decide_False by (apply Hseen; left). f_equal.
  apply IH; [done|]. intros x Hx [->|Hin]%elem_of_cons; [done|].
  by apply (Hseen x); [right|].
Qed.

Definition make_entry (key : string) (idx : nat) (ref : caption) : eval_entry :=
  {| entry_audio_id := key; entry_id := idx; entry_caption := ref |}.

Lemma for_eval_loop_keys (items : list (string * list caption))
    (out : odict (list eval_entry)) :
  (for_eval_loop items out).*1 = out.*1 ++ BaseRunner.unique_from out.*1 items.*1.
Proof.
  revert out. induction items as [|[k refs] items IH]; intros out; simpl.
  - by rewrite app_nil_r.
  - rewrite IH, setitem_keys.
    destruct (decide (k ∈ out.*1)) as [Hin|Hnot]; [done|].
    rewrite <- app_assoc. simpl. do 2 f_equal.
    apply unique_from_ext. intros x.
    rewrite elem_of_app, !elem_of_cons, elem_of_nil. naive_solver.
Qed.

Lemma for_eval_loop_getitem_other (items : list (string * list caption))
    (out : odict (list eval_entry)) (k : string) :
  k ∉ items.*1 -> getitem (for_eval_loop items out) k = getitem out k.
Proof.
  revert out. induction items as [|[k' refs] items IH]; intros out Hk; [done|].
  simpl in *. rewrite IH by (intros ?; apply Hk; by right).
  rewrite getitem_setitem, decide_False; [done|].
  intros ->. apply Hk. left.
Qed.

Lemma for_eval_loop_getitem (items : list (string * list caption))
    (out : odict (list eval_entry)) (k : string) (refs : list caption) :
  NoDup items.*1 -> (k, refs) ∈ items ->
  getitem (for_eval_loop items out) k = Some (imap (make_entry k) refs).
Proof.
  revert out. induction items as [|[k' refs'] items IH]; intros out Hnd Hin.
  - by apply elem_of_nil in Hin.
  - rewrite fmap_cons in Hnd. apply NoDup_cons in Hnd as [Hk' Hnd]. simpl in *.
    apply elem_of_cons in Hin as [[= -> ->]|Hin].
    + rewrite for_eval_loop_getitem_other by done.
      by rewrite getitem_setitem, decide_True.
    + by apply IH.
Qed.

(** X8.  Building [refs4eval] or [preds4eval] from a dictionary keeps its
    keys in their order, and under each key puts one entry per caption, in
    order: the entries carry the key as audio id, the ids 0, 1, 2, ... and
    the captions themselves, so the captions can be read back unchanged. *)
Theorem for_eval_enumerates (d : odict (list caption)) :
  NoDup d.*1 ->
  (for_eval d).*1 = d.*1
  ∧ forall k refs, (k, refs) ∈ d ->
      exists entries,
        getitem (for_eval d) k = Some entries
        ∧ entry_caption <$> entries = refs
        ∧ entry_id <$> entries = seq 0 (length refs)
        ∧ forall e, e ∈ entries -> entry_audio_id e = k.
Proof.
  intros Hnd. unfold for_eval. split.
  - rewrite for_eval_loop_keys. simpl. apply unique_from_NoDup; [done|].
    intros x _. apply not_elem_of_nil.
  - intros k refs Hin. exists (imap (make_entry k) refs).
    split; [by apply for_eval_loop_getitem|]. split; [|split].
    + apply list_eq. intros i. rewrite list_lookup_fmap, list_lookup_imap.
      by destruct (refs !! i).
    + apply list_eq. intros i. rewrite list_lookup_fmap, list_lookup_imap.
      destruct (refs !! i) eqn:Hi; simpl; symmetry.
      * apply lookup_lt_Some in Hi. by rewrite lookup_seq_lt.
      * apply lookup_ge_None in Hi. by apply lookup_seq_ge.
    + intros e (i & ref & -> & _)%elem_of_lookup_imap. done.
Qed.

Lemma for_eval_enumerates_witness :
  exists entries,
    getitem (for_eval [("clip1"%string, [Str "rain"; Str "rain falls"])]) "clip1"
    = Some entries
    ∧ entry_caption <$> entries = [Str "rain"; Str "rain falls"]
    ∧ entry_id <$> entries = [0; 1].
Proof.
  destruct (for_eval_enumerates [("clip1"%string, [Str "rain"; Str "rain falls"])])
    as [_ Hentries].
  - apply NoDup_singleton.
  - destruct (Hentries "clip1"%string [Str "rain"; Str "rain falls"])
      as (entries & Hget & Hcap & Hid & _); [left|].
    exists entries. split; [exact Hget|]. split; [exact Hcap|exact Hid].
Defined.

(** The row [dcase_predict] appends for a pair. *)
Definition predicts (vocabulary : Vocabulary) (zh : bool)
    (p : string * list Z) (row : prediction) : Prop :=
  file_name row = p.1 +:+ ".wav"
  ∧ _convert_idx2sentence p.2 vocabulary zh = Ok (caption_predicted row).

Lemma dcase_loop_Ok vocabulary zh (ks : list string) (idx : nat)
    (seqs : list (list Z)) (rows rows' : list prediction) :
  dcase_loop vocabulary zh ks idx seqs rows = (Ok tt, rows') ->
  exists new,
    rows' = rows ++ new
    ∧ Forall2 (predicts vocabulary zh) (zip (drop idx ks) seqs) new.
Proof.
  revert idx rows. induction seqs as [|seq seqs IH]; intros idx rows; simpl.
  - intros [= <-]. exists []. split; [by rewrite app_nil_r|].
    rewrite zip_with_nil_r. constructor.
  - destruct (_convert_idx2sentence seq vocabulary zh) as [c|] eqn:Hc; [|done].
    destruct (ks !! idx) as [k|] eqn:Hk; [|done].
    intros (new & -> & Hnew)%IH.
    exists ({| file_name := k +:+ ".wav"; caption_predicted := c |} :: new).
    split; [by rewrite <- app_assoc|].
    rewrite (drop_S _ _ _ Hk). simpl. by constructor.
Qed.

(** X9.  When [dcase_predict]'s pass returns, [predictions] has one row
    per decoded sequence, in the order the sequences were met: the file
    name is the sequence's key followed by [".wav"] and the caption is its
    decoding.  A key met twice gives two rows; nothing is merged or
    replaced.  For logographic-script output the caption of every row is
    a token list, not a string. *)
Theorem dcase_predict_rows
    (vocabulary : Vocabulary) (zh : bool) (batches : list batch)
    (predictions : list prediction) :
  dcase_run vocabulary zh batches [] = (Ok tt, predictions) ->
  Forall2 (predicts vocabulary zh) (pairs batches) predictions
  ∧ length predictions = length (pairs batches)
  ∧ (zh = true ->
     forall row, row ∈ predictions -> exists l, caption_predicted row = Lst l).
Proof.
  assert (forall rows rows',
            dcase_run vocabulary zh batches rows = (Ok tt, rows') ->
            exists new, rows' = rows ++ new
                        ∧ Forall2 (predicts vocabulary zh) (pairs batches) new)
    as Hgen.
  { induction batches as [|b batches IH]; intros rows rows'; simpl.
    - intros [= <-]. exists []. split; [by rewrite app_nil_r|constructor].
    - unfold dcase_sample, pairs. simpl.
      destruct (forward_seqs b) as [seqs|]; [|done].
      destruct (dcase_loop vocabulary zh (keys b) 0 seqs rows) as [[[]|] r1] eqn:Hloop;
        [|done].
      apply dcase_loop_Ok in Hloop as (new1 & -> & Hnew1).
      intros (new2 & -> & Hnew2)%IH.
      exists (new1 ++ new2). split; [by rewrite app_assoc|].
      by apply Forall2_app. }
  intros (new & -> & Hnew)%Hgen. simpl.
  split; [done|]. split; [symmetry; by eapply Forall2_length|].
  intros -> row (i & Hi)%list_elem_of_lookup.
  destruct (Forall2_lookup_r _ _ _ _ _ Hnew Hi) as (p & _ & _ & Hdec).
  unfold _convert_idx2sentence in Hdec.
  destruct (candidate_loop _ _ _) as [toks|] in Hdec; [|done].
  simpl in Hdec. injection Hdec as <-. by eexists.
Qed.

Lemma dcase_predict_rows_witness :
  file_name <$> [ {| file_name := "clip1.wav"; caption_predicted := Str "a cat sleeps" |};
                  {| file_name := "clip2.wav"; caption_predicted := Str "a cat" |};
                  {| file_name := "clip1.wav"; caption_predicted := Str "cat" |} ]
  = ["clip1.wav"; "clip2.wav"; "clip1.wav"]%string
  ∧ 3 = length (pairs two_batches).
Proof.
  destruct (dcase_predict_rows demo_vocabulary false two_batches
              [ {| file_name := "clip1.wav"; caption_predicted := Str "a cat sleeps" |};
                {| file_name := "clip2.wav"; caption_predicted := Str "a cat" |};
                {| file_name := "clip1.wav"; caption_predicted := Str "cat" |} ]
              eq_refl) as (_ & Hlen & _).
  split; [reflexivity|exact Hlen].
Defined.

End PredictFacts.


(** ** The evaluator's epoch in [Runner.train] *)

Section EvalEpochFacts.

Import Py Decode Checkpoint Predict EvalEpoch.

Context {ModelState OptimizerState SchedulerState Improver Refs : Type}.
Context (_eval_prediction :
           Refs -> odict (list caption) -> outcome (gmap string Q)).
Context (scheduler_step : option Q -> SchedulerState -> SchedulerState).
Context (crtrn_imprvd : Q -> Improver -> bool * Improver).

#[local] Abbreviation state' :=
  (state ModelState OptimizerState SchedulerState Improver).
#[local] Abbreviation epoch_completed' :=
  (epoch_completed _eval_prediction scheduler_step crtrn_imprvd).
#[local] Abbreviation evaluations' :=
  (evaluations _eval_prediction scheduler_step crtrn_imprvd).

Implicit Types (st : state') (class_name : string) (refs : Refs).

(** The scheduler after the evaluator's [update_lr], if it is attached
    there. *)
Definition stepped class_name (score : Q) (s : SchedulerState) : SchedulerState :=
  if bool_decide (class_name ∈ LrSchedule.epoch_stepped) then
    scheduler_step
      (if String.eqb class_name "ReduceLROnPlateau" then Some score else None) s
  else s.

Lemma eval_val_Ok refs st st1 :
  eval_val _eval_prediction refs st = Ok st1 ->
  ∃ scores score,
    _eval_prediction refs (key2pred st) = Ok scores
    ∧ scores !! "CIDEr"%string = Some score
    ∧ st1 = {| key2pred := [];
               metrics := <["score"%string := score]> (metrics st);
               objs := objs st; improver := improver st; files := files st |}.
Proof.
  unfold eval_val. destruct (_eval_prediction _ _) as [scores|]; [|done].
  simpl. destruct (scores !! _) as [score|] eqn:Hs; [|done].
  intros [= <-]. by exists scores, score.
Qed.

Lemma update_lr_handler_Ok class_name st score :
  metrics st !! "score"%string = Some score ->
  update_lr_handler scheduler_step class_name st
  = Ok {| key2pred := key2pred st; metrics := metrics st;
          objs := set_scheduler (objs st)
                    (stepped class_name score (scheduler (objs st)));
          improver := improver st; files := files st |}.
Proof.
  intros Hscore. unfold update_lr_handler, stepped, LrSchedule.update_lr.
  destruct (bool_decide _).
  - destruct (String.eqb _ _); [rewrite Hscore|]; done.
  - destruct st as [? ? [] ? ?]; done.
Qed.

Lemma epoch_completed_Ok class_name refs st scores score :
  _eval_prediction refs (key2pred st) = Ok scores ->
  scores !! "CIDEr"%string = Some score ->
  let o := set_scheduler (objs st) (stepped class_name score (scheduler (objs st))) in
  epoch_completed' class_name refs st
  = Ok {| key2pred := [];
          metrics := <["score"%string := score]> (metrics st);
          objs := o;
          improver := (crtrn_imprvd score (improver st)).2;
          files := {| best := if (crtrn_imprvd score (improver st)).1
                              then Some (make_dump o) else best (files st);
                      last := Some (make_dump o) |} |}.
Proof.
  intros Hs Hc o. unfold epoch_completed, eval_val. rewrite Hs. simpl.
  rewrite Hc. simpl.
  rewrite (update_lr_handler_Ok class_name _ score) by apply lookup_insert_eq.
  simpl. unfold save_model_handler. simpl. rewrite lookup_insert_eq.
  by destruct (crtrn_imprvd _ _).
Qed.

(** X10.  One epoch of the evaluator, with its three handlers run in the
    order [Runner.train] registers them ([eval_val], [update_lr],
    [save_model]): if the scoring returns a dictionary with a CIDEr entry,
    the epoch completes; the shared prediction table is left empty and the
    CIDEr value is the engine's ["score"]; model, optimizer and
    vocabularies are untouched and the scheduler has been stepped once if
    its class is one of the four epoch-stepped ones (with the score only
    for ReduceLROnPlateau), not at all otherwise; [last.pth] holds the
    bundle of the objects as they are after that step, and [best.pth]
    holds the same bundle if the criterion accepted the score and is left
    as it was if not. *)
Theorem evaluator_epoch_completed class_name refs st scores score :
  _eval_prediction refs (key2pred st) = Ok scores ->
  scores !! "CIDEr"%string = Some score ->
  ∃ st1,
    epoch_completed' class_name refs st = Ok st1
    ∧ key2pred st1 = []
    ∧ metrics st1 !! "score"%string = Some score
    ∧ model_module (objs st1) = model_module (objs st)
    ∧ optimizer (objs st1) = optimizer (objs st)
    ∧ vocabulary (objs st1) = vocabulary (objs st)
    ∧ structure_vocabulary (objs st1) = structure_vocabulary (objs st)
    ∧ scheduler (objs st1) = stepped class_name score (scheduler (objs st))
    ∧ last (files st1) = Some (make_dump (objs st1))
    ∧ best (files st1)
      = (if (crtrn_imprvd score (improver st)).1
         then Some (make_dump (objs st1)) else best (files st))
    ∧ improver st1 = (crtrn_imprvd score (improver st)).2.
Proof.
  intros Hs Hc. eexists. split; [by eapply epoch_completed_Ok|].
  simpl. rewrite lookup_insert_eq. repeat split.
Qed.

Lemma evaluations_app class_name refs epochs1 epochs2 st :
  evaluations' class_name refs (epochs1 ++ epochs2) st
  = st1 ← evaluations' class_name refs epochs1 st;
    evaluations' class_name refs epochs2 st1.
Proof.
  revert st. induction epochs1 as [|[trained kc] epochs1 IH]; intros st; [done|].
  simpl. destruct (evaluation _ _ _ _ _ _ _) as [st1|]; [|done].
  simpl. apply IH.
Qed.

Lemma evaluation_Ok class_name refs kc st st1 :
  evaluation _eval_prediction scheduler_step crtrn_imprvd class_name refs kc st
  = Ok st1 ->
  ∃ scores score,
    _eval_prediction refs (foldl (fun d q => setitem d q.1 [q.2]) (key2pred st) kc)
    = Ok scores
    ∧ scores !! "CIDEr"%string = Some score
    ∧ key2pred st1 = []
    ∧ metrics st1 !! "score"%string = Some score
    ∧ last (files st1) = Some (make_dump (objs st1))
    ∧ (best (files st1) = best (files st)
       ∨ best (files st1) = last (files st1)).
Proof.
  unfold evaluation. intros Hrun.
  destruct (eval_val _eval_prediction refs (_inference st kc)) as [st2|e] eqn:Hev.
  - apply eval_val_Ok in Hev as (scores & score & Hs & Hc & _).
    rewrite (epoch_completed_Ok class_name refs _ scores score Hs Hc) in Hrun.
    injection Hrun as <-. exists scores, score. simpl.
    rewrite lookup_insert_eq. repeat split; [done..|].
    destruct (crtrn_imprvd _ _).1; auto.
  - unfold epoch_completed in Hrun. by rewrite Hev in Hrun.
Qed.

Lemma evaluations_key2pred class_name refs epochs st st1 :
  evaluations' class_name refs epochs st = Ok st1 ->
  key2pred st = [] -> key2pred st1 = [].
Proof.
  revert st. induction epochs as [|[trained kc] epochs IH]; intros st; simpl.
  - by intros [= <-].
  - destruct (evaluation _ _ _ _ _ _ _) as [st2|] eqn:Hev; [|done]. simpl.
    intros Hrun _. apply (IH _ Hrun).
    by apply evaluation_Ok in Hev as (_ & _ & _ & _ & -> & _).
Qed.

(** X12.  Predictions do not leak from one evaluation into the next.  In
    a run of evaluations that starts with an empty prediction table, the
    score the engine holds after any evaluation is the CIDEr entry of the
    scoring of that evaluation's own predictions, each key with its last
    candidate, and of nothing else; the table is empty again afterwards
    and [last.pth] holds the bundle of the objects as they are then. *)
Theorem evaluation_scores_own_predictions class_name refs epochs trained kc st st1 :
  key2pred st = [] ->
  evaluations' class_name refs (epochs ++ [(trained, kc)]) st = Ok st1 ->
  ∃ scores score,
    _eval_prediction refs (foldl (fun d q => setitem d q.1 [q.2]) [] kc) = Ok scores
    ∧ scores !! "CIDEr"%string = Some score
    ∧ metrics st1 !! "score"%string = Some score
    ∧ key2pred st1 = []
    ∧ last (files st1) = Some (make_dump (objs st1)).
Proof.
  intros Hempty. rewrite evaluations_app.
  destruct (evaluations' class_name refs epochs st) as [st2|] eqn:Hpre; [|done].
  simpl. destruct (evaluation _ _ _ _ _ _ _) as [st3|] eqn:Hev; [|done].
  simpl. intros [= <-].
  apply evaluation_Ok in Hev as (scores & score & Hs & Hc & Hk & Hm & Hl & _).
  simpl in Hs. rewrite (evaluations_key2pred _ _ _ _ _ Hpre Hempty) in Hs.
  by exists scores, score.
Qed.

(** X13.  [best.pth] is never a bundle of its own: after a run of
    evaluations it is either as it was before the run, or it is the
    bundle that some evaluation of the run wrote to [last.pth]. *)
Theorem best_is_some_evaluations_last class_name refs epochs st st1 :
  evaluations' class_name refs epochs st = Ok st1 ->
  best (files st1) = best (files st)
  ∨ ∃ epochs1 epochs2 st2,
      epochs = epochs1 ++ epochs2 ∧ epochs1 ≠ []
      ∧ evaluations' class_name refs epochs1 st = Ok st2
      ∧ best (files st1) = last (files st2)
      ∧ last (files st2) = Some (make_dump (objs st2)).
Proof.
  revert st1. induction epochs as [|[trained kc] epochs IH] using rev_ind;
    intros st1.
  - intros [= <-]. by left.
  - rewrite evaluations_app.
    destruct (evaluations' class_name refs epochs st) as [st2|] eqn:Hpre; [|done].
    simpl. destruct (evaluation _ _ _ _ _ _ _) as [st3|] eqn:Hev; [|done].
    simpl. intros [= <-].
    destruct (evaluation_Ok _ _ _ _ _ Hev)
      as (scores & score & _ & _ & _ & _ & Hl & Hb).
    simpl in Hb. destruct Hb as [Hb|Hb].
    + rewrite Hb.
      destruct (IH st2 eq_refl) as [?|(e1 & e2 & st4 & -> & ? & ? & ? & ?)];
        [by left|right].
      exists e1, (e2 ++ [(trained, kc)]), st4. by rewrite app_assoc.
    + right. exists (epochs ++ [(trained, kc)]), [], st3.
      rewrite app_nil_r. split; [done|]. split; [by destruct epochs|].
      split; [|done].
      rewrite evaluations_app, Hpre. simpl. by rewrite Hev.
Qed.

End EvalEpochFacts.

Section EvalEpochRuns.

Import Py Decode Checkpoint Predict EvalEpoch.

(** A stand-in for the scoring: CIDEr is the number of predicted keys. *)
Definition count_scorer (_ : unit) (preds : odict (list caption))
  : outcome (gmap string Q) :=
  Ok {[ "CIDEr"%string := inject_Z (Z.of_nat (length preds)) ]}.

(** Stand-ins for the torch objects: the model counts its training
    epochs, the scheduler its steps. *)
Definition bundle (epochs steps : nat) : objects nat nat nat :=
  {| model_module := epochs; optimizer := 0%nat; scheduler := steps;
     vocabulary := demo_vocabulary; structure_vocabulary := demo_vocabulary |}.

Definition trained (o : objects nat nat nat) : objects nat nat nat :=
  {| model_module := S (model_module o); optimizer := optimizer o;
     scheduler := scheduler o; vocabulary := vocabulary o;
     structure_vocabulary := structure_vocabulary o |}.

Definition fresh_state : state nat nat nat (option Q) :=
  {| key2pred := []; metrics := ∅; objs := bundle 0 0; improver := None;
     files := {| best := None; last := None |} |}.

Definition one_prediction : state nat nat nat (option Q) :=
  {| key2pred := [("clip1"%string, [Str "cat"])]; metrics := ∅;
     objs := bundle 1 0; improver := None;
     files := {| best := None; last := None |} |}.

(** Two evaluations: three predictions for two keys, then one. *)
Definition two_evaluations
  : list ((objects nat nat nat -> objects nat nat nat) * list (string * caption)) :=
  [ (trained, [("clip1"%string, Str "a cat"); ("clip2"%string, Str "a cat sleeps");
               ("clip1"%string, Str "cat")]);
    (trained, [("clip1"%string, Str "a cat")]) ].

Definition two_evaluations_end : state nat nat nat (option Q) :=
  {| key2pred := [];
     metrics := <["score"%string := 1%Q]> (<["score"%string := 2%Q]> ∅);
     objs := bundle 2 2; improver := Some 2%Q;
     files := {| best := Some (make_dump (bundle 1 1));
                 last := Some (make_dump (bundle 2 2)) |} |}.

Lemma two_evaluations_run :
  evaluations count_scorer (fun _ => S) (crtrn_imprvd Maximize) "StepLR" tt
    two_evaluations fresh_state
  = Ok two_evaluations_end.
Proof. vm_compute. reflexivity. Qed.

Lemma evaluator_epoch_completed_witness :
  exists st1,
    epoch_completed count_scorer (fun _ => S) (crtrn_imprvd Maximize)
      "ReduceLROnPlateau" tt one_prediction = Ok st1
    ∧ key2pred st1 = []
    ∧ metrics st1 !! "score"%string = Some 1%Q
    ∧ scheduler (objs st1) = 1%nat
    ∧ best (files st1) = last (files st1).
Proof.
  destruct (evaluator_epoch_completed count_scorer (fun _ => S)
              (crtrn_imprvd Maximize) "ReduceLROnPlateau" tt one_prediction
              {[ "CIDEr"%string := 1%Q ]} 1%Q eq_refl eq_refl)
    as (st1 & Hrun & Hk & Hm & _ & _ & _ & _ & Hs & Hl & Hb & _).
  exists st1. repeat split; [exact Hrun|exact Hk|exact Hm|exact Hs|].
  rewrite Hb, Hl. reflexivity.
Defined.

Lemma evaluation_scores_own_predictions_witness :
  key2pred fresh_state = []
  ∧ exists scores score,
      count_scorer tt
        (foldl (fun d q => setitem d q.1 [q.2]) [] [("clip1"%string, Str "a cat")])
      = Ok scores
      ∧ scores !! "CIDEr"%string = Some score
      ∧ metrics two_evaluations_end !! "score"%string = Some score
      ∧ key2pred two_evaluations_end = []
      ∧ last (files two_evaluations_end)
        = Some (make_dump (objs two_evaluations_end)).
Proof.
  split; [reflexivity|].
  exact (evaluation_scores_own_predictions count_scorer (fun _ => S)
           (crtrn_imprvd Maximize) "StepLR" tt
           [(trained, [("clip1"%string, Str "a cat");
                       ("clip2"%string, Str "a cat sleeps");
                       ("clip1"%string, Str "cat")])]
           trained [("clip1"%string, Str "a cat")]
           fresh_state two_evaluations_end eq_refl two_evaluations_run).
Defined.

Lemma best_is_some_evaluations_last_witness :
  best (files two_evaluations_end) = Some (make_dump (bundle 1 1))
  ∧ (best (files two_evaluations_end) = best (files fresh_state)
     ∨ exists epochs1 epochs2 st2,
         two_evaluations = epochs1 ++ epochs2 ∧ epochs1 ≠ []
         ∧ evaluations count_scorer (fun _ => S) (crtrn_imprvd Maximize)
             "StepLR" tt epochs1 fresh_state = Ok st2
         ∧ best (files two_evaluations_end) = last (files st2)
         ∧ last (files st2) = Some (make_dump (objs st2))).
Proof.
  split; [reflexivity|].
  exact (best_is_some_evaluations_last count_scorer (fun _ => S)
           (crtrn_imprvd Maximize) "StepLR" tt two_evaluations
           fresh_state two_evaluations_end two_evaluations_run).
Defined.

End EvalEpochRuns.

(** ** The rows of [pred_df] in [BaseRunner.evaluate] *)

Section PredDfFacts.

Import Vocab Decode Sample Predict PredDf.

(** A whitespace character starts at some byte of [w], in [w] followed
    by [tail]. *)
Fixpoint spaced (w tail : string) : bool :=
  match w with
  | EmptyString => false
  | String c w' =>
      negb (whitespace_length (w +:+ tail) =? 0) || spaced w' tail
  end.

Definition has_space (w : string) : bool := spaced w EmptyString.

(** A token that [split] gives back as it is: not empty, and without a
    whitespace character. *)
Definition clean (w : string) : Prop := w ≠ EmptyString ∧ has_space w = false.

Lemma string_app_assoc (s t u : string) : (s +:+ t) +:+ u = s +:+ (t +:+ u).
Proof.
  induction s as [|a s IH]; [done|]. by rewrite !string_app_cons, IH.
Qed.

(** No whitespace encoding has a space as its second or third byte. *)
Lemma space2_space (b0 : nat) : space2 b0 32 = false.
Proof. unfold space2. by destruct (b0 =? 194). Qed.

Lemma space3_space_1 (b0 b2 : nat) : space3 b0 32 b2 = false.
Proof.
  unfold space3.
  by destruct (b0 =? 225), (b0 =? 226), (b0 =? 227).
Qed.

Lemma space3_space_2 (b0 b1 : nat) : space3 b0 b1 32 = false.
Proof.
  unfold space3.
  by destruct (b0 =? 225), (b0 =? 226), (b0 =? 227), (b1 =? 154),
    (b1 =? 128), (b1 =? 129).
Qed.

(** A string that starts with no whitespace character keeps doing so
    when cut short, and when a space follows it. *)
Lemma whitespace_length_prefix (u r : string) :
  whitespace_length (u +:+ r) = 0 -> whitespace_length u = 0.
Proof.
  destruct u as [|a [|b [|c u]]]; [done|..]; rewrite ?string_app_cons;
    change (EmptyString +:+ r) with r; simpl.
  - by destruct (space1 (nat_of_ascii a)).
  - destruct (space1 (nat_of_ascii a)); [done|].
    by destruct (space2 (nat_of_ascii a) (nat_of_ascii b)).
  - done.
Qed.

Lemma whitespace_length_space_tail (u r : string) :
  u ≠ EmptyString ->
  whitespace_length u = 0 ->
  whitespace_length (u +:+ String " " r) = 0.
Proof.
  destruct u as [|a [|b [|c u]]]; [done|..]; intros _;
    rewrite ?string_app_cons; change (EmptyString +:+ String " " r)
      with (String " " r); simpl.
  - destruct (space1 (nat_of_ascii a)); [done|]. intros _.
    change (nat_of_ascii " ") with 32. rewrite space2_space.
    destruct r; [done|]. by rewrite space3_space_1.
  - destruct (space1 (nat_of_ascii a)); [done|].
    destruct (space2 (nat_of_ascii a) (nat_of_ascii b)); [done|]. intros _.
    change (nat_of_ascii " ") with 32. by rewrite space3_space_2.
  - done.
Qed.

Lemma spaced_app_char (w rest : string) (c : ascii) :
  spaced (w +:+ String c EmptyString) rest
  = spaced w (String c rest) || negb (whitespace_length (String c rest) =? 0).
Proof.
  induction w as [|a w IH].
  - change (EmptyString +:+ String c EmptyString) with (String c EmptyString).
    cbn [spaced]. rewrite string_app_cons.
    change (EmptyString +:+ rest) with rest. by rewrite orb_false_r.
  - rewrite string_app_cons. cbn [spaced].
    rewrite IH, <- (string_app_cons a), string_app_assoc, string_app_cons.
    change (EmptyString +:+ rest) with rest. by rewrite orb_assoc.
Qed.

Lemma spaced_prefix (w tail : string) :
  spaced w tail = false -> has_space w = false.
Proof.
  unfold has_space. induction w as [|a w IH]; [done|]. cbn [spaced].
  intros [Hhere Hrest]%orb_false_elim.
  apply negb_false_iff, Nat.eqb_eq in Hhere.
  rewrite (IH Hrest), orb_false_r.
  apply negb_false_iff, Nat.eqb_eq.
  rewrite string_app_nil_r. by eapply whitespace_length_prefix.
Qed.

Lemma spaced_space_tail (w r : string) :
  has_space w = false -> spaced w (String " " r) = false.
Proof.
  unfold has_space. induction w as [|a w IH]; [done|]. cbn [spaced].
  intros [Hhere Hrest]%orb_false_elim.
  apply negb_false_iff, Nat.eqb_eq in Hhere.
  rewrite string_app_nil_r in Hhere.
  rewrite (IH Hrest), orb_false_r.
  apply negb_false_iff, Nat.eqb_eq.
  by apply whitespace_length_space_tail.
Qed.

(** Reading a run without whitespace extends the word by it. *)
Lemma split_from_run (w tail acc : string) :
  spaced w tail = false ->
  split_from (w +:+ tail) 0 (Some acc) = split_from tail 0 (Some (acc +:+ w)).
Proof.
  revert acc. induction w as [|c w IH]; intros acc.
  - intros _. by rewrite string_app_nil_r.
  - cbn [spaced]. intros [Hhere Hrest]%orb_false_elim.
    apply negb_false_iff, Nat.eqb_eq in Hhere.
    rewrite string_app_cons in Hhere |- *. cbn [split_from].
    rewrite Hhere, (IH _ Hrest).
    by rewrite string_app_assoc, string_app_cons.
Qed.

Lemma split_from_first (w tail : string) :
  spaced w tail = false ->
  w ≠ EmptyString ->
  split_from (w +:+ tail) 0 None = split_from tail 0 (Some w).
Proof.
  destruct w as [|c w]; [done|]. cbn [spaced].
  intros [Hhere Hrest]%orb_false_elim _.
  apply negb_false_iff, Nat.eqb_eq in Hhere.
  rewrite string_app_cons in Hhere |- *. cbn [split_from].
  rewrite Hhere, (split_from_run _ _ _ Hrest).
  by rewrite string_app_cons.
Qed.

(** Joining clean tokens by single spaces and splitting gives them back. *)
Lemma split_join (toks : list string) :
  Forall clean toks -> split (join " " toks) = toks.
Proof.
  unfold split. induction toks as [|t toks IH]; [done|].
  intros [[Hne Ht] Htoks]%Forall_cons. destruct toks as [|t' toks].
  - simpl. rewrite <- (string_app_nil_r t) at 1.
    by rewrite split_from_first.
  - change (join " " (t :: t' :: toks))
      with (t +:+ " " +:+ join " " (t' :: toks)).
    change (" " +:+ join " " (t' :: toks))
      with (String " " (join " " (t' :: toks))).
    rewrite split_from_first by (by try apply spaced_space_tail).
    cbn [split_from]. f_equal. by apply IH.
Qed.

(** Whatever the string, [split] yields clean words only. *)
Lemma split_from_clean (s : string) (skip : nat) (word : option string) :
  (forall w, word = Some w ->
             skip = 0 ∧ w ≠ EmptyString ∧ spaced w s = false) ->
  Forall clean (split_from s skip word).
Proof.
  revert skip word. induction s as [|c s IH]; intros skip word Hword.
  - simpl. destruct word as [w|]; [|done].
    destruct (Hword w eq_refl) as (_ & Hne & Hw).
    constructor; [by split|done].
  - cbn [split_from]. destruct skip as [|k].
    + destruct (whitespace_length (String c s)) as [|k] eqn:Hlen.
      * apply IH. intros w' [= <-]. split; [done|].
        destruct word as [w|].
        -- destruct (Hword w eq_refl) as (_ & Hne & Hw). split.
           ++ by destruct w.
           ++ by rewrite spaced_app_char, Hw, Hlen.
        -- split; [done|]. cbn [spaced]. rewrite string_app_cons.
           change (EmptyString +:+ s) with s. by rewrite Hlen.
      * destruct word as [w|]; [|by apply IH].
        destruct (Hword w eq_refl) as (_ & Hne & Hw).
        constructor; [|by apply IH].
        split; [done|]. by eapply spaced_prefix.
    + apply IH. intros w ->. by destruct (Hword w eq_refl).
Qed.

Lemma split_clean (s : string) : Forall clean (split s).
Proof. by apply split_from_clean. Qed.

(** The tokens kept by the decoding loop are words of the vocabulary. *)
Lemma candidate_loop_words (iw : gmap Z string) (ids : list Z)
    (acc toks : list string) (P : string -> Prop) :
  (forall i w, iw !! i = Some w -> P w) ->
  Forall P acc ->
  candidate_loop iw ids acc = Ok toks ->
  Forall P toks.
Proof.
  intros Hiw. revert acc. induction ids as [|i ids IH]; intros acc Hacc; simpl.
  - by intros [= <-].
  - destruct (iw !! i) as [w|] eqn:Hi; [|done].
    destruct (String.eqb w END); [by intros [= <-]|].
    destruct (String.eqb w START); [by apply IH|].
    apply IH. apply Forall_app. split; [done|].
    constructor; [by eapply Hiw|done].
Qed.

(** X14.  The row [evaluate] writes for a decoded sequence: the file name
    is the key followed by [".wav"]; the caption is the kept tokens
    joined, by nothing for logographic-script output and by single spaces
    otherwise; and the ["tokens"] field is the list of kept tokens itself
    in the logographic case, and otherwise exactly when no kept token is
    empty or contains a whitespace character, which holds whenever no word
    of the vocabulary does.  Building the row does not raise. *)
Theorem pred_row_of_decoding
    (vocabulary : Vocabulary) (zh : bool) (key : string) (ids : list Z)
    (c : caption) :
  _convert_idx2sentence ids vocabulary zh = Ok c ->
  exists toks r,
    candidate_loop (idx2word vocabulary) ids [] = Ok toks
    ∧ row zh key [c] = Ok r
    ∧ filename r = key +:+ ".wav"
    ∧ row_caption r = Str (join (if zh then "" else " ") toks)
    ∧ (tokens r = Lst toks <-> zh = true ∨ Forall clean toks)
    ∧ ((forall i w, idx2word vocabulary !! i = Some w -> clean w) ->
       tokens r = Lst toks).
Proof.
  unfold _convert_idx2sentence.
  destruct (candidate_loop (idx2word vocabulary) ids []) as [toks|] eqn:Hloop;
    [|done].
  simpl. intros [= <-]. exists toks.
  destruct zh; simpl.
  - eexists. repeat split; simpl; auto.
  - eexists. repeat split; simpl.
    + intros [= Heq]. right. rewrite <- Heq. apply split_clean.
    + intros [?|Hclean]; [done|]. by rewrite split_join.
    + intros Hvoc. rewrite split_join; [done|].
      by eapply candidate_loop_words.
Qed.

Lemma pred_df_loop_Ok (zh : bool) (items : list (string * list caption))
    (acc : list pred_row) :
  Forall (fun x => exists c, x.2 = [c]
                     ∧ ((zh = true ∧ exists l, c = Lst l)
                        ∨ (zh = false ∧ exists s, c = Str s))) items ->
  exists rows,
    pred_df_loop zh items acc = Ok (acc ++ rows)
    ∧ Forall2 (fun x r => row zh x.1 x.2 = Ok r) items rows.
Proof.
  revert acc. induction items as [|[k pred] items IH]; intros acc.
  - intros _. exists []. by rewrite app_nil_r.
  - intros [(c & Hc & Hkind) Hitems]%Forall_cons. simpl in Hc. subst pred.
    assert (exists r, row zh k [c] = Ok r) as [r Hr].
    { destruct Hkind as [[-> [l ->]]|[-> [s ->]]]; simpl; by eexists. }
    change (pred_df_loop zh ((k, [c]) :: items) acc)
      with (r ← row zh k [c]; pred_df_loop zh items (acc ++ [r])).
    rewrite Hr. simpl.
    destruct (IH (acc ++ [r]) Hitems) as (rows & -> & Hrows).
    exists (r :: rows). split; [by rewrite <- app_assoc|].
    by constructor.
Qed.

(** X15.  After a prediction pass of [evaluate] that returned, building
    [pred_df] does not raise ([pred[0]] always exists, and [split] is only
    ever called on a string), and the table has exactly one row per
    distinct key met, in order of first appearance, with the key followed
    by [".wav"] as file name, a string as caption and a list as tokens. *)
Theorem pred_df_one_row_per_key
    (vocabulary : Vocabulary) (zh : bool) (batches : list batch)
    (key2pred : odict (list caption)) :
  evaluate_run vocabulary zh batches [] = (Ok tt, key2pred) ->
  exists rows,
    pred_df zh key2pred = Ok rows
    ∧ filename <$> rows
      = (fun k => k +:+ ".wav") <$> BaseRunner.unique (pairs batches).*1
    ∧ Forall (fun r => (exists s, row_caption r = Str s)
                       ∧ (exists l, tokens r = Lst l)) rows.
Proof.
  intros Hrun.
  destruct (evaluate_run_Ok _ _ _ _ _ Hrun) as (kc & -> & Hkc).
  assert (Forall (fun x : string * list caption =>
                    exists c, x.2 = [c]
                      ∧ ((zh = true ∧ exists l, c = Lst l)
                         ∨ (zh = false ∧ exists s, c = Str s)))
                 (assign [] kc)) as Hitems.
  { apply Forall_forall. intros x [Hx|(c & Hc & Hx)]%elem_of_assign;
      [by apply elem_of_nil in Hx|].
    exists c. split; [done|].
    apply list_elem_of_lookup in Hc as [i Hi].
    destruct (Forall2_lookup_r _ _ _ _ _ Hkc Hi) as (p & _ & _ & Hdec).
    simpl in Hdec. unfold _convert_idx2sentence in Hdec.
    destruct (candidate_loop _ _ _) as [toks|] in Hdec; [|done].
    simpl in Hdec. injection Hdec as <-.
    destruct zh; simpl; [left|right]; split; try done; by eexists. }
  destruct (pred_df_loop_Ok zh _ [] Hitems) as (rows & Hdf & Hrows).
  exists rows. split; [exact Hdf|]. split.
  - transitivity ((fun k => k +:+ ".wav") <$> (assign [] kc).*1).
    + clear Hdf Hitems Hrun. induction Hrows as [|[k pred] r items rows Hr _ IH];
        [done|].
      rewrite !fmap_cons. f_equal; [|exact IH].
      simpl in Hr. destruct pred as [|pred0 pred]; [done|]. simpl in Hr.
      destruct (if zh then _ else _) in Hr; [|done].
      simpl in Hr. by injection Hr as <-.
    + f_equal. rewrite assign_keys. simpl.
      by rewrite <- (decodes_keys _ _ _ _ Hkc).
  - apply Forall_forall. intros r [i Hi]%list_elem_of_lookup.
    destruct (Forall2_lookup_r _ _ _ _ _ Hrows Hi) as ([k pred] & Hx & Hr).
    apply list_elem_of_lookup_2 in Hx.
    rewrite Forall_forall in Hitems.
    destruct (Hitems _ Hx) as (c & Hc & Hkind). simpl in Hc, Hr. subst pred.
    destruct Hkind as [[-> [l ->]]|[-> [s ->]]]; simpl in Hr;
      injection Hr as <-; simpl; split; by eexists.
Qed.

End PredDfFacts.

Section PredDfRuns.

Import Vocab Decode Sample Predict PredDf.

(** A vocabulary with a no-break space (U+00A0, two bytes in UTF-8)
    inside a word: the word is one token to the decoder and two to
    [split]. *)
Definition nbsp_word : string :=
  String "a" (String (ascii_of_nat 194) (String (ascii_of_nat 160) "b")).

Definition nbsp_vocabulary : Vocabulary :=
  {| idx2word := <[8%Z := nbsp_word]> (idx2word demo_vocabulary) |}.

Lemma nbsp_word_is_split :
  _convert_idx2sentence [0; 8; 3; 1]%Z nbsp_vocabulary false
  = Ok (Str (nbsp_word +:+ " cat"))
  ∧ split (nbsp_word +:+ " cat") = ["a"; "b"; "cat"]%string
  ∧ has_space nbsp_word = true.
Proof. repeat split; vm_compute; reflexivity. Qed.

Lemma pred_row_of_decoding_witness :
  exists toks r,
    candidate_loop (idx2word demo_vocabulary) [0; 2; 3; 4; 1]%Z [] = Ok toks
    ∧ row false "clip1" [Str "a cat sleeps"] = Ok r
    ∧ filename r = "clip1" +:+ ".wav"
    ∧ row_caption r = Str (join " " toks)
    ∧ (tokens r = Lst toks <-> false = true ∨ Forall clean toks)
    ∧ ((forall i w, idx2word demo_vocabulary !! i = Some w -> clean w) ->
       tokens r = Lst toks).
Proof.
  exact (pred_row_of_decoding demo_vocabulary false "clip1"
           [0; 2; 3; 4; 1]%Z (Str "a cat sleeps") eq_refl).
Defined.

Lemma pred_df_one_row_per_key_witness :
  exists rows,
    pred_df false
      [("clip1"%string, [Str "cat"]); ("clip2"%string, [Str "a cat"])] = Ok rows
    ∧ filename <$> rows
      = (fun k => k +:+ ".wav") <$> BaseRunner.unique (pairs two_batches).*1
    ∧ Forall (fun r => (exists s, row_caption r = Str s)
                       ∧ (exists l, tokens r = Lst l)) rows.
Proof.
  exact (pred_df_one_row_per_key demo_vocabulary false two_batches
           _ two_batches_run).
Defined.

End PredDfRuns.

(** ** The start of [Runner.train] *)

Section TrainFacts.

Import Sample Train.

(** X16.  With every external call returning and the rank given on the
    command line matching the process's, the start of [train] gets as far
    as building the model exactly on the main process (a run that is not
    distributed, or rank 0).  On any other process it raises
    [UnboundLocalError] for [logger], read outside the main-process guard
    that assigns it, right after the data loaders are built: no logger is
    created and the model is never built. *)
Theorem train_setup_returns_iff_main_process (p : process) :
  (forall s, returns p s = Ok tt) ->
  (distributed p = true -> kwargs_local_rank p = Some (get_rank p)) ->
  (is_ok (train_setup p []).1 = true <-> main_process p = true)
  ∧ (main_process p = true ->
     last ((train_setup p []).2) = Some (get_model true))
  ∧ (main_process p = false ->
     (train_setup p []).1 = Raise (UnboundLocalError "logger")
     ∧ last ((train_setup p []).2) = Some get_dataloaders
     ∧ (genlogger ∉ (train_setup p []).2)
     ∧ (forall b, get_model b ∉ (train_setup p []).2)).
Proof.
  intros Hall Hrank.
  unfold train_setup, main_process, call, lift, mbind, traced_bind, mret,
    traced_ret.
  rewrite !Hall.
  destruct (distributed p) eqn:Hd; simpl.
  - rewrite (Hrank eq_refl), Z.eqb_refl, ?Hall.
    destruct (get_rank p =? 0)%Z; simpl; rewrite ?Hall; simpl.
    + destruct (slurm_job_id p); simpl; rewrite ?Hall; simpl;
        (split; [done|]; split; done).
    + split; [done|]. split; [done|]. intros _.
      split; [done|]. split; [done|].
      split; [|intros b]; rewrite !elem_of_cons, elem_of_nil; naive_solver.
  - destruct (slurm_job_id p); simpl; rewrite ?Hall; simpl;
      (split; [done|]; split; done).
Qed.

Definition second_process : process :=
  {| distributed := true; get_rank := 1; kwargs_local_rank := Some 1%Z;
     slurm_job_id := false; returns := fun _ => Ok tt |}.

Lemma train_setup_returns_iff_main_process_witness :
  (train_setup second_process []).1 = Raise (UnboundLocalError "logger")
  ∧ (train_setup second_process []).2
    = [parse_config_or_kwargs; init_process_group; set_device; get_dataloaders]
  ∧ forall b, get_model b ∉ ((train_setup second_process []).2).
Proof.
  destruct (train_setup_returns_iff_main_process second_process
              (fun _ => eq_refl) (fun _ => eq_refl))
    as (_ & _ & Hoff).
  destruct (Hoff eq_refl) as (Hraise & _ & _ & Hmodel).
  split; [exact Hraise|]. split; [reflexivity|exact Hmodel].
Defined.

End TrainFacts.
